(** * Engine session of the Arimaa analyzer (Aiexecutables/mypy.py)

    The script starts an AEI engine as a child process, drains the engine's
    output on a daemon thread into a [queue.Queue], sends a fixed board
    set-up followed by [go], and polls the queue until a line starting with
    [bestmove] shows up; it then sends [quit] and waits for the process.

    The development embeds the script as a transition system.  The engine
    is the environment: it writes bytes to its output, closes its output
    or its input, and exits, whenever it likes.  The drainer thread takes
    one turn of its loop at a time (a [readline], the decoding and the
    [q.put]), the main thread one statement at a time, under an arbitrary
    schedule.  Python's [str] is a list of code points, [bytes] a list of
    [Byte.byte]; the UTF-8 codec is written out and proved to round-trip.
    The state keeps, beside the variables of the script, the history of
    what was written, read, put and taken, in which the properties are
    stated.  The console is part of the environment as well: a [print]
    returns or raises, as the console decides.  So is the operating system
    that starts the engine, or refuses to. *)

From Stdlib Require Import List NArith ZArith Bool Lia Arith.
From Stdlib Require Import Strings.String Strings.Ascii Strings.Byte.
Import ListNotations.

Local Open Scope N_scope.

(* ===================================================================== *)
(** ** Python values: [bytes] and [str] *)
(* ===================================================================== *)

(** [bytes]: a sequence of octets. *)
Definition bytes := list byte.

(** [str]: a sequence of Unicode code points (a well-formed [str] holds
    code points up to [0x10FFFF], lone surrogates included). *)
Definition codepoint := N.
Definition str := list codepoint.

Module Text.

(** An ASCII literal of the script as a [str]. *)
Definition lit (s : string) : str :=
  map N_of_ascii (list_ascii_of_string s).

(** The character [\n]. *)
Definition NL : codepoint := 10.

Definition is_surrogate (c : codepoint) : bool :=
  (0xD800 <=? c) && (c <=? 0xDFFF).

(** [s.startswith(prefix)] *)
Fixpoint startswith (s prefix : str) {struct prefix} : bool :=
  match prefix, s with
  | [], _ => true
  | p :: prefix', c :: s' => (c =? p) && startswith s' prefix'
  | _ :: _, [] => false
  end.

(** [s.lstrip(chars)] where [chars] is the one character [ch]: every
    leading occurrence goes. *)
Fixpoint lstrip (ch : codepoint) (s : str) : str :=
  match s with
  | c :: s' => if c =? ch then lstrip ch s' else s
  | [] => []
  end.

(** [s.rstrip(chars)] where [chars] is the one character [ch]: every
    trailing occurrence goes, not only the last one. *)
Definition rstrip (ch : codepoint) (s : str) : str :=
  rev (lstrip ch (rev s)).

(** [needle in s] *)
Fixpoint contains (s needle : str) : bool :=
  startswith s needle ||
  match s with
  | [] => false
  | _ :: s' => contains s' needle
  end.

End Text.

(* ===================================================================== *)
(** ** The UTF-8 codec behind [str.encode("utf-8")] and
       [bytes.decode("utf-8")] (error handler [strict]) *)
(* ===================================================================== *)

Module Utf8.

Definition octet (n : N) : byte :=
  match Byte.of_N n with
  | Some b => b
  | None => x00
  end.

(** Continuation byte: [(b & 0xC0) == 0x80]. *)
Definition is_cont (b : byte) : bool :=
  N.land (Byte.to_N b) 0xC0 =? 0x80.

(** Payload of a continuation byte. *)
Definition low6 (b : byte) : N := N.land (Byte.to_N b) 0x3F.

(** Encoding of one code point.  A surrogate is refused
    ([UnicodeEncodeError]); so is a number that is no code point. *)
Definition encode_char (c : codepoint) : option bytes :=
  if c <? 0x80 then
    Some [octet c]
  else if c <? 0x800 then
    Some [octet (N.lor 0xC0 (N.shiftr c 6));
          octet (N.lor 0x80 (N.land c 0x3F))]
  else if c <? 0x10000 then
    if Text.is_surrogate c then None
    else
      Some [octet (N.lor 0xE0 (N.shiftr c 12));
            octet (N.lor 0x80 (N.land (N.shiftr c 6) 0x3F));
            octet (N.lor 0x80 (N.land c 0x3F))]
  else if c <=? 0x10FFFF then
    Some [octet (N.lor 0xF0 (N.shiftr c 18));
          octet (N.lor 0x80 (N.land (N.shiftr c 12) 0x3F));
          octet (N.lor 0x80 (N.land (N.shiftr c 6) 0x3F));
          octet (N.lor 0x80 (N.land c 0x3F))]
  else None.

(** [s.encode("utf-8")]; [None] stands for [UnicodeEncodeError]. *)
Fixpoint encode (s : str) : option bytes :=
  match s with
  | [] => Some []
  | c :: s' =>
      match encode_char c, encode s' with
      | Some bs, Some bs' => Some (bs ++ bs')
      | _, _ => None
      end
  end.

(** [bs.decode("utf-8")]; [None] stands for [UnicodeDecodeError].
    The decoder is strict: stray continuation bytes, the lead bytes
    [0xC0], [0xC1] and [0xF5..0xFF], overlong forms, surrogates, values
    above [0x10FFFF] and a sequence cut short by the end of the data are
    all refused. *)
Fixpoint decode (bs : bytes) : option str :=
  match bs with
  | [] => Some []
  | b0 :: r0 =>
      let c0 := Byte.to_N b0 in
      if c0 <? 0x80 then
        option_map (cons c0) (decode r0)
      else if c0 <? 0xC2 then None
      else if c0 <? 0xE0 then
        match r0 with
        | b1 :: r1 =>
            if is_cont b1 then
              option_map
                (cons (N.lor (N.shiftl (N.land c0 0x1F) 6) (low6 b1)))
                (decode r1)
            else None
        | _ => None
        end
      else if c0 <? 0xF0 then
        match r0 with
        | b1 :: b2 :: r2 =>
            if is_cont b1 && is_cont b2
               && negb ((c0 =? 0xE0) && (Byte.to_N b1 <? 0xA0))
               && negb ((c0 =? 0xED) && (0xA0 <=? Byte.to_N b1))
            then
              option_map
                (cons (N.lor (N.shiftl (N.land c0 0x0F) 12)
                         (N.lor (N.shiftl (low6 b1) 6) (low6 b2))))
                (decode r2)
            else None
        | _ => None
        end
      else if c0 <? 0xF5 then
        match r0 with
        | b1 :: b2 :: b3 :: r3 =>
            if is_cont b1 && is_cont b2 && is_cont b3
               && negb ((c0 =? 0xF0) && (Byte.to_N b1 <? 0x90))
               && negb ((c0 =? 0xF4) && (0x90 <=? Byte.to_N b1))
            then
              option_map
                (cons (N.lor (N.shiftl (N.land c0 0x07) 18)
                         (N.lor (N.shiftl (low6 b1) 12)
                            (N.lor (N.shiftl (low6 b2) 6) (low6 b3)))))
                (decode r3)
            else None
        | _ => None
        end
      else None
  end.

End Utf8.

(* ===================================================================== *)
(** ** The child process and its pipes *)
(* ===================================================================== *)

(** The exceptions of the script.  [BrokenPipeError] and
    [FileNotFoundError] are classes of [OSError]; [OSError] here is an
    [OSError] of any other class. *)
Inductive exn : Type :=
| UnicodeEncodeError
| UnicodeDecodeError
| BrokenPipeError
| FileNotFoundError
| OSError.

(** [engine.poll()]: the process runs, or has ended with a return code. *)
Inductive process_status : Type :=
| Running
| Terminated (returncode : Z).

Definition alive (p : process_status) : bool :=
  match p with
  | Running => true
  | Terminated _ => false
  end.

(** [engine.stdin], a buffered writer over the pipe to the engine. *)
Inductive io_call : Type :=
| Write (data : bytes)
| Flush.

Record writer : Type := {
  calls : list io_call;   (* the calls made on the object, oldest first *)
  buffered : bytes;       (* written and not yet flushed *)
  delivered : bytes       (* handed to the pipe: what the engine reads *)
}.

Definition fresh_writer : writer :=
  {| calls := []; buffered := []; delivered := [] |}.

Definition write (data : bytes) (w : writer) : writer :=
  {| calls := calls w ++ [Write data];
     buffered := buffered w ++ data;
     delivered := delivered w |}.

(** [flush()]: the buffer goes to the pipe; with a reader that is gone the
    pending bytes cannot be written and the call raises. *)
Definition flush (reader_alive : bool) (w : writer) : writer * option exn :=
  match buffered w with
  | [] =>
      ({| calls := calls w ++ [Flush];
          buffered := [];
          delivered := delivered w |}, None)
  | _ :: _ =>
      if reader_alive then
        ({| calls := calls w ++ [Flush];
            buffered := [];
            delivered := delivered w ++ buffered w |}, None)
      else
        ({| calls := calls w ++ [Flush];
            buffered := buffered w;
            delivered := delivered w |}, Some BrokenPipeError)
  end.

(** [def send(cmd)]:
<<
    engine.stdin.write((cmd + "\n").encode("utf-8"))
    engine.stdin.flush()
>>
    An exception leaves through the caller. *)
Definition send (reader_alive : bool) (cmd : str) (w : writer)
  : writer * option exn :=
  match Utf8.encode (cmd ++ [Text.NL]) with
  | None => (w, Some UnicodeEncodeError)
  | Some data => flush reader_alive (write data w)
  end.

(** Sending a list of commands one after the other, stopping at the first
    exception. *)
Fixpoint send_all (reader_alive : bool) (cmds : list str) (w : writer)
  : writer * option exn :=
  match cmds with
  | [] => (w, None)
  | cmd :: cmds' =>
      match send reader_alive cmd w with
      | (w', None) => send_all reader_alive cmds' w'
      | (w', Some e) => (w', Some e)
      end
  end.

(** [stream.readline()] on the bytes that are in the pipe.  A line ends
    with its [\n]; at the end of the stream the last line may lack it, and
    [b""] means end of stream.  [None]: no complete line yet and the write
    end is still open, the call blocks. *)
Fixpoint split_line (data : bytes) : option (bytes * bytes) :=
  match data with
  | [] => None
  | b :: data' =>
      if Byte.eqb b x0a then Some ([b], data')
      else
        match split_line data' with
        | Some (l, rest) => Some (b :: l, rest)
        | None => None
        end
  end.

Definition readline (write_end_open : bool) (data : bytes)
  : option (bytes * bytes) :=
  match split_line data with
  | Some lr => Some lr
  | None => if write_end_open then None else Some (data, [])
  end.

(** [iter(stream.readline, b"")] over a stream whose write end is closed:
    the lines up to the end of the stream. *)
Fixpoint lines_upto (fuel : nat) (data : bytes) : list bytes :=
  match fuel with
  | O => []
  | S fuel' =>
      match readline false data with
      | Some ((_ :: _) as l, rest) => l :: lines_upto fuel' rest
      | _ => []
      end
  end.

Definition readlines (data : bytes) : list bytes :=
  lines_upto (S (List.length data)) data.

(** The argument of [q.put] in [enqueue_output]:
<<
    line.decode("utf-8").rstrip("\n")
>>
    [None]: the decoding raises. *)
Definition decode_line (line : bytes) : option str :=
  option_map (Text.rstrip Text.NL) (Utf8.decode line).

(** [def enqueue_output(stream, q)] run to its end on a stream whose lines
    are [lines]: the queue at the end and how the call ended, [None] for a
    return after [stream.close()]. *)
Fixpoint enqueue_output (lines : list bytes) (q : list str)
  : list str * option exn :=
  match lines with
  | [] => (q, None)
  | line :: lines' =>
      match decode_line line with
      | Some text => enqueue_output lines' (q ++ [text])
      | None => (q, Some UnicodeDecodeError)
      end
  end.

(* ===================================================================== *)
(** ** The script *)
(* ===================================================================== *)

(** The board set-up, as sent. *)
Definition board_setup : list str :=
  map Text.lit
    [ "position 1w"; "setup";
      "  r r r r r r r r";
      "  h c d m e d c h";
      "  . . . . . . . .";
      "  . . . . . . . .";
      "  . . . . . . . .";
      "  . . . . . . . .";
      "  H C D M E D C H";
      "  R R R R R R R R";
      "end" ]%string.

Definition go : str := Text.lit "go".
Definition quit : str := Text.lit "quit".
Definition bestmove_token : str := Text.lit "bestmove".

(** The test of the loop: [line.startswith("bestmove")]. *)
Definition matches (line : str) : bool :=
  Text.startswith line bestmove_token.

(** [print(a, b)]: the two texts, a space between them and a newline. *)
Definition print2 (a b : str) : str := a ++ [32] ++ b ++ [Text.NL].

(** [str(x)] of a variable that holds a [str] or [None]. *)
Definition show (x : option str) : str :=
  match x with
  | Some s => s
  | None => Text.lit "None"
  end.

Definition engine_echo (line : str) : str :=
  print2 (Text.lit "ENGINE:") line.

Definition final_echo (best : option str) : str :=
  print2 (Text.NL :: Text.lit "Final engine move:") (show best).

(** Where the main thread stands: the statement it runs next. *)
Inductive main_pc : Type :=
| AtSend (todo : list str)   (* the [send] calls up to and with [go] *)
| AtGet                      (* [line = q.get(timeout=0.1)] *)
| AtPrint (line : str)       (* [print("ENGINE:", line)] *)
| AtMatch (line : str)       (* [if line.startswith("bestmove")] *)
| AtFinalPrint               (* [print("\nFinal engine move:", bestmove)] *)
| AtQuit                     (* [send("quit")] *)
| AtWait                     (* [engine.wait()] *)
| Exited                     (* end of the script *)
| Crashed (e : exn).         (* an exception left the main thread *)

(** The drainer thread [t], running [enqueue_output]. *)
Inductive thread_status : Type :=
| Draining                   (* in the [for] loop *)
| Died (e : exn)             (* an exception left the thread *)
| Returned.                  (* after [stream.close()] *)

Record session : Type := {
  (* the child process *)
  engine : process_status;
  stdin : writer;              (* [engine.stdin] *)
  stdin_open : bool;           (* the engine holds the read end of it *)
  stdout_open : bool;          (* the engine holds the write end *)
  stdout : bytes;              (* [engine.stdout]: written, not yet read *)
  stdout_closed : bool;        (* [engine.stdout.closed] *)
  (* the queue and the drainer *)
  q : list str;
  t : thread_status;
  (* the main thread *)
  pc : main_pc;
  bestmove : option str;
  console : list str;          (* the text of each [print] that returned *)
  (* history *)
  emitted : bytes;             (* all the engine has written *)
  lines_read : list bytes;     (* what [readline] has returned *)
  enqueued : list str;         (* the arguments of [q.put] *)
  dequeued : list str          (* the results of [q.get] *)
}.

(** The session when [Popen] has returned and the drainer thread has been
    started: the engine runs, the pipes are open and empty, the main
    thread is at its first [send]. *)
Definition initial : session :=
  {| engine := Running; stdin := fresh_writer; stdin_open := true;
     stdout_open := true; stdout := []; stdout_closed := false;
     q := []; t := Draining;
     pc := AtSend (board_setup ++ [go]); bestmove := None; console := [];
     emitted := []; lines_read := []; enqueued := []; dequeued := [] |}.

(** Field updates. *)
Definition with_engine (v : process_status) (s : session) : session :=
  {| engine := v; stdin := stdin s; stdin_open := stdin_open s;
     stdout_open := stdout_open s; stdout := stdout s;
     stdout_closed := stdout_closed s; q := q s; t := t s; pc := pc s;
     bestmove := bestmove s; console := console s; emitted := emitted s;
     lines_read := lines_read s; enqueued := enqueued s;
     dequeued := dequeued s |}.

Definition with_stdin (v : writer) (s : session) : session :=
  {| engine := engine s; stdin := v; stdin_open := stdin_open s;
     stdout_open := stdout_open s; stdout := stdout s;
     stdout_closed := stdout_closed s; q := q s; t := t s; pc := pc s;
     bestmove := bestmove s; console := console s; emitted := emitted s;
     lines_read := lines_read s; enqueued := enqueued s;
     dequeued := dequeued s |}.

Definition with_stdin_open (v : bool) (s : session) : session :=
  {| engine := engine s; stdin := stdin s; stdin_open := v;
     stdout_open := stdout_open s; stdout := stdout s;
     stdout_closed := stdout_closed s; q := q s; t := t s; pc := pc s;
     bestmove := bestmove s; console := console s; emitted := emitted s;
     lines_read := lines_read s; enqueued := enqueued s;
     dequeued := dequeued s |}.

Definition with_stdout_open (v : bool) (s : session) : session :=
  {| engine := engine s; stdin := stdin s; stdin_open := stdin_open s;
     stdout_open := v; stdout := stdout s; stdout_closed := stdout_closed s;
     q := q s; t := t s; pc := pc s; bestmove := bestmove s;
     console := console s; emitted := emitted s; lines_read := lines_read s;
     enqueued := enqueued s; dequeued := dequeued s |}.

Definition with_stdout (v : bytes) (s : session) : session :=
  {| engine := engine s; stdin := stdin s; stdin_open := stdin_open s;
     stdout_open := stdout_open s; stdout := v;
     stdout_closed := stdout_closed s; q := q s; t := t s; pc := pc s;
     bestmove := bestmove s; console := console s; emitted := emitted s;
     lines_read := lines_read s; enqueued := enqueued s;
     dequeued := dequeued s |}.

Definition with_stdout_closed (v : bool) (s : session) : session :=
  {| engine := engine s; stdin := stdin s; stdin_open := stdin_open s;
     stdout_open := stdout_open s; stdout := stdout s; stdout_closed := v;
     q := q s; t := t s; pc := pc s; bestmove := bestmove s;
     console := console s; emitted := emitted s; lines_read := lines_read s;
     enqueued := enqueued s; dequeued := dequeued s |}.

Definition with_q (v : list str) (s : session) : session :=
  {| engine := engine s; stdin := stdin s; stdin_open := stdin_open s;
     stdout_open := stdout_open s; stdout := stdout s;
     stdout_closed := stdout_closed s; q := v; t := t s; pc := pc s;
     bestmove := bestmove s; console := console s; emitted := emitted s;
     lines_read := lines_read s; enqueued := enqueued s;
     dequeued := dequeued s |}.

Definition with_t (v : thread_status) (s : session) : session :=
  {| engine := engine s; stdin := stdin s; stdin_open := stdin_open s;
     stdout_open := stdout_open s; stdout := stdout s;
     stdout_closed := stdout_closed s; q := q s; t := v; pc := pc s;
     bestmove := bestmove s; console := console s; emitted := emitted s;
     lines_read := lines_read s; enqueued := enqueued s;
     dequeued := dequeued s |}.

Definition with_pc (v : main_pc) (s : session) : session :=
  {| engine := engine s; stdin := stdin s; stdin_open := stdin_open s;
     stdout_open := stdout_open s; stdout := stdout s;
     stdout_closed := stdout_closed s; q := q s; t := t s; pc := v;
     bestmove := bestmove s; console := console s; emitted := emitted s;
     lines_read := lines_read s; enqueued := enqueued s;
     dequeued := dequeued s |}.

Definition with_bestmove (v : option str) (s : session) : session :=
  {| engine := engine s; stdin := stdin s; stdin_open := stdin_open s;
     stdout_open := stdout_open s; stdout := stdout s;
     stdout_closed := stdout_closed s; q := q s; t := t s; pc := pc s;
     bestmove := v; console := console s; emitted := emitted s;
     lines_read := lines_read s; enqueued := enqueued s;
     dequeued := dequeued s |}.

Definition with_console (v : list str) (s : session) : session :=
  {| engine := engine s; stdin := stdin s; stdin_open := stdin_open s;
     stdout_open := stdout_open s; stdout := stdout s;
     stdout_closed := stdout_closed s; q := q s; t := t s; pc := pc s;
     bestmove := bestmove s; console := v; emitted := emitted s;
     lines_read := lines_read s; enqueued := enqueued s;
     dequeued := dequeued s |}.

Definition with_emitted (v : bytes) (s : session) : session :=
  {| engine := engine s; stdin := stdin s; stdin_open := stdin_open s;
     stdout_open := stdout_open s; stdout := stdout s;
     stdout_closed := stdout_closed s; q := q s; t := t s; pc := pc s;
     bestmove := bestmove s; console := console s; emitted := v;
     lines_read := lines_read s; enqueued := enqueued s;
     dequeued := dequeued s |}.

Definition with_lines_read (v : list bytes) (s : session) : session :=
  {| engine := engine s; stdin := stdin s; stdin_open := stdin_open s;
     stdout_open := stdout_open s; stdout := stdout s;
     stdout_closed := stdout_closed s; q := q s; t := t s; pc := pc s;
     bestmove := bestmove s; console := console s; emitted := emitted s;
     lines_read := v; enqueued := enqueued s; dequeued := dequeued s |}.

Definition with_enqueued (v : list str) (s : session) : session :=
  {| engine := engine s; stdin := stdin s; stdin_open := stdin_open s;
     stdout_open := stdout_open s; stdout := stdout s;
     stdout_closed := stdout_closed s; q := q s; t := t s; pc := pc s;
     bestmove := bestmove s; console := console s; emitted := emitted s;
     lines_read := lines_read s; enqueued := v; dequeued := dequeued s |}.

Definition with_dequeued (v : list str) (s : session) : session :=
  {| engine := engine s; stdin := stdin s; stdin_open := stdin_open s;
     stdout_open := stdout_open s; stdout := stdout s;
     stdout_closed := stdout_closed s; q := q s; t := t s; pc := pc s;
     bestmove := bestmove s; console := console s; emitted := emitted s;
     lines_read := lines_read s; enqueued := enqueued s; dequeued := v |}.

(** The interpreter runs as long as the main thread does; the drainer is a
    daemon thread ([t.daemon = True]) and ends with it. *)
Definition interpreter_runs (s : session) : bool :=
  match pc s with
  | Exited | Crashed _ => false
  | _ => true
  end.

(** *** The environment: the engine *)

(** The engine writes [data] to its output (standard output and standard
    error share the pipe). *)
Definition engine_writes (data : bytes) (s : session) : session :=
  if alive (engine s) && stdout_open s then
    with_stdout (stdout s ++ data) (with_emitted (emitted s ++ data) s)
  else s.

(** The engine closes its output. *)
Definition engine_closes_output (s : session) : session :=
  with_stdout_open false s.

(** The engine closes its input. *)
Definition engine_closes_input (s : session) : session :=
  with_stdin_open false s.

(** The engine process ends; its ends of the pipes are gone. *)
Definition engine_exits (returncode : Z) (s : session) : session :=
  if alive (engine s) then
    with_engine (Terminated returncode)
      (with_stdin_open false (with_stdout_open false s))
  else s.

(** *** The drainer thread: one turn of the loop of [enqueue_output] *)
Definition drainer_step (s : session) : session :=
  match t s with
  | Draining =>
      if interpreter_runs s then
        match readline (stdout_open s) (stdout s) with
        | None => s                                  (* [readline] blocks *)
        | Some ([], _) =>                            (* [b""]: loop ends *)
            with_t Returned (with_stdout_closed true s)
        | Some (line, rest) =>
            let s1 :=
              with_lines_read (lines_read s ++ [line]) (with_stdout rest s) in
            match decode_line line with
            | Some text =>
                with_q (q s1 ++ [text])
                  (with_enqueued (enqueued s1 ++ [text]) s1)
            | None => with_t (Died UnicodeDecodeError) s1
            end
        end
      else s
  | _ => s
  end.

(** *** The main thread: one statement

    A statement run to its end.  For a [print] that is the case where the
    console takes the text; the case where it does not is [print_raises]
    below. *)
Definition main_step (s : session) : session :=
  match pc s with
  | AtSend [] =>
      (* [bestmove = None] *)
      with_pc AtGet (with_bestmove None s)
  | AtSend (cmd :: todo) =>
      match send (stdin_open s) cmd (stdin s) with
      | (w, None) => with_pc (AtSend todo) (with_stdin w s)
      | (w, Some e) => with_pc (Crashed e) (with_stdin w s)
      end
  | AtGet =>
      match q s with
      | [] => s                             (* [queue.Empty]: [continue] *)
      | line :: q' =>
          with_pc (AtPrint line)
            (with_q q' (with_dequeued (dequeued s ++ [line]) s))
      end
  | AtPrint line =>
      with_pc (AtMatch line)
        (with_console (console s ++ [engine_echo line]) s)
  | AtMatch line =>
      if matches line then
        (* [bestmove = line; break] *)
        with_pc AtFinalPrint (with_bestmove (Some line) s)
      else with_pc AtGet s
  | AtFinalPrint =>
      with_pc AtQuit
        (with_console (console s ++ [final_echo (bestmove s)]) s)
  | AtQuit =>
      match send (stdin_open s) quit (stdin s) with
      | (w, None) => with_pc AtWait (with_stdin w s)
      | (w, Some e) => with_pc (Crashed e) (with_stdin w s)
      end
  | AtWait =>
      match engine s with
      | Running => s                        (* [engine.wait()] blocks *)
      | Terminated _ => with_pc Exited s
      end
  | Exited => s
  | Crashed _ => s
  end.

(** *** The environment: the console

    [print] encodes its text for [sys.stdout] and writes it there.  The
    encoding of the console is not the script's to choose: with an
    encoding that lacks a character of the text the call raises
    [UnicodeEncodeError], which cannot happen to a text of ASCII
    characters; and when the console cannot be written the call raises an
    [OSError], [BrokenPipeError] when the console is a pipe whose reader is
    gone. *)
Definition print_can_raise (e : exn) (text : str) : bool :=
  match e with
  | UnicodeEncodeError => existsb (fun c => 128 <=? c) text
  | BrokenPipeError | OSError => true
  | UnicodeDecodeError | FileNotFoundError => false
  end.

(** The [print] the main thread is at raises [e]: neither [print] of the
    script is inside a [try], so the exception leaves the main thread. *)
Definition print_raises (e : exn) (s : session) : session :=
  match pc s with
  | AtPrint line =>
      if print_can_raise e (engine_echo line) then with_pc (Crashed e) s
      else s
  | AtFinalPrint =>
      if print_can_raise e (final_echo (bestmove s))
      then with_pc (Crashed e) s
      else s
  | _ => s
  end.

(** *** Schedules *)
Inductive action : Type :=
| EngineWrites (data : bytes)
| EngineClosesOutput
| EngineClosesInput
| EngineExits (returncode : Z)
| DrainerStep
| MainStep                       (* a statement of the main thread *)
| PrintRaises (e : exn).         (* its [print] raises instead *)

Definition step (a : action) (s : session) : session :=
  match a with
  | EngineWrites data => engine_writes data s
  | EngineClosesOutput => engine_closes_output s
  | EngineClosesInput => engine_closes_input s
  | EngineExits rc => engine_exits rc s
  | DrainerStep => drainer_step s
  | MainStep => main_step s
  | PrintRaises e => print_raises e s
  end.

Definition run (sched : list action) (s : session) : session :=
  fold_left (fun s a => step a s) sched s.

(** The states the script can be in. *)
Definition reachable (s : session) : Prop :=
  exists sched, run sched initial = s.

(** *** The start of the script

    [engine = subprocess.Popen(["./sharp2015.exe", "aei"], stdin=PIPE,
    stdout=PIPE, stderr=STDOUT, bufsize=1)]: the operating system starts
    the engine, or it does not, and the call raises: [FileNotFoundError]
    when there is no such file, another [OSError] when the file cannot be
    run.  The call is the first statement of the script and is not inside
    a [try]. *)
Inductive launch : Type :=
| Launched
| NoSuchFile
| NotRunnable.

(** [initial] is the session when [Popen] has returned and the thread has
    been started: the engine runs, its pipes are open and empty. *)
Definition Popen (os : launch) : session + exn :=
  match os with
  | Launched => inl initial
  | NoSuchFile => inr FileNotFoundError
  | NotRunnable => inr OSError
  end.

(** The script from its first statement on: the session it is in after
    the schedule [sched], or the exception that [Popen] raised. *)
Definition script (os : launch) (sched : list action) : session + exn :=
  match Popen os with
  | inl s => inl (run sched s)
  | inr e => inr e
  end.

(* ===================================================================== *)
(** ** Vocabulary of the specification *)
(* ===================================================================== *)

Arguments board_setup : simpl never.
Arguments go : simpl never.
Arguments quit : simpl never.
Arguments bestmove_token : simpl never.
Arguments send : simpl never.
Arguments matches : simpl never.
Arguments engine_echo : simpl never.
Arguments final_echo : simpl never.

(** The main thread is in the [while True] loop. *)
Definition in_loop (p : main_pc) : bool :=
  match p with
  | AtGet | AtPrint _ | AtMatch _ => true
  | _ => false
  end.

(** The main thread has left the loop through [break] and runs on. *)
Definition after_loop (p : main_pc) : bool :=
  match p with
  | AtFinalPrint | AtQuit | AtWait | Exited => true
  | _ => false
  end.

(** A command on the wire: its ASCII bytes and the newline. *)
Definition wire (cmd : string) : bytes :=
  list_byte_of_string cmd ++ [x0a].

(** The two calls [send] makes for a command that encodes to [data]. *)
Definition send_calls (data : bytes) : list io_call :=
  [Write data; Flush].

(** The data of the [write] calls, oldest first. *)
Fixpoint writes (cs : list io_call) : list bytes :=
  match cs with
  | [] => []
  | Write data :: cs' => data :: writes cs'
  | Flush :: cs' => writes cs'
  end.

(** The board set-up, [go] and [quit] as they go over the wire. *)
Definition setup_wire : list bytes :=
  map wire
    [ "position 1w"; "setup";
      "  r r r r r r r r";
      "  h c d m e d c h";
      "  . . . . . . . .";
      "  . . . . . . . .";
      "  . . . . . . . .";
      "  . . . . . . . .";
      "  H C D M E D C H";
      "  R R R R R R R R";
      "end" ]%string.

Definition script_wire : list bytes :=
  setup_wire ++ [wire "go"; wire "quit"].

(** A row of the board in the words of the specification: one character
    per square, a piece letter or [.] for an empty square. *)
Definition is_cell (c : ascii) : bool :=
  existsb (Ascii.eqb c)
    [ "r"; "c"; "d"; "h"; "m"; "e";
      "R"; "C"; "D"; "H"; "M"; "E"; "." ]%char.

Fixpoint row_text (cells : list ascii) : list ascii :=
  match cells with
  | [] => []
  | [c] => [c]
  | c :: cells' => c :: " "%char :: row_text cells'
  end.

Definition board_row (cells : list ascii) : str :=
  map N_of_ascii (" " :: " " :: row_text cells)%char.

(** The eight rows of the board set-up, square by square. *)
Definition setup_rows : list (list ascii) :=
  [ ["r"; "r"; "r"; "r"; "r"; "r"; "r"; "r"];
    ["h"; "c"; "d"; "m"; "e"; "d"; "c"; "h"];
    ["."; "."; "."; "."; "."; "."; "."; "."];
    ["."; "."; "."; "."; "."; "."; "."; "."];
    ["."; "."; "."; "."; "."; "."; "."; "."];
    ["."; "."; "."; "."; "."; "."; "."; "."];
    ["H"; "C"; "D"; "M"; "E"; "D"; "C"; "H"];
    ["R"; "R"; "R"; "R"; "R"; "R"; "R"; "R"] ]%char.

(** The line terminator taken off, in the words of the specification: one
    [\n] at the end of the text, when there is one. *)
Definition chomp (text : str) : str :=
  match rev text with
  | c :: r => if c =? Text.NL then rev r else text
  | [] => []
  end.

(** What [readline] returns for a line (never for the end of the stream):
    some bytes, with no [\n] before the last one. *)
Definition is_line (l : bytes) : Prop :=
  l <> [] /\ ~ In x0a (removelast l).

(** A line with its terminator: no [\n] but the one that ends it. *)
Definition is_complete (l : bytes) : Prop :=
  exists body, l = body ++ [x0a] /\ ~ In x0a body.

(** The lines read are complete, but for a last one without terminator
    that was read at the end of the stream. *)
Definition lines_shape (s : session) : Prop :=
  Forall is_complete (lines_read s)
  \/ exists ls p,
       lines_read s = ls ++ [p] /\ Forall is_complete ls
       /\ p <> [] /\ ~ In x0a p
       /\ stdout_open s = false /\ stdout s = [].

(** A text an engine can write as one line: it has a UTF-8 encoding and no
    newline in it. *)
Definition plain (text : str) : Prop :=
  Utf8.encode text <> None /\ ~ In Text.NL text.

Definition plainb (text : str) : bool :=
  match Utf8.encode text with
  | Some _ => negb (existsb (N.eqb Text.NL) text)
  | None => false
  end.

(** The return code of the engine put aside. *)
Definition forget_returncode (a : action) : action :=
  match a with
  | EngineExits _ => EngineExits 0%Z
  | _ => a
  end.

Definition same_but_returncode (s s' : session) : Prop :=
  alive (engine s) = alive (engine s') /\
  stdin s = stdin s' /\ stdin_open s = stdin_open s' /\
  stdout_open s = stdout_open s' /\
  stdout s = stdout s' /\ stdout_closed s = stdout_closed s' /\
  q s = q s' /\ t s = t s' /\ pc s = pc s' /\ bestmove s = bestmove s' /\
  console s = console s' /\ emitted s = emitted s' /\
  lines_read s = lines_read s' /\ enqueued s = enqueued s' /\
  dequeued s = dequeued s'.

(** The texts of the lines [raws], one for one and in order. *)
Definition texts_of (raws : list bytes) (texts : list str) : Prop :=
  Forall2 (fun raw text => decode_line raw = Some text) raws texts.

(** Every line read has been put on the queue. *)
Definition every_line_enqueued (s : session) : Prop :=
  texts_of (lines_read s) (enqueued s).

(** The main thread is past the board set-up and has not crashed. *)
Definition setup_sent (p : main_pc) : bool :=
  match p with
  | AtSend todo => (List.length todo <=? 1)%nat
  | Crashed _ => false
  | _ => true
  end.

(** One list is the beginning of the other. *)
Definition is_prefix (a b : bytes) : Prop := exists more, b = a ++ more.

(** The waiter polls an empty queue for ever. *)
Definition waiter_starves (s : session) : Prop :=
  q s = [] /\ forall more, after_loop (pc (run more s)) = false.

(** *** Sample sessions *)

(** A stub engine that writes [output] and exits with code 0 once the main
    thread has sent [go]; the drainer then takes [drains] turns and the main
    thread [polls] steps. *)
Definition stub_session (output : bytes) (drains polls : nat)
  : list action :=
  repeat MainStep 13 ++ [EngineWrites output; EngineExits 0]
    ++ repeat DrainerStep drains ++ repeat MainStep polls.

(** The engine writes a line that is not UTF-8 and the drainer reads
    it. *)
Definition session_with_undecodable_line : session :=
  run [EngineWrites [xff; x0a]; DrainerStep] initial.

(** After [go], the engine writes a [bestmove] line and then a line that is
    not UTF-8; the drainer takes two turns. *)
Definition session_with_bestmove_then_undecodable_line : session :=
  run (repeat MainStep 13
         ++ [EngineWrites (wire "bestmove x" ++ [xff; x0a]);
             DrainerStep; DrainerStep]) initial.

(** After [go], the engine writes the line [info é], which begins with
    no [bestmove], and closes its output; the drainer reads the line and
    comes to the end of the stream; the main thread takes the line from
    the queue, and the console, whose encoding has no [é], refuses it. *)
Definition session_with_refused_diagnostic : session :=
  run (repeat MainStep 13
         ++ [EngineWrites (list_byte_of_string "info " ++ [xc3; xa9; x0a]);
             EngineClosesOutput; DrainerStep; DrainerStep;
             MainStep; PrintRaises UnicodeEncodeError]) initial.

(** After [go], the engine writes the line [€]; the drainer puts it on the
    queue, the main thread takes it, and the [print] of its echo raises. *)
Definition session_with_unechoed_line : session :=
  run (repeat MainStep 13
         ++ [EngineWrites [xe2; x82; xac; x0a]; DrainerStep;
             MainStep; PrintRaises UnicodeEncodeError]) initial.

(** Fifty diagnostic lines, all different, and the text they make. *)
Definition diagnostics : list string :=
  map (fun n => String "d" (string_of_list_ascii (repeat "+"%char n)))
    (seq 0 50).

Definition diagnostics_then_bestmove : bytes :=
  List.concat (map wire diagnostics) ++ wire "bestmove m a2a3".

(** *** What holds of the main thread at each statement *)

(** The lines taken from the queue so far, seen from the loop: [seen] were
    tested and did not match. *)
Definition waiter_view (s : session) : Prop :=
  match pc s with
  | AtSend _ =>
      dequeued s = [] /\ console s = [] /\ bestmove s = None
  | AtGet =>
      existsb matches (dequeued s) = false
      /\ console s = map engine_echo (dequeued s) /\ bestmove s = None
  | AtPrint line =>
      exists seen, dequeued s = seen ++ [line]
        /\ existsb matches seen = false
        /\ console s = map engine_echo seen /\ bestmove s = None
  | AtMatch line =>
      exists seen, dequeued s = seen ++ [line]
        /\ existsb matches seen = false
        /\ console s = map engine_echo (seen ++ [line])
        /\ bestmove s = None
  | AtFinalPrint =>
      exists seen best, dequeued s = seen ++ [best]
        /\ existsb matches seen = false /\ matches best = true
        /\ console s = map engine_echo (seen ++ [best])
        /\ bestmove s = Some best
  | AtQuit | AtWait | Exited =>
      exists seen best, dequeued s = seen ++ [best]
        /\ existsb matches seen = false /\ matches best = true
        /\ console s =
             map engine_echo (seen ++ [best]) ++ [final_echo (Some best)]
        /\ bestmove s = Some best
  | Crashed _ => True                    (* see [crash_view] *)
  end.

(** The bytes [send] writes for a command. *)
Definition encoded (cmd : str) : bytes :=
  match Utf8.encode (cmd ++ [Text.NL]) with
  | Some data => data
  | None => []
  end.

(** The bytes a list of commands puts on the pipe. *)
Definition stream_of (cmds : list str) : bytes :=
  List.concat (map encoded cmds).

(** [engine.stdin] after the commands [sent] went through [send]. *)
Definition sent_ok (sent : list str) (w : writer) : Prop :=
  calls w = flat_map (fun c => send_calls (encoded c)) sent
  /\ delivered w = List.concat (map encoded sent)
  /\ buffered w = [].

(** [engine.stdin] after [sent] went through and the flush for [cmd]
    raised. *)
Definition sent_failed (sent : list str) (cmd : str) (w : writer) : Prop :=
  calls w =
    flat_map (fun c => send_calls (encoded c)) sent
      ++ send_calls (encoded cmd)
  /\ delivered w = List.concat (map encoded sent)
  /\ buffered w = encoded cmd.

Definition stdin_view (s : session) : Prop :=
  match pc s with
  | AtSend todo =>
      bestmove s = None /\
      exists sent, sent ++ todo = board_setup ++ [go]
        /\ sent_ok sent (stdin s)
  | AtGet | AtPrint _ | AtMatch _ =>
      sent_ok (board_setup ++ [go]) (stdin s)
  | AtFinalPrint | AtQuit =>
      bestmove s <> None /\ sent_ok (board_setup ++ [go]) (stdin s)
  | AtWait | Exited =>
      sent_ok (board_setup ++ [go; quit]) (stdin s)
  | Crashed _ => True                    (* see [crash_view] *)
  end.

(** *** What holds of a main thread that an exception has ended

    The exception came from one of four statements: a [send] before the
    loop, the [print] of the loop, the [print] of the final move, or the
    [send] of [quit]. *)
Definition crashed_in_setup (e : exn) (s : session) : Prop :=
  e = BrokenPipeError
  /\ dequeued s = [] /\ console s = [] /\ bestmove s = None
  /\ exists sent cmd todo,
       sent ++ cmd :: todo = board_setup ++ [go]
       /\ sent_failed sent cmd (stdin s).

Definition crashed_at_print (e : exn) (s : session) : Prop :=
  exists seen line,
    dequeued s = seen ++ [line] /\ existsb matches seen = false
    /\ console s = map engine_echo seen /\ bestmove s = None
    /\ print_can_raise e (engine_echo line) = true
    /\ sent_ok (board_setup ++ [go]) (stdin s).

Definition crashed_at_final_print (e : exn) (s : session) : Prop :=
  exists seen best,
    dequeued s = seen ++ [best] /\ existsb matches seen = false
    /\ matches best = true
    /\ console s = map engine_echo (seen ++ [best])
    /\ bestmove s = Some best
    /\ print_can_raise e (final_echo (Some best)) = true
    /\ sent_ok (board_setup ++ [go]) (stdin s).

Definition crashed_at_quit (e : exn) (s : session) : Prop :=
  e = BrokenPipeError
  /\ (exists seen best,
        dequeued s = seen ++ [best] /\ existsb matches seen = false
        /\ matches best = true
        /\ console s =
             map engine_echo (seen ++ [best]) ++ [final_echo (Some best)]
        /\ bestmove s = Some best)
  /\ sent_failed (board_setup ++ [go]) quit (stdin s).

Definition crash_view (s : session) : Prop :=
  forall e, pc s = Crashed e ->
    crashed_in_setup e s \/ crashed_at_print e s
    \/ crashed_at_final_print e s \/ crashed_at_quit e s.

(** *** What holds of the drainer and the queue *)
Definition drainer_view (s : session) : Prop :=
  List.concat (lines_read s) ++ stdout s = emitted s
  /\ Forall is_line (lines_read s)
  /\ enqueued s = fst (enqueue_output (lines_read s) [])
  /\ dequeued s ++ q s = enqueued s
  /\ match t s with
     | Draining =>
         snd (enqueue_output (lines_read s) []) = None
         /\ stdout_closed s = false
     | Died e =>
         e = UnicodeDecodeError
         /\ snd (enqueue_output (lines_read s) []) = Some UnicodeDecodeError
         /\ stdout_closed s = false
         /\ exists valid bad,
              lines_read s = valid ++ [bad]
              /\ Utf8.decode bad = None
              /\ enqueue_output valid [] = (enqueued s, None)
     | Returned =>
         snd (enqueue_output (lines_read s) []) = None
         /\ stdout_closed s = true
         /\ stdout s = [] /\ stdout_open s = false
     end.

(** *** Several steps at once *)

(** The session after the drainer has read the lines [ls] from the pipe,
    leaving [rest] there, and has put their texts [texts]. *)
Definition drained (ls : list bytes) (texts : list str) (rest : bytes)
  (s : session) : session :=
  with_q (q s ++ texts)
    (with_enqueued (enqueued s ++ texts)
       (with_lines_read (lines_read s ++ ls) (with_stdout rest s))).

(** The session after the main thread has taken the lines [lines] from
    the queue, leaving [rest] there, and has printed their echoes. *)
Definition polled (lines rest : list str) (s : session) : session :=
  with_q rest
    (with_dequeued (dequeued s ++ lines)
       (with_console (console s ++ map engine_echo lines) s)).

(** *** A session with an engine that answers *)

(** The main thread sends the set-up and [go] and polls the queue, which
    is empty, [idle] times; the engine writes the lines [diag] and then
    [best]; the main thread polls the queue, still empty, [late] times;
    the drainer takes a turn for each line; the main thread takes its
    three steps for each line, every [print] returning, prints the final
    move and sends [quit]; the engine exits with [rc] and the wait
    returns. *)
Definition answering_session (idle late : nat) (diag : list str)
  (best : str) (rc : Z) : list action :=
  repeat MainStep 13 ++ repeat MainStep idle
    ++ [EngineWrites (stream_of (diag ++ [best]))]
    ++ repeat MainStep late
    ++ repeat DrainerStep (List.length (diag ++ [best]))
    ++ repeat MainStep (3 + List.length diag * 3)
    ++ [MainStep; MainStep; EngineExits rc; MainStep].

(** *** The end of the script *)

(** What belongs to the script: the two threads, the queue, the console
    and the writer over the pipe to the engine.  The rest of a session is
    the engine and its ends of the pipes. *)
Definition script_side (s : session) :=
  (pc s, bestmove s, console s, stdin s,
   (t s, stdout_closed s, q s),
   (lines_read s, enqueued s, dequeued s)).

(** The engine seen from the script: an engine that has ended has no pipe
    open; [engine.wait()] returns for an engine that has ended; [send]
    raises, and leaves its command in the buffer, on a pipe that the
    engine has closed. *)
Definition engine_view (s : session) : Prop :=
  (alive (engine s) = false ->
   stdin_open s = false /\ stdout_open s = false)
  /\ (pc s = Exited -> alive (engine s) = false)
  /\ (forall e, pc s = Crashed e -> buffered (stdin s) <> [] ->
      stdin_open s = false).

(* ===================================================================== *)
(** ** Texts *)
(* ===================================================================== *)

Section TextFacts.

Import Text.

Lemma startswith_app (p rest : str) : startswith (p ++ rest) p = true.
Proof.
  induction p as [|c p IH]; simpl; [reflexivity|].
  now rewrite N.eqb_refl, IH.
Qed.

Lemma startswith_inv (p s : str) :
  startswith s p = true -> exists rest, s = p ++ rest.
Proof.
  revert s; induction p as [|c p IH]; intros s H.
  - now exists s.
  - destruct s as [|d s]; simpl in H; [discriminate|].
    apply andb_prop in H as [Hc Hs].
    apply N.eqb_eq in Hc; subst d.
    destruct (IH _ Hs) as [rest ->].
    now exists rest.
Qed.

Lemma startswith_iff (p s : str) :
  startswith s p = true <-> exists rest, s = p ++ rest.
Proof.
  split; [apply startswith_inv|].
  intros [rest ->]; apply startswith_app.
Qed.

Lemma lstrip_head (ch c : codepoint) (s : str) :
  c <> ch -> lstrip ch (c :: s) = c :: s.
Proof. intros H; simpl. now destruct (N.eqb_spec c ch). Qed.

(** [rstrip] of a text whose only [ch] is the last character takes that
    one character off. *)
Lemma rstrip_one (ch : codepoint) (body : str) :
  ~ In ch body -> rstrip ch (body ++ [ch]) = body.
Proof.
  intros H; unfold rstrip.
  rewrite rev_app_distr; simpl.
  rewrite N.eqb_refl.
  destruct (rev body) as [|c r] eqn:E.
  - apply (f_equal (@rev _)) in E; rewrite rev_involutive in E.
    now subst.
  - rewrite lstrip_head.
    + now rewrite <- E, rev_involutive.
    + intros ->; apply H, in_rev; rewrite E; now left.
Qed.

Lemma rstrip_none (ch : codepoint) (s : str) :
  ~ In ch s -> rstrip ch s = s.
Proof.
  intros H; unfold rstrip.
  destruct (rev s) as [|c r] eqn:E.
  - apply (f_equal (@rev _)) in E; rewrite rev_involutive in E.
    now subst.
  - rewrite lstrip_head.
    + now rewrite <- E, rev_involutive.
    + intros ->; apply H, in_rev; rewrite E; now left.
Qed.

End TextFacts.

Lemma chomp_one (body : str) : chomp (body ++ [Text.NL]) = body.
Proof.
  unfold chomp; rewrite rev_app_distr; simpl.
  apply rev_involutive.
Qed.

Lemma chomp_none (s : str) : ~ In Text.NL s -> chomp s = s.
Proof.
  intros H; unfold chomp.
  destruct (rev s) as [|c r] eqn:E.
  - apply (f_equal (@rev _)) in E; rewrite rev_involutive in E.
    now subst.
  - destruct (N.eqb_spec c Text.NL) as [->|]; [|reflexivity].
    exfalso; apply H, in_rev; rewrite E; now left.
Qed.

(* ===================================================================== *)
(** ** Runs *)
(* ===================================================================== *)

(** A session as its fields; the statements of the main thread one by
    one. *)
Ltac open_session s :=
  destruct s as [eng sin si so sout sc qq tt p bm con em lr enq deq].

Ltac main_cases p :=
  destruct p as [[|cmd todo]| | line | line | | | | | e].

Section Runs.

Lemma run_app (sched1 sched2 : list action) (s : session) :
  run (sched1 ++ sched2) s = run sched2 (run sched1 s).
Proof. apply fold_left_app. Qed.

Lemma run_snoc (sched : list action) (a : action) (s : session) :
  run (sched ++ [a]) s = step a (run sched s).
Proof. now rewrite run_app. Qed.

Lemma run_cons (sched : list action) (a : action) (s : session) :
  run (a :: sched) s = run sched (step a s).
Proof. reflexivity. Qed.

Lemma reachable_step (a : action) (s : session) :
  reachable s -> reachable (step a s).
Proof.
  intros [sched <-]; exists (sched ++ [a]); apply run_snoc.
Qed.

(** Induction over the states the script reaches. *)
Lemma reachable_ind (P : session -> Prop) :
  P initial ->
  (forall a s, reachable s -> P s -> P (step a s)) ->
  forall s, reachable s -> P s.
Proof.
  intros H0 Hstep s [sched <-].
  induction sched as [|a sched IH] using rev_ind; [exact H0|].
  rewrite run_snoc; apply Hstep; [now exists sched | exact IH].
Qed.

End Runs.

(* ===================================================================== *)
(** ** The main thread *)
(* ===================================================================== *)

Section MainThread.

(** The engine and the drainer leave the variables of the main thread
    alone. *)
Lemma others_keep_main (a : action) (s : session) :
  a <> MainStep -> (forall e, a <> PrintRaises e) ->
  pc (step a s) = pc s /\ bestmove (step a s) = bestmove s
  /\ console (step a s) = console s /\ dequeued (step a s) = dequeued s
  /\ stdin (step a s) = stdin s.
Proof.
  intros Ha Hb; destruct a; try congruence; cbn;
    try (now destruct (Hb e)).
  - unfold engine_writes.
    destruct (alive (engine s) && stdout_open s); cbn; auto.
  - auto.
  - (* the engine closes its input: [stdin] is the writer *) auto.
  - unfold engine_exits; destruct (alive (engine s)); cbn; auto.
  - unfold drainer_step.
    destruct (t s); auto.
    destruct (interpreter_runs s); auto.
    destruct (readline (stdout_open s) (stdout s)) as [[[|b l] rest]|];
      cbn; auto.
    destruct (decode_line (b :: l)); cbn; auto.
Qed.

Lemma existsb_snoc (f : str -> bool) (l : list str) (x : str) :
  existsb f (l ++ [x]) = existsb f l || f x.
Proof. rewrite existsb_app; simpl. now rewrite orb_false_r. Qed.

Lemma waiter_view_initial : waiter_view initial.
Proof. now cbn. Qed.

Lemma action_eq_main (a : action) : a = MainStep \/ a <> MainStep.
Proof. destruct a; (now left) || (right; discriminate). Qed.

(** A step is a statement of the main thread, a [print] of it that
    raises, or a step of the engine or of the drainer. *)
Lemma action_cases (a : action) :
  a = MainStep \/ (exists e, a = PrintRaises e)
  \/ (a <> MainStep /\ forall e, a <> PrintRaises e).
Proof.
  destruct a; try (right; right; split; [|intros e']; discriminate).
  - now left.
  - right; left; now exists e.
Qed.

(** A [print] that raises ends the main thread and changes nothing
    else; where the main thread is not at a [print], or at a [print] that
    cannot raise this exception, nothing happens. *)
Lemma print_raises_cases (e : exn) (s : session) :
  print_raises e s = s
  \/ print_raises e s = with_pc (Crashed e) s
     /\ ((exists line, pc s = AtPrint line
           /\ print_can_raise e (engine_echo line) = true)
         \/ (pc s = AtFinalPrint
             /\ print_can_raise e (final_echo (bestmove s)) = true)).
Proof.
  unfold print_raises.
  destruct (pc s) as [todo| | line | line | | | | | e']; auto.
  - destruct (print_can_raise e (engine_echo line)) eqn:E; auto.
    right; split; [reflexivity|]; left; now exists line.
  - destruct (print_can_raise e (final_echo (bestmove s))) eqn:E; auto.
Qed.

Lemma action_eq_drainer (a : action) :
  a = DrainerStep \/ a <> DrainerStep.
Proof. destruct a; (now left) || (right; discriminate). Qed.

Lemma waiter_view_step (a : action) (s : session) :
  waiter_view s -> waiter_view (step a s).
Proof.
  intros H.
  destruct (action_cases a) as [->|[[e ->]|[Ha Hb]]].
  2:{ cbn; destruct (print_raises_cases e s) as [->|[-> _]];
        [exact H | exact I]. }
  2:{ destruct (others_keep_main a s Ha Hb) as (E1 & E2 & E3 & E4 & _).
      unfold waiter_view in *; now rewrite E1, E2, E3, E4. }
  open_session s.
  unfold waiter_view in *; cbn in *; unfold main_step; cbn.
  main_cases p; cbn.
  - (* bestmove = None *)
    destruct H as (-> & -> & _); now cbn.
  - (* a send before the loop *)
    destruct (send si cmd sin) as [w [e|]]; cbn; tauto.
  - (* q.get *)
    destruct qq as [|line q']; cbn; [exact H|].
    destruct H as (H1 & H2 & H3); eauto.
  - (* print *)
    destruct H as (seen & -> & H1 & -> & H3).
    exists seen; repeat split; auto.
    now rewrite map_app.
  - (* the test *)
    destruct H as (seen & -> & H1 & -> & H3).
    destruct (matches line) eqn:Em; cbn.
    + exists seen, line; auto.
    + rewrite existsb_snoc, H1, Em; auto.
  - (* the last print *)
    destruct H as (seen & best & -> & H1 & H2 & -> & ->).
    exists seen, best; auto.
  - (* send quit *)
    destruct (send _ _ _) as [w [e|]]; cbn; auto.
  - (* wait *)
    destruct eng; cbn; exact H.
  - exact H.
  - exact H.
Qed.

(** *** [send] *)

Lemma encode_app (a b : str) :
  Utf8.encode (a ++ b) =
  match Utf8.encode a, Utf8.encode b with
  | Some x, Some y => Some (x ++ y)
  | _, _ => None
  end.
Proof.
  induction a as [|c a IH]; simpl.
  - now destruct (Utf8.encode b).
  - rewrite IH.
    destruct (Utf8.encode_char c), (Utf8.encode a), (Utf8.encode b);
      try reflexivity.
    now rewrite app_assoc.
Qed.

(** The newline of [send] is one byte at the end of the data. *)
Lemma encode_newline (cmd : str) :
  Utf8.encode (cmd ++ [Text.NL]) =
  option_map (fun data => data ++ [x0a]) (Utf8.encode cmd).
Proof.
  rewrite encode_app.
  change (Utf8.encode [Text.NL]) with (Some [x0a]).
  now destruct (Utf8.encode cmd).
Qed.

Lemma send_unencodable (reader_alive : bool) (cmd : str) (w : writer) :
  Utf8.encode cmd = None ->
  send reader_alive cmd w = (w, Some UnicodeEncodeError).
Proof.
  intros H; unfold send. now rewrite encode_newline, H.
Qed.

Lemma send_to_reader (cmd : str) (data : bytes) (w : writer) :
  Utf8.encode cmd = Some data ->
  send true cmd w =
    ({| calls := calls w ++ send_calls (data ++ [x0a]);
        buffered := [];
        delivered := delivered w ++ buffered w ++ data ++ [x0a] |},
     None).
Proof.
  intros H; unfold send, flush, write, send_calls.
  rewrite encode_newline, H; cbn.
  rewrite <- app_assoc; cbn.
  destruct (buffered w ++ data ++ [x0a]) eqn:E.
  - destruct (buffered w); [destruct data|]; discriminate.
  - reflexivity.
Qed.

Lemma send_to_nobody (cmd : str) (data : bytes) (w : writer) :
  Utf8.encode cmd = Some data ->
  send false cmd w =
    ({| calls := calls w ++ send_calls (data ++ [x0a]);
        buffered := buffered w ++ data ++ [x0a];
        delivered := delivered w |},
     Some BrokenPipeError).
Proof.
  intros H; unfold send, flush, write, send_calls.
  rewrite encode_newline, H; cbn.
  rewrite <- app_assoc; cbn.
  destruct (buffered w ++ data ++ [x0a]) eqn:E.
  - destruct (buffered w); [destruct data|]; discriminate.
  - reflexivity.
Qed.

Lemma encoded_of (cmd : str) (data : bytes) :
  Utf8.encode cmd = Some data -> encoded cmd = data ++ [x0a].
Proof. intros H; unfold encoded. now rewrite encode_newline, H. Qed.

Lemma sent_ok_send (sent : list str) (cmd : str) (w : writer) :
  Utf8.encode cmd <> None ->
  sent_ok sent w ->
  snd (send true cmd w) = None
  /\ sent_ok (sent ++ [cmd]) (fst (send true cmd w)).
Proof.
  intros Hc (H1 & H2 & H3).
  destruct (Utf8.encode cmd) as [data|] eqn:E; [clear Hc|congruence].
  rewrite (@send_to_reader cmd data w E); cbn.
  split; [reflexivity|]; unfold sent_ok; cbn.
  rewrite flat_map_app, map_app, concat_app, H1, H2, H3; cbn.
  rewrite (@encoded_of cmd data E), !app_nil_r.
  auto.
Qed.

Lemma sent_failed_send (sent : list str) (cmd : str) (w : writer) :
  Utf8.encode cmd <> None ->
  sent_ok sent w ->
  snd (send false cmd w) = Some BrokenPipeError
  /\ sent_failed sent cmd (fst (send false cmd w)).
Proof.
  intros Hc (H1 & H2 & H3).
  destruct (Utf8.encode cmd) as [data|] eqn:E; [clear Hc|congruence].
  rewrite (@send_to_nobody cmd data w E); cbn.
  split; [reflexivity|]; unfold sent_failed; cbn.
  rewrite H1, H2, H3, (@encoded_of cmd data E); cbn.
  auto.
Qed.

(** Every command of the script is ASCII and encodes. *)
Lemma script_encodes (cmd : str) :
  In cmd (board_setup ++ [go; quit]) -> Utf8.encode cmd <> None.
Proof.
  unfold board_setup, go, quit; cbn; intros H.
  repeat (destruct H as [<-|H]; [discriminate|]).
  destruct H.
Qed.

Lemma stdin_view_initial : stdin_view initial.
Proof.
  split; [reflexivity|]. exists []; repeat split.
Qed.

Lemma stdin_view_step (a : action) (s : session) :
  stdin_view s -> stdin_view (step a s).
Proof.
  intros H.
  destruct (action_cases a) as [->|[[e ->]|[Ha Hb]]].
  2:{ cbn; destruct (print_raises_cases e s) as [->|[-> _]];
        [exact H | exact I]. }
  2:{ destruct (others_keep_main a s Ha Hb) as (E1 & E2 & E3 & E4 & E5).
      unfold stdin_view in *; now rewrite E1, E2, E5. }
  open_session s.
  unfold stdin_view in *; cbn in *; unfold main_step; cbn.
  main_cases p; cbn; auto.
  - (* bestmove = None *)
    destruct H as (_ & sent & E & H). now rewrite app_nil_r in E; subst.
  - (* a send before the loop *)
    destruct H as (Hb & sent & E & H).
    assert (Hc : Utf8.encode cmd <> None).
    { apply script_encodes.
      change (In cmd ((board_setup ++ [go]) ++ [quit])).
      rewrite <- E, !in_app_iff; cbn; auto. }
    destruct si; cbn.
    + destruct (sent_ok_send sent cmd sin Hc H) as [E1 E2].
      destruct (send true cmd sin) as [w o]; cbn in *; subst o; cbn.
      split; [exact Hb|].
      exists (sent ++ [cmd]); split; [|exact E2].
      now rewrite <- app_assoc.
    + destruct (sent_failed_send sent cmd sin Hc H) as [E1 E2].
      destruct (send false cmd sin) as [w o]; cbn in *; subst o; cbn.
      exact I.
  - (* q.get *)
    destruct qq; cbn; exact H.
  - (* the test *)
    destruct (matches line); cbn; [|exact H].
    split; [discriminate | exact H].
  - (* send quit *)
    destruct H as (Hb & H).
    assert (Hc : Utf8.encode quit <> None).
    { apply script_encodes; rewrite in_app_iff; cbn; auto. }
    destruct si; cbn.
    + destruct (sent_ok_send _ quit sin Hc H) as [E1 E2].
      destruct (send true quit sin) as [w o]; cbn in *; subst o; cbn.
      now rewrite <- app_assoc in E2.
    + destruct (sent_failed_send _ quit sin Hc H) as [E1 E2].
      destruct (send false quit sin) as [w o]; cbn in *; subst o; cbn.
      exact I.
  - (* wait *)
    destruct eng; cbn; exact H.
Qed.

End MainThread.

(* ===================================================================== *)
(** ** The drainer thread and the queue *)
(* ===================================================================== *)

Section Drainer.

Lemma split_line_some (data l rest : bytes) :
  split_line data = Some (l, rest) ->
  data = l ++ rest
  /\ exists body, l = body ++ [x0a] /\ ~ In x0a body.
Proof.
  revert l rest; induction data as [|b data IH]; intros l rest H;
    [discriminate|].
  cbn in H.
  destruct (Byte.eqb b x0a) eqn:Eb.
  - apply Byte.byte_dec_bl in Eb; subst b.
    injection H as <- <-; split; [reflexivity|].
    exists []; split; [reflexivity | intros []].
  - destruct (split_line data) as [[l' rest']|]; [|discriminate].
    injection H as <- <-.
    destruct (IH l' rest' eq_refl) as (-> & body & -> & Hb).
    split; [reflexivity|].
    exists (b :: body); split; [reflexivity|].
    intros [->|Hin]; [|now apply Hb].
    now vm_compute in Eb.
Qed.

Lemma split_line_none (data : bytes) :
  split_line data = None -> ~ In x0a data.
Proof.
  induction data as [|b data IH]; intros H; [intros []|].
  cbn in H.
  destruct (Byte.eqb b x0a) eqn:Eb; [discriminate|].
  destruct (split_line data) as [[l' rest']|]; [discriminate|].
  intros [->|Hin]; [|now apply IH].
  now vm_compute in Eb.
Qed.

Lemma not_in_removelast (l : bytes) :
  ~ In x0a l -> ~ In x0a (removelast l).
Proof.
  intros H Hin; apply H.
  destruct l as [|b l] using rev_ind; [exact Hin|].
  rewrite removelast_last in Hin.
  apply in_or_app; now left.
Qed.

(** What [readline] returns splits the data, and is a line unless it is
    the empty end-of-stream mark. *)
Lemma readline_some (o : bool) (data l rest : bytes) :
  readline o data = Some (l, rest) ->
  data = l ++ rest /\ (l <> [] -> is_line l)
  /\ (l = [] -> o = false /\ data = []).
Proof.
  unfold readline; intros H.
  destruct (split_line data) as [[l' rest']|] eqn:E.
  - injection H as <- <-.
    destruct (split_line_some _ _ _ E) as (-> & body & -> & Hb).
    split; [reflexivity|]; split.
    + intros _; split; [now destruct body|].
      now rewrite removelast_last.
    + now destruct body.
  - destruct o; [discriminate|].
    injection H as <- <-.
    split; [now rewrite app_nil_r|]; split.
    + intros Hne; split; [exact Hne|].
      apply not_in_removelast, split_line_none, E.
    + auto.
Qed.

Lemma enqueue_output_app (ls ls' : list bytes) (q0 : list str) :
  enqueue_output (ls ++ ls') q0 =
  match enqueue_output ls q0 with
  | (q1, None) => enqueue_output ls' q1
  | (q1, Some e) => (q1, Some e)
  end.
Proof.
  revert q0; induction ls as [|l ls IH]; intros q0; cbn;
    [reflexivity|].
  destruct (decode_line l); [apply IH | reflexivity].
Qed.

(** The queue handed in stays in front of what is put. *)
Lemma enqueue_output_prefix (ls : list bytes) (q0 : list str) :
  fst (enqueue_output ls q0) = q0 ++ fst (enqueue_output ls [])
  /\ snd (enqueue_output ls q0) = snd (enqueue_output ls []).
Proof.
  revert q0; induction ls as [|l ls IH]; intros q0; cbn.
  - now rewrite app_nil_r.
  - destruct (decode_line l) as [text|]; cbn.
    + destruct (IH (q0 ++ [text])) as [-> ->].
      destruct (IH [text]) as [-> ->].
      now rewrite <- app_assoc.
    + now rewrite app_nil_r.
Qed.

Lemma drainer_view_initial : drainer_view initial.
Proof. repeat split; constructor. Qed.

Lemma drainer_view_step (a : action) (s : session) :
  drainer_view s -> drainer_view (step a s).
Proof.
  intros (H1 & H2 & H3 & H4 & H5).
  open_session s.
  unfold drainer_view in *; cbn in *.
  destruct a; cbn.
  - (* the engine writes *)
    unfold engine_writes; cbn.
    destruct (alive eng && so) eqn:E; cbn; [|tauto].
    apply andb_prop in E as [_ ->].
    repeat split; auto.
    + now rewrite app_assoc, H1.
    + destruct tt; try tauto.
      now destruct H5 as (_ & _ & _ & ?).
  - (* the engine closes its output *)
    repeat split; auto. destruct tt; tauto.
  - (* the engine closes its input *)
    repeat split; auto.
  - (* the engine exits *)
    unfold engine_exits; cbn.
    destruct (alive eng); cbn; repeat split; auto; destruct tt; tauto.
  - (* the drainer *)
    unfold drainer_step; cbn.
    destruct tt; cbn; [|tauto|tauto].
    destruct (interpreter_runs _); cbn; [|tauto].
    destruct (readline so sout) as [[l rest]|] eqn:E; cbn; [|tauto].
    destruct (readline_some _ _ _ _ E) as (-> & Hl & He).
    destruct l as [|b l]; cbn.
    + destruct (He eq_refl) as [-> Hd].
      apply app_eq_nil in Hd as [_ ->].
      repeat split; tauto.
    + assert (Hline : is_line (b :: l)) by (apply Hl; discriminate).
      destruct H5 as [H5 H6].
      pose proof (enqueue_output_app lr [b :: l] []) as Ha.
      destruct (enqueue_output lr []) as [q1 o1] eqn:Eo; cbn in *.
      subst o1 enq.
      destruct (decode_line (b :: l)) as [text|] eqn:Ed; cbn;
        unfold bytes, str, codepoint in *;
        rewrite Ha; cbn; repeat split; auto.
      all: try (rewrite concat_app; cbn;
                now rewrite app_nil_r, <- app_assoc).
      all: try (apply Forall_app; split; auto).
      * now rewrite app_assoc, H4.
      * exists lr, (b :: l); repeat split; auto.
        unfold decode_line in Ed.
        now destruct (Utf8.decode (b :: l)).
  - (* the main thread *)
    unfold main_step; cbn.
    main_cases p; cbn;
      try tauto.
    + destruct (send _ _ _) as [w [e|]]; cbn; tauto.
    + destruct qq as [|line q']; cbn; [tauto|].
      repeat split; auto.
      now rewrite <- app_assoc.
    + destruct (matches line); cbn; tauto.
    + destruct (send _ _ _) as [w [e|]]; cbn; tauto.
    + destruct eng; cbn; tauto.
  - (* a print raises *)
    unfold print_raises; cbn.
    destruct p as [todo| | line | line | | | | | e']; cbn; try tauto.
    + destruct (print_can_raise _ _); cbn; tauto.
    + destruct (print_can_raise _ _); cbn; tauto.
Qed.

End Drainer.

(* ===================================================================== *)
(** ** The codec *)
(* ===================================================================== *)

Section Utf8Facts.

Import Utf8.

Ltac Zify.zify_post_hook ::= Z.to_euclidean_division_equations.

(** *** Masks and shifts as arithmetic *)

Lemma lor_add (x k y : N) :
  y < 2 ^ k -> N.lor (N.shiftl x k) y = x * 2 ^ k + y.
Proof.
  intros H.
  rewrite N.shiftl_mul_pow2.
  rewrite <- N.lxor_lor, <- N.add_nocarry_lxor; try reflexivity.
  all: apply N.bits_inj; intros m; rewrite N.land_spec, N.bits_0.
  all: destruct (N.lt_ge_cases m k) as [Hm|Hm].
  all: try (rewrite N.mul_pow2_bits_low by exact Hm; reflexivity).
  all: destruct (N.eq_dec y 0) as [->|Hy];
    [now rewrite N.bits_0, andb_false_r|].
  all: rewrite (N.bits_above_log2 y m), andb_false_r; try reflexivity.
  all: apply N.lt_le_trans with k; [|exact Hm].
  all: apply N.log2_lt_pow2; lia.
Qed.

Lemma land_3F (n : N) : N.land n 0x3F = n mod 64.
Proof. exact (N.land_ones n 6). Qed.

Lemma land_1F (n : N) : N.land n 0x1F = n mod 32.
Proof. exact (N.land_ones n 5). Qed.

Lemma land_0F (n : N) : N.land n 0x0F = n mod 16.
Proof. exact (N.land_ones n 4). Qed.

Lemma land_07 (n : N) : N.land n 0x07 = n mod 8.
Proof. exact (N.land_ones n 3). Qed.

Lemma shiftr_6 (n : N) : N.shiftr n 6 = n / 64.
Proof. exact (N.shiftr_div_pow2 n 6). Qed.

Lemma shiftr_12 (n : N) : N.shiftr n 12 = n / 4096.
Proof. exact (N.shiftr_div_pow2 n 12). Qed.

Lemma shiftr_18 (n : N) : N.shiftr n 18 = n / 262144.
Proof. exact (N.shiftr_div_pow2 n 18). Qed.

Lemma lor_C0 (y : N) : y < 64 -> N.lor 0xC0 y = 192 + y.
Proof. intros H; exact (lor_add 3 6 y H). Qed.

Lemma lor_80 (y : N) : y < 64 -> N.lor 0x80 y = 128 + y.
Proof. intros H; exact (lor_add 2 6 y H). Qed.

Lemma lor_E0 (y : N) : y < 32 -> N.lor 0xE0 y = 224 + y.
Proof. intros H; exact (lor_add 7 5 y H). Qed.

Lemma lor_F0 (y : N) : y < 16 -> N.lor 0xF0 y = 240 + y.
Proof. intros H; exact (lor_add 15 4 y H). Qed.

(** *** Bytes *)

Lemma to_N_octet (n : N) : n <= 255 -> Byte.to_N (octet n) = n.
Proof.
  intros H; unfold octet.
  destruct (Byte.of_N n) as [b|] eqn:E.
  - now apply Byte.to_of_N.
  - apply Byte.of_N_None_iff in E; lia.
Qed.

Lemma octet_to_N (b : byte) : octet (Byte.to_N b) = b.
Proof. unfold octet; now rewrite Byte.of_to_N. Qed.

Lemma to_N_inj (a b : byte) : Byte.to_N a = Byte.to_N b -> a = b.
Proof.
  intros H; rewrite <- (octet_to_N a), <- (octet_to_N b).
  now rewrite H.
Qed.

Lemma is_cont_range (b : byte) :
  is_cont b = (0x80 <=? Byte.to_N b) && (Byte.to_N b <? 0xC0).
Proof. destruct b; reflexivity. Qed.

Lemma is_cont_iff (b : byte) :
  is_cont b = true <-> 128 <= Byte.to_N b < 192.
Proof.
  rewrite is_cont_range, andb_true_iff, N.leb_le, N.ltb_lt.
  reflexivity.
Qed.

Lemma low6_mod (b : byte) : low6 b = Byte.to_N b mod 64.
Proof. apply land_3F. Qed.

(** The code point of a sequence of two, three and four bytes. *)
Lemma value2 (c0 : N) (b1 : byte) :
  N.lor (N.shiftl (N.land c0 0x1F) 6) (low6 b1)
  = c0 mod 32 * 64 + Byte.to_N b1 mod 64.
Proof.
  rewrite low6_mod, land_1F.
  apply (lor_add _ 6); change (2 ^ 6) with 64; lia.
Qed.

Lemma value3 (c0 : N) (b1 b2 : byte) :
  N.lor (N.shiftl (N.land c0 0x0F) 12)
    (N.lor (N.shiftl (low6 b1) 6) (low6 b2))
  = c0 mod 16 * 4096 + Byte.to_N b1 mod 64 * 64 + Byte.to_N b2 mod 64.
Proof.
  rewrite !low6_mod, land_0F.
  rewrite (lor_add _ 6) by (change (2 ^ 6) with 64; lia).
  rewrite (lor_add _ 12) by (change (2 ^ 6) with 64;
                             change (2 ^ 12) with 4096; lia).
  change (2 ^ 6) with 64; change (2 ^ 12) with 4096; lia.
Qed.

Lemma value4 (c0 : N) (b1 b2 b3 : byte) :
  N.lor (N.shiftl (N.land c0 0x07) 18)
    (N.lor (N.shiftl (low6 b1) 12)
       (N.lor (N.shiftl (low6 b2) 6) (low6 b3)))
  = c0 mod 8 * 262144 + Byte.to_N b1 mod 64 * 4096
    + Byte.to_N b2 mod 64 * 64 + Byte.to_N b3 mod 64.
Proof.
  rewrite !low6_mod, land_07.
  rewrite (lor_add _ 6) by (change (2 ^ 6) with 64; lia).
  rewrite (lor_add _ 12) by (change (2 ^ 6) with 64;
                             change (2 ^ 12) with 4096; lia).
  rewrite (lor_add _ 18) by (change (2 ^ 6) with 64;
                             change (2 ^ 12) with 4096;
                             change (2 ^ 18) with 262144; lia).
  change (2 ^ 6) with 64; change (2 ^ 12) with 4096;
    change (2 ^ 18) with 262144; lia.
Qed.

(** *** One code point *)

Lemma encode_char_1 (c : N) :
  c < 128 -> encode_char c = Some [octet c].
Proof.
  intros H; unfold encode_char.
  now destruct (N.ltb_spec c 0x80); [|lia].
Qed.

Lemma encode_char_2 (c : N) :
  128 <= c < 2048 ->
  encode_char c = Some [octet (192 + c / 64); octet (128 + c mod 64)].
Proof.
  intros H; unfold encode_char.
  destruct (N.ltb_spec c 0x80); [lia|].
  destruct (N.ltb_spec c 0x800); [|lia].
  rewrite land_3F, shiftr_6, lor_C0, lor_80 by lia.
  reflexivity.
Qed.

Lemma encode_char_3 (c : N) :
  2048 <= c < 65536 -> ~ 55296 <= c <= 57343 ->
  encode_char c =
    Some [octet (224 + c / 4096); octet (128 + c / 64 mod 64);
          octet (128 + c mod 64)].
Proof.
  intros H Hs; unfold encode_char, Text.is_surrogate.
  destruct (N.ltb_spec c 0x80); [lia|].
  destruct (N.ltb_spec c 0x800); [lia|].
  destruct (N.ltb_spec c 0x10000); [|lia].
  destruct (N.leb_spec 0xD800 c), (N.leb_spec c 0xDFFF); cbn [andb];
    try lia.
  all: rewrite !land_3F, shiftr_6, shiftr_12, lor_E0, !lor_80 by lia.
  all: reflexivity.
Qed.

Lemma encode_char_4 (c : N) :
  65536 <= c <= 1114111 ->
  encode_char c =
    Some [octet (240 + c / 262144); octet (128 + c / 4096 mod 64);
          octet (128 + c / 64 mod 64); octet (128 + c mod 64)].
Proof.
  intros H; unfold encode_char.
  destruct (N.ltb_spec c 0x80); [lia|].
  destruct (N.ltb_spec c 0x800); [lia|].
  destruct (N.ltb_spec c 0x10000); [lia|].
  destruct (N.leb_spec c 0x10FFFF); [|lia].
  rewrite !land_3F, shiftr_6, shiftr_12, shiftr_18, lor_F0, !lor_80
    by lia.
  reflexivity.
Qed.

Lemma encode_char_refused (c : N) :
  encode_char c = None <-> 55296 <= c <= 57343 \/ 1114111 < c.
Proof.
  unfold encode_char, Text.is_surrogate.
  destruct (N.ltb_spec c 0x80); [split; [discriminate|lia]|].
  destruct (N.ltb_spec c 0x800); [split; [discriminate|lia]|].
  destruct (N.ltb_spec c 0x10000).
  - destruct (N.leb_spec 0xD800 c), (N.leb_spec c 0xDFFF); cbn [andb];
      split; try discriminate; try lia; reflexivity.
  - destruct (N.leb_spec c 0x10FFFF); split; try discriminate; try lia;
      reflexivity.
Qed.

(** The first code point of a text that decodes, and the bytes it was
    read from: they are its encoding. *)
Lemma decode_cons (b0 : byte) (r0 : bytes) (text : str) :
  decode (b0 :: r0) = Some text ->
  exists c used rest t',
    b0 :: r0 = used ++ rest /\ encode_char c = Some used
    /\ decode rest = Some t' /\ text = c :: t'
    /\ (List.length rest < List.length (b0 :: r0))%nat.
Proof.
  intros H; cbn [decode] in H.
  set (c0 := Byte.to_N b0) in *.
  destruct (N.ltb_spec c0 0x80) as [L1|L1].
  { destruct (decode r0) as [t'|] eqn:E; [|discriminate].
    injection H as <-.
    exists c0, [b0], r0, t'; repeat split; cbn; auto.
    rewrite encode_char_1 by lia. unfold c0; now rewrite octet_to_N. }
  destruct (N.ltb_spec c0 0xC2) as [L2|L2]; [discriminate|].
  destruct (N.ltb_spec c0 0xE0) as [L3|L3].
  { destruct r0 as [|b1 r1]; [discriminate|].
    destruct (is_cont b1) eqn:C1; [|discriminate].
    rewrite value2 in H.
    destruct (decode r1) as [t'|] eqn:E; [|discriminate].
    injection H as <-.
    apply is_cont_iff in C1.
    eexists _, [b0; b1], r1, t'; repeat split; cbn; auto.
    rewrite encode_char_2 by lia.
    repeat f_equal; apply to_N_inj;
      rewrite to_N_octet by lia; fold c0; lia. }
  destruct (N.ltb_spec c0 0xF0) as [L4|L4].
  { destruct r0 as [|b1 [|b2 r2]]; try discriminate.
    destruct (is_cont b1) eqn:C1; [|discriminate].
    destruct (is_cont b2) eqn:C2; [|discriminate].
    cbn [andb] in H.
    destruct (N.eqb_spec c0 0xE0) as [E0|E0];
      destruct (N.ltb_spec (Byte.to_N b1) 0xA0) as [A0|A0];
      destruct (N.eqb_spec c0 0xED) as [ED|ED];
      destruct (N.leb_spec 0xA0 (Byte.to_N b1)) as [A1|A1];
      cbn [andb negb] in H; try discriminate; try lia.
    all: rewrite value3 in H.
    all: destruct (decode r2) as [t'|] eqn:E; [|discriminate].
    all: injection H as <-.
    all: apply is_cont_iff in C1; apply is_cont_iff in C2.
    all: eexists _, [b0; b1; b2], r2, t'; repeat split; cbn; auto.
    all: rewrite encode_char_3 by lia.
    all: repeat f_equal; apply to_N_inj;
      rewrite to_N_octet by lia; fold c0; lia. }
  destruct (N.ltb_spec c0 0xF5) as [L5|L5]; [|discriminate].
  destruct r0 as [|b1 [|b2 [|b3 r3]]]; try discriminate.
  destruct (is_cont b1) eqn:C1; [|discriminate].
  destruct (is_cont b2) eqn:C2; [|discriminate].
  destruct (is_cont b3) eqn:C3; [|discriminate].
  cbn [andb] in H.
  destruct (N.eqb_spec c0 0xF0) as [E0|E0];
    destruct (N.ltb_spec (Byte.to_N b1) 0x90) as [A0|A0];
    destruct (N.eqb_spec c0 0xF4) as [ED|ED];
    destruct (N.leb_spec 0x90 (Byte.to_N b1)) as [A1|A1];
    cbn [andb negb] in H; try discriminate; try lia.
  all: rewrite value4 in H.
  all: destruct (decode r3) as [t'|] eqn:E; [|discriminate].
  all: injection H as <-.
  all: apply is_cont_iff in C1; apply is_cont_iff in C2;
    apply is_cont_iff in C3.
  all: eexists _, [b0; b1; b2; b3], r3, t'; repeat split; cbn; auto.
  all: rewrite encode_char_4 by lia.
  all: repeat f_equal; apply to_N_inj;
    rewrite to_N_octet by lia; fold c0; lia.
Qed.

(** *** Round trips *)

(** Encoding what was decoded gives the bytes back. *)
Lemma encode_decode (bs : bytes) (text : str) :
  decode bs = Some text -> encode text = Some bs.
Proof.
  remember (List.length bs) as n eqn:En.
  revert bs text En.
  induction n as [n IH] using lt_wf_ind; intros bs text En H.
  destruct bs as [|b0 r0].
  - injection H as <-; reflexivity.
  - destruct (decode_cons b0 r0 text H)
      as (c & used & rest & t' & E & Hc & Hd & -> & Hlen).
    rewrite E; cbn [encode]; rewrite Hc.
    rewrite (IH (List.length rest)) with (bs := rest) (text := t');
      auto.
    now subst n.
Qed.

Lemma is_cont_octet (y : N) : y < 64 -> is_cont (octet (128 + y)) = true.
Proof.
  intros H; apply is_cont_iff; rewrite to_N_octet; lia.
Qed.

(** Decoding reads a code point back from its encoding. *)
Lemma decode_encode_char (c : N) (used rest : bytes) :
  encode_char c = Some used ->
  decode (used ++ rest) = option_map (cons c) (decode rest).
Proof.
  intros H.
  assert (Hc : ~ (55296 <= c <= 57343 \/ 1114111 < c)).
  { intros Hr; apply encode_char_refused in Hr; congruence. }
  destruct (N.lt_ge_cases c 128) as [L1|L1].
  { rewrite encode_char_1 in H by lia.
    replace used with [octet c] by congruence.
    cbn [app decode]; rewrite to_N_octet by lia.
    now destruct (N.ltb_spec c 0x80); [|lia]. }
  destruct (N.lt_ge_cases c 2048) as [L2|L2].
  { rewrite encode_char_2 in H by lia.
    replace used with [octet (192 + c / 64); octet (128 + c mod 64)]
      by congruence.
    set (o0 := octet (192 + c / 64)); set (o1 := octet (128 + c mod 64)).
    cbn [app decode]; subst o0 o1; rewrite to_N_octet by lia.
    destruct (N.ltb_spec (192 + c / 64) 0x80); [lia|].
    destruct (N.ltb_spec (192 + c / 64) 0xC2); [lia|].
    destruct (N.ltb_spec (192 + c / 64) 0xE0); [|lia].
    rewrite is_cont_octet, value2, to_N_octet by lia.
    do 2 f_equal; lia. }
  destruct (N.lt_ge_cases c 65536) as [L3|L3].
  { rewrite encode_char_3 in H by lia.
    replace used with
      [octet (224 + c / 4096); octet (128 + c / 64 mod 64);
       octet (128 + c mod 64)] by congruence.
    set (o0 := octet (224 + c / 4096));
      set (o1 := octet (128 + c / 64 mod 64));
      set (o2 := octet (128 + c mod 64)).
    cbn [app decode]; subst o0 o1 o2; rewrite !to_N_octet by lia.
    destruct (N.ltb_spec (224 + c / 4096) 0x80); [lia|].
    destruct (N.ltb_spec (224 + c / 4096) 0xC2); [lia|].
    destruct (N.ltb_spec (224 + c / 4096) 0xE0); [lia|].
    destruct (N.ltb_spec (224 + c / 4096) 0xF0); [|lia].
    rewrite !is_cont_octet by lia; cbn [andb].
    destruct (N.eqb_spec (224 + c / 4096) 0xE0);
      destruct (N.ltb_spec (128 + c / 64 mod 64) 0xA0);
      destruct (N.eqb_spec (224 + c / 4096) 0xED);
      destruct (N.leb_spec 0xA0 (128 + c / 64 mod 64));
      cbn [andb negb]; try lia.
    all: rewrite value3, !to_N_octet by lia.
    all: do 2 f_equal; lia. }
  rewrite encode_char_4 in H by lia.
  replace used with
    [octet (240 + c / 262144); octet (128 + c / 4096 mod 64);
     octet (128 + c / 64 mod 64); octet (128 + c mod 64)] by congruence.
  set (o0 := octet (240 + c / 262144));
    set (o1 := octet (128 + c / 4096 mod 64));
    set (o2 := octet (128 + c / 64 mod 64));
    set (o3 := octet (128 + c mod 64)).
  cbn [app decode]; subst o0 o1 o2 o3; rewrite !to_N_octet by lia.
  destruct (N.ltb_spec (240 + c / 262144) 0x80); [lia|].
  destruct (N.ltb_spec (240 + c / 262144) 0xC2); [lia|].
  destruct (N.ltb_spec (240 + c / 262144) 0xE0); [lia|].
  destruct (N.ltb_spec (240 + c / 262144) 0xF0); [lia|].
  destruct (N.ltb_spec (240 + c / 262144) 0xF5); [|lia].
  rewrite !is_cont_octet by lia; cbn [andb].
  destruct (N.eqb_spec (240 + c / 262144) 0xF0);
    destruct (N.ltb_spec (128 + c / 4096 mod 64) 0x90);
    destruct (N.eqb_spec (240 + c / 262144) 0xF4);
    destruct (N.leb_spec 0x90 (128 + c / 4096 mod 64));
    cbn [andb negb]; try lia.
  all: rewrite value4, !to_N_octet by lia.
  all: do 2 f_equal; lia.
Qed.

(** Decoding what was encoded gives the text back. *)
Lemma decode_encode (text : str) (bs : bytes) :
  encode text = Some bs -> decode bs = Some text.
Proof.
  revert bs; induction text as [|c text IH]; intros bs H.
  - injection H as <-; reflexivity.
  - cbn [encode] in H.
    destruct (encode_char c) as [used|] eqn:Ec; [|discriminate].
    destruct (encode text) as [bs'|]; [|discriminate].
    injection H as <-.
    rewrite (decode_encode_char c used bs' Ec), (IH bs' eq_refl).
    reflexivity.
Qed.

(** *** Newlines *)

Lemma encode_char_nonempty (c : N) (used : bytes) :
  encode_char c = Some used -> used <> [].
Proof.
  unfold encode_char; intros H.
  repeat match type of H with
         | (if ?b then _ else _) = _ => destruct b
         end; try discriminate.
  all: injection H as <-; discriminate.
Qed.

(** A newline of the text is a newline byte of its encoding. *)
Lemma encode_newline_in (text : str) (bs : bytes) :
  encode text = Some bs -> In Text.NL text -> In x0a bs.
Proof.
  intros H Hin.
  apply in_split in Hin as (s1 & s2 & ->).
  rewrite encode_app in H.
  destruct (encode s1) as [e1|]; [|discriminate].
  change (Text.NL :: s2) with ([Text.NL] ++ s2) in H.
  rewrite encode_app in H.
  change (encode [Text.NL]) with (Some [x0a]) in H.
  destruct (encode s2) as [e2|]; [|discriminate].
  injection H as <-.
  apply in_or_app; right; now left.
Qed.

(** The text of a line has no newline before its last character. *)
Lemma decode_line_newlines (raw : bytes) (text : str) :
  is_line raw -> decode raw = Some text ->
  ~ In Text.NL (removelast text).
Proof.
  intros [_ Hraw] Hd Hin.
  apply encode_decode in Hd.
  destruct text as [|c text] using rev_ind; [exact Hin|]; clear IHtext.
  rewrite removelast_last in Hin.
  rewrite encode_app in Hd.
  destruct (encode text) as [rb|] eqn:Eb; [|discriminate].
  cbn [encode] in Hd.
  destruct (encode_char c) as [rc|] eqn:Ec; [|discriminate].
  injection Hd as <-.
  rewrite app_nil_r in Hraw.
  rewrite removelast_app in Hraw
    by exact (encode_char_nonempty c rc Ec).
  apply Hraw, in_or_app; left.
  exact (encode_newline_in text rb Eb Hin).
Qed.

End Utf8Facts.

Example encode_go : Utf8.encode (Text.lit "go") = Some [x67; x6f].
Proof. reflexivity. Qed.

Example decode_euro_line :
  Utf8.decode [xe2; x82; xac; x0a] = Some [0x20AC; Text.NL].
Proof. reflexivity. Qed.

Example decode_refuses_overlong : Utf8.decode [xc0; x8a] = None.
Proof. reflexivity. Qed.

Example decode_refuses_surrogate : Utf8.decode [xed; xa0; x80] = None.
Proof. reflexivity. Qed.

Example decode_refuses_cut_sequence : Utf8.decode [x41; xe2; x82] = None.
Proof. reflexivity. Qed.

Example encode_refuses_surrogate : Utf8.encode [0xD800] = None.
Proof. reflexivity. Qed.

Example rstrip_takes_every_newline :
  Text.rstrip Text.NL (Text.lit "ab" ++ [Text.NL; Text.NL]) = Text.lit "ab".
Proof. reflexivity. Qed.

Example readlines_keeps_last_partial_line :
  readlines (wire "a" ++ wire "" ++ [x62; x63])
  = [wire "a"; wire ""; [x62; x63]].
Proof. reflexivity. Qed.

Lemma rstrip_is_chomp (text : str) :
  ~ In Text.NL (removelast text) ->
  Text.rstrip Text.NL text = chomp text /\ ~ In Text.NL (chomp text).
Proof.
  intros H.
  destruct text as [|c body] using rev_ind; [split; [reflexivity|exact H]|].
  clear IHbody; rewrite removelast_last in H.
  destruct (N.eq_dec c Text.NL) as [->|Hc].
  - now rewrite rstrip_one, chomp_one.
  - assert (Hn : ~ In Text.NL (body ++ [c])).
    { rewrite in_app_iff; cbn; intuition congruence. }
    now rewrite rstrip_none, chomp_none.
Qed.

(** The drainer puts the text of a line with its terminator off. *)
Lemma decode_line_chomp (raw : bytes) (text : str) :
  is_line raw -> Utf8.decode raw = Some text ->
  decode_line raw = Some (chomp text) /\ ~ In Text.NL (chomp text).
Proof.
  intros Hl Hd; unfold decode_line; rewrite Hd; cbn.
  destruct (rstrip_is_chomp text (decode_line_newlines raw text Hl Hd))
    as [-> Hn].
  auto.
Qed.

(* ===================================================================== *)
(** ** The script as a whole *)
(* ===================================================================== *)

Lemma invariants (s : session) :
  reachable s -> waiter_view s /\ stdin_view s /\ drainer_view s.
Proof.
  revert s; apply reachable_ind.
  - split; [apply waiter_view_initial|].
    split; [apply stdin_view_initial | apply drainer_view_initial].
  - intros a s _ (H1 & H2 & H3).
    split; [now apply waiter_view_step|].
    split; [now apply stdin_view_step | now apply drainer_view_step].
Qed.

Lemma invariants_run (sched : list action) :
  let s := run sched initial in
  waiter_view s /\ stdin_view s /\ drainer_view s.
Proof. apply invariants; now exists sched. Qed.

(** Once the main thread has ended, a step changes nothing on the side of
    the script. *)
Lemma ended_step (a : action) (s : session) :
  interpreter_runs s = false -> script_side (step a s) = script_side s.
Proof.
  intros Hi; destruct a; cbn.
  - unfold engine_writes; now destruct (alive (engine s) && stdout_open s).
  - reflexivity.
  - reflexivity.
  - unfold engine_exits; now destruct (alive (engine s)).
  - unfold drainer_step; rewrite Hi; now destruct (t s).
  - unfold main_step; unfold interpreter_runs in Hi.
    destruct (pc s); try discriminate; reflexivity.
  - unfold print_raises; unfold interpreter_runs in Hi.
    destruct (pc s); try discriminate; reflexivity.
Qed.

Lemma ended_run (more : list action) (s : session) :
  interpreter_runs s = false -> script_side (run more s) = script_side s.
Proof.
  revert s; induction more as [|a more IH]; intros s Hi; [reflexivity|].
  rewrite run_cons.
  assert (E := ended_step a s Hi).
  rewrite IH, E; [reflexivity|].
  unfold script_side in E; unfold interpreter_runs in *.
  assert (Epc : pc (step a s) = pc s) by congruence.
  now rewrite Epc.
Qed.


(** What the main thread has left behind stays as it is. *)
Lemma ended_run_keeps (more : list action) (s : session) :
  interpreter_runs s = false ->
  pc (run more s) = pc s /\ bestmove (run more s) = bestmove s
  /\ console (run more s) = console s /\ stdin (run more s) = stdin s
  /\ dequeued (run more s) = dequeued s.
Proof.
  intros Hi; assert (E := ended_run more s Hi).
  unfold script_side in E.
  injection E as E1 E2 E3 E4 _ _ _ _ _ E5; auto.
Qed.

(** *** A main thread that an exception has ended *)

Lemma crash_view_side (s s' : session) :
  script_side s' = script_side s -> crash_view s -> crash_view s'.
Proof.
  unfold script_side; intros E H e Hpc.
  injection E as E1 E2 E3 E4 _ _ _ _ _ E5.
  unfold crash_view, crashed_in_setup, crashed_at_print,
    crashed_at_final_print, crashed_at_quit in *.
  rewrite E1 in Hpc; rewrite E2, E3, E4, E5; exact (H e Hpc).
Qed.

(** The [print] of the loop raises. *)
Lemma print_raised_in_loop (e : exn) (line : str) (s : session) :
  waiter_view s -> stdin_view s -> pc s = AtPrint line ->
  print_can_raise e (engine_echo line) = true ->
  crashed_at_print e (with_pc (Crashed e) s).
Proof.
  unfold waiter_view, stdin_view; intros Hw Hs Hpc He; rewrite Hpc in *.
  destruct Hw as (seen & E1 & E2 & E3 & E4).
  exists seen, line; cbn; auto 8.
Qed.

(** The [print] of the final move raises. *)
Lemma print_raised_after_loop (e : exn) (s : session) :
  waiter_view s -> stdin_view s -> pc s = AtFinalPrint ->
  print_can_raise e (final_echo (bestmove s)) = true ->
  crashed_at_final_print e (with_pc (Crashed e) s).
Proof.
  unfold waiter_view, stdin_view; intros Hw Hs Hpc He; rewrite Hpc in *.
  destruct Hw as (seen & best & E1 & E2 & E3 & E4 & E5).
  destruct Hs as [_ Hs]; rewrite E5 in He.
  exists seen, best; cbn; auto 9.
Qed.

Lemma crash_view_step (a : action) (s : session) :
  reachable s -> crash_view s -> crash_view (step a s).
Proof.
  intros Hr Hc.
  destruct (interpreter_runs s) eqn:Hi;
    [|exact (crash_view_side s _ (ended_step a s Hi) Hc)].
  destruct (invariants s Hr) as (Hw & Hs & _).
  intros e Hpc.
  destruct (action_cases a) as [->|[[e' ->]|[Ha Hb]]].
  - (* a statement of the main thread: a [send] has raised *)
    unfold waiter_view in Hw; unfold stdin_view in Hs.
    cbn in Hpc |- *; unfold main_step in *.
    destruct (pc s) as [[|cmd todo]| | line | line | | | | | e0] eqn:Epc;
      try discriminate.
    + destruct Hw as (W1 & W2 & W3), Hs as (_ & sent & E & Hok).
      assert (Hcmd : Utf8.encode cmd <> None).
      { apply script_encodes.
        change (In cmd ((board_setup ++ [go]) ++ [quit])).
        rewrite <- E, !in_app_iff; cbn; auto. }
      destruct (stdin_open s).
      * destruct (sent_ok_send sent cmd (stdin s) Hcmd Hok) as [E1 _].
        destruct (send true cmd (stdin s)) as [w o]; cbn in E1; subst o.
        discriminate.
      * destruct (sent_failed_send sent cmd (stdin s) Hcmd Hok)
          as [E1 E2].
        destruct (send false cmd (stdin s)) as [w o]; cbn in E1, E2.
        subst o; injection Hpc as <-.
        left; repeat split; auto.
        exists sent, cmd, todo; auto.
    + destruct (q s); [congruence | discriminate].
    + destruct (matches line); discriminate.
    + destruct Hs as (_ & Hok).
      assert (Hcmd : Utf8.encode quit <> None).
      { apply script_encodes; rewrite in_app_iff; cbn; auto. }
      destruct (stdin_open s).
      * destruct (sent_ok_send _ quit (stdin s) Hcmd Hok) as [E1 _].
        destruct (send true quit (stdin s)) as [w o]; cbn in E1; subst o.
        discriminate.
      * destruct (sent_failed_send _ quit (stdin s) Hcmd Hok)
          as [E1 E2].
        destruct (send false quit (stdin s)) as [w o]; cbn in E1, E2.
        subst o; injection Hpc as <-.
        right; right; right.
        split; [reflexivity|]; split; [exact Hw | exact E2].
    + destruct (engine s); [congruence | discriminate].
    + congruence.
    + unfold interpreter_runs in Hi; rewrite Epc in Hi; discriminate.
  - (* a [print] has raised *)
    cbn in Hpc |- *.
    destruct (print_raises_cases e' s) as [E|[E [(line & Epc & He)|[Epc He]]]];
      rewrite E in *.
    + unfold interpreter_runs in Hi; rewrite Hpc in Hi; discriminate.
    + injection Hpc as <-.
      right; left; now apply print_raised_in_loop with (line := line).
    + injection Hpc as <-.
      right; right; left; now apply print_raised_after_loop.
  - destruct (others_keep_main a s Ha Hb) as (E1 & _).
    unfold interpreter_runs in Hi; rewrite <- E1, Hpc in Hi; discriminate.
Qed.

Lemma crashed (s : session) : reachable s -> crash_view s.
Proof.
  intros Hr; induction Hr as [|a s Hr IH] using reachable_ind.
  - intros e Hpc; discriminate.
  - now apply crash_view_step.
Qed.

(** The line that ended the loop. *)
Lemma loop_ended (s : session) :
  reachable s ->
  after_loop (pc s) = true \/ bestmove s <> None ->
  exists seen best,
    dequeued s = seen ++ [best] /\ existsb matches seen = false
    /\ matches best = true /\ bestmove s = Some best.
Proof.
  intros Hr H; destruct (invariants s Hr) as (Hw & _ & _).
  assert (Hc := crashed s Hr).
  unfold waiter_view in Hw.
  destruct (pc s) as [todo| | line | line | | | | | e] eqn:Epc; cbn in H.
  all: try (destruct Hw as (seen & best & ? & ? & ? & ? & ?);
            now exists seen, best).
  all: destruct H as [H|H]; [discriminate|].
  all: try (exfalso; decompose record Hw; congruence).
  destruct (Hc e Epc)
    as [(_ & _ & _ & Hb & _)
       |[(seen & line & _ & _ & _ & Hb & _)
        |[(seen & best & E1 & E2 & E3 & _ & E5 & _)
         |(_ & (seen & best & E1 & E2 & E3 & _ & E5) & _)]]];
    try contradiction; now exists seen, best.
Qed.

(** Once in the loop, the main thread is in it, or has left it by
    [break], or its [print] has raised. *)
Lemma loop_entered (more : list action) (s : session) :
  reachable s ->
  in_loop (pc s) = true \/ bestmove s <> None ->
  in_loop (pc (run more s)) = true \/ bestmove (run more s) <> None
  \/ exists e, In (PrintRaises e) more
       /\ pc (run more s) = Crashed e /\ crashed_at_print e (run more s).
Proof.
  revert s; induction more as [|a more IH]; intros s Hr H; [tauto|].
  rewrite run_cons.
  assert (Hgo : in_loop (pc (step a s)) = true
                \/ bestmove (step a s) <> None ->
    in_loop (pc (run more (step a s))) = true
    \/ bestmove (run more (step a s)) <> None
    \/ exists e, In (PrintRaises e) (a :: more)
         /\ pc (run more (step a s)) = Crashed e
         /\ crashed_at_print e (run more (step a s))).
  { intros H'.
    destruct (IH (step a s) (reachable_step a s Hr) H')
      as [G|[G|(e & G1 & G2)]]; auto.
    right; right; exists e; split; [now right | exact G2]. }
  destruct (invariants s Hr) as (Hw & Hs & _).
  destruct (action_cases a) as [->|[[e ->]|[Ha Hb]]].
  3:{ apply Hgo.
      destruct (others_keep_main a s Ha Hb) as (-> & -> & _); exact H. }
  2:{ cbn in Hgo |- *.
      destruct (print_raises_cases e s)
        as [E|[E [(line & Epc & He)|[Epc He]]]]; rewrite E in *.
      - apply Hgo, H.
      - right; right; exists e.
        assert (Hi : interpreter_runs (with_pc (Crashed e) s) = false)
          by reflexivity.
        assert (Es := ended_run more _ Hi).
        assert (Hp := print_raised_in_loop e line s Hw Hs Epc He).
        unfold script_side in Es.
        injection Es as E1 E2 E3 E4 _ _ _ _ _ E5.
        split; [now left|]; split; [exact E1|].
        unfold crashed_at_print in *; now rewrite E2, E3, E4, E5.
      - apply Hgo; right; cbn.
        unfold stdin_view in Hs; rewrite Epc in Hs; tauto. }
  apply Hgo.
  unfold stdin_view in Hs.
  open_session s.
  cbn in *; unfold main_step; cbn.
  main_cases p; cbn in *.
  all: try (destruct H as [H|H]; [discriminate|]).
  all: try (destruct Hs as (-> & _); contradiction).
  all: try (destruct (send _ _ _) as [w [e'|]]; cbn; now right).
  all: try (destruct qq; cbn; now auto).
  all: try (destruct (matches line); cbn;
            [right; discriminate | now left]).
  all: try (destruct eng; cbn; now right).
  all: try (now right).
  all: try (now left).
  all: right; discriminate.
Qed.

(* ===================================================================== *)
(** ** Lines *)
(* ===================================================================== *)

Lemma split_line_complete (body rest : bytes) :
  ~ In x0a body ->
  split_line ((body ++ [x0a]) ++ rest) = Some (body ++ [x0a], rest).
Proof.
  induction body as [|b body IH]; intros H; cbn.
  - reflexivity.
  - destruct (Byte.eqb b x0a) eqn:Eb.
    + apply Byte.byte_dec_bl in Eb; subst b.
      exfalso; apply H; now left.
    + rewrite IH; [reflexivity|].
      intros Hin; apply H; now right.
Qed.

Lemma split_line_partial (p : bytes) :
  ~ In x0a p -> split_line p = None.
Proof.
  induction p as [|b p IH]; intros H; cbn; [reflexivity|].
  destruct (Byte.eqb b x0a) eqn:Eb.
  - apply Byte.byte_dec_bl in Eb; subst b.
    exfalso; apply H; now left.
  - rewrite IH; [reflexivity|].
    intros Hin; apply H; now right.
Qed.

(** [readline] over and over splits a stream of complete lines, with or
    without a last line that lacks the terminator, into these lines. *)
Lemma lines_upto_complete (ls : list bytes) (p : bytes) (fuel : nat) :
  Forall is_complete ls -> ~ In x0a p ->
  (List.length (List.concat ls ++ p) < fuel)%nat ->
  lines_upto fuel (List.concat ls ++ p)
  = ls ++ match p with [] => [] | _ => [p] end.
Proof.
  intros Hls Hp; revert fuel.
  induction Hls as [|l ls (body & -> & Hb) Hls IH]; intros fuel Hf.
  - cbn [List.concat app] in *.
    destruct fuel as [|fuel]; [lia|].
    cbn [lines_upto]; unfold readline.
    rewrite (split_line_partial p Hp).
    destruct p as [|b p]; [reflexivity|].
    destruct fuel as [|fuel]; reflexivity.
  - cbn [List.concat] in *.
    destruct fuel as [|fuel]; [lia|].
    cbn [lines_upto]; unfold readline.
    rewrite <- app_assoc.
    rewrite (split_line_complete body _ Hb).
    rewrite <- app_assoc in Hf; rewrite length_app in Hf.
    rewrite IH by (rewrite length_app in Hf; cbn in Hf; lia).
    destruct body; reflexivity.
Qed.

Lemma readlines_complete (ls : list bytes) (p : bytes) :
  Forall is_complete ls -> ~ In x0a p ->
  readlines (List.concat ls ++ p)
  = ls ++ match p with [] => [] | _ => [p] end.
Proof.
  intros Hls Hp; unfold readlines.
  apply lines_upto_complete; auto.
Qed.

Lemma lines_shape_initial : lines_shape initial.
Proof. left; constructor. Qed.

Lemma lines_shape_step (a : action) (s : session) :
  lines_shape s -> lines_shape (step a s).
Proof.
  intros H.
  open_session s.
  unfold lines_shape in *; cbn in *.
  destruct a; cbn.
  - unfold engine_writes; cbn.
    destruct (alive eng && so) eqn:E; cbn; [|exact H].
    apply andb_prop in E as [_ ->].
    destruct H as [H|(ls & p' & _ & _ & _ & _ & Ho & _)];
      [now left | discriminate].
  - destruct H as [H|(ls & p' & E1 & E2 & E3 & E4 & _ & E6)];
      [now left|].
    right; exists ls, p'; repeat split; auto.
  - exact H.
  - unfold engine_exits; cbn.
    destruct (alive eng); cbn; [|exact H].
    destruct H as [H|(ls & p' & E1 & E2 & E3 & E4 & _ & E6)];
      [now left|].
    right; exists ls, p'; repeat split; auto.
  - unfold drainer_step; cbn.
    destruct tt; cbn; try exact H.
    destruct (interpreter_runs _); cbn; try exact H.
    destruct (readline so sout) as [[l rest]|] eqn:E; cbn; [|exact H].
    destruct l as [|b l]; cbn; [exact H|].
    assert (Hs : lr = lr -> Forall is_complete lr).
    { intros _.
      destruct H as [H|(ls & p' & _ & _ & _ & _ & -> & ->)]; [exact H|].
      discriminate. }
    specialize (Hs eq_refl).
    assert (Hshape :
      is_complete (b :: l)
      \/ (~ In x0a (b :: l) /\ so = false /\ rest = [])).
    { unfold readline in E.
      destruct (split_line sout) as [[l' rest']|] eqn:Es.
      - injection E as -> ->.
        destruct (split_line_some _ _ _ Es) as (_ & body & -> & Hb).
        left; now exists body.
      - destruct so; [discriminate|].
        injection E as <- <-.
        right; split; [|split; reflexivity].
        now apply split_line_none. }
    assert (Hgoal :
      Forall is_complete (lr ++ [b :: l])
      \/ exists ls p0,
           lr ++ [b :: l] = ls ++ [p0] /\ Forall is_complete ls
           /\ p0 <> [] /\ ~ In x0a p0 /\ so = false /\ rest = []).
    { destruct Hshape as [Hc|(Hn & -> & ->)].
      - left; apply Forall_app; split; [exact Hs|]. now constructor.
      - right; exists lr, (b :: l); repeat split; auto. discriminate. }
    destruct (decode_line (b :: l)); cbn; exact Hgoal.
  - unfold main_step; cbn.
    main_cases p; cbn;
      try exact H.
    + destruct (send _ _ _) as [w [e|]]; cbn; exact H.
    + destruct qq; cbn; exact H.
    + destruct (matches line); cbn; exact H.
    + destruct (send _ _ _) as [w [e|]]; cbn; exact H.
    + destruct eng; cbn; exact H.
  - unfold print_raises; cbn.
    destruct p as [todo| | line | line | | | | | e']; cbn; try exact H.
    + destruct (print_can_raise _ _); cbn; exact H.
    + destruct (print_can_raise _ _); cbn; exact H.
Qed.

Lemma lines_shape_reachable (s : session) : reachable s -> lines_shape s.
Proof.
  revert s; apply reachable_ind; [apply lines_shape_initial|].
  intros a s _ H; now apply lines_shape_step.
Qed.

(** The lines read are the lines of the bytes taken from the pipe. *)
Lemma lines_read_are_lines (s : session) :
  reachable s -> readlines (List.concat (lines_read s)) = lines_read s.
Proof.
  intros Hr.
  destruct (lines_shape_reachable s Hr)
    as [H|(ls & p & -> & H & Hp & Hn & _)].
  - rewrite <- (app_nil_r (List.concat (lines_read s))).
    rewrite (readlines_complete _ [] H); [apply app_nil_r | intros []].
  - rewrite concat_app; cbn [List.concat]; rewrite app_nil_r.
    rewrite (readlines_complete ls p H Hn).
    now destruct p.
Qed.

(* ===================================================================== *)
(** ** An engine that writes text lines *)
(* ===================================================================== *)

Section Utf8Lines.

Import Utf8.

Ltac Zify.zify_post_hook ::= Z.to_euclidean_division_equations.

(** A newline byte in the encoding of a code point: the code point is the
    newline. *)
Lemma encode_char_newline (c : N) (used : bytes) :
  encode_char c = Some used -> In x0a used -> c = Text.NL.
Proof.
  intros H Hin.
  assert (Hc : ~ (55296 <= c <= 57343 \/ 1114111 < c)).
  { intros Hr; apply encode_char_refused in Hr; congruence. }
  assert (Hb : forall n, n <= 255 -> octet n = x0a -> n = 10).
  { intros n Hn E; apply (f_equal Byte.to_N) in E.
    now rewrite to_N_octet in E. }
  destruct (N.lt_ge_cases c 128) as [L1|L1].
  { rewrite encode_char_1 in H by lia.
    replace used with [octet c] in Hin by congruence.
    destruct Hin as [E|[]]; apply Hb in E; [exact E | lia]. }
  exfalso.
  destruct (N.lt_ge_cases c 2048) as [L2|L2].
  { rewrite encode_char_2 in H by lia.
    replace used with [octet (192 + c / 64); octet (128 + c mod 64)]
      in Hin by congruence.
    destruct Hin as [E|[E|[]]]; apply Hb in E; lia. }
  destruct (N.lt_ge_cases c 65536) as [L3|L3].
  { rewrite encode_char_3 in H by lia.
    replace used with
      [octet (224 + c / 4096); octet (128 + c / 64 mod 64);
       octet (128 + c mod 64)] in Hin by congruence.
    destruct Hin as [E|[E|[E|[]]]]; apply Hb in E; lia. }
  rewrite encode_char_4 in H by lia.
  replace used with
    [octet (240 + c / 262144); octet (128 + c / 4096 mod 64);
     octet (128 + c / 64 mod 64); octet (128 + c mod 64)] in Hin
    by congruence.
  destruct Hin as [E|[E|[E|[E|[]]]]]; apply Hb in E; lia.
Qed.

Lemma encode_no_newline (text : str) (data : bytes) :
  encode text = Some data -> ~ In Text.NL text -> ~ In x0a data.
Proof.
  revert data; induction text as [|c text IH]; intros data H Hn Hin.
  - injection H as <-; exact Hin.
  - cbn [encode] in H.
    destruct (encode_char c) as [used|] eqn:Ec; [|discriminate].
    destruct (encode text) as [data'|]; [|discriminate].
    injection H as <-.
    apply in_app_or in Hin as [Hin|Hin].
    + apply Hn; left.
      exact (encode_char_newline c used Ec Hin).
    + apply (IH data' eq_refl); [|exact Hin].
      intros Hin'; apply Hn; now right.
Qed.

End Utf8Lines.

Lemma plain_line_complete (text : str) :
  plain text -> is_complete (encoded text).
Proof.
  intros [He Hn].
  destruct (Utf8.encode text) as [data|] eqn:E; [|congruence].
  rewrite (encoded_of text data E).
  exists data; split; [reflexivity|].
  exact (encode_no_newline text data E Hn).
Qed.

Lemma plain_line_decodes (text : str) :
  plain text -> decode_line (encoded text) = Some text.
Proof.
  intros [He Hn].
  destruct (Utf8.encode text) as [data|] eqn:E; [|congruence].
  rewrite (encoded_of text data E); unfold decode_line.
  rewrite (decode_encode (text ++ [Text.NL]) (data ++ [x0a]))
    by (rewrite encode_newline, E; reflexivity).
  cbn; now rewrite rstrip_one.
Qed.

Lemma enqueue_output_plain (texts : list str) (q0 : list str) :
  Forall plain texts ->
  enqueue_output (map encoded texts) q0 = (q0 ++ texts, None).
Proof.
  intros H; revert q0; induction H as [|text texts Ht _ IH]; intros q0.
  - cbn; now rewrite app_nil_r.
  - cbn [map enqueue_output].
    rewrite (plain_line_decodes text Ht), IH.
    now rewrite <- app_assoc.
Qed.

Lemma split_at_first (A : Type) (x : A) (a b a' b' : list A) :
  ~ In x a -> ~ In x a' ->
  a ++ x :: b = a' ++ x :: b' -> a = a' /\ b = b'.
Proof.
  revert a'; induction a as [|y a IH]; intros [|y' a'] Ha Ha' E; cbn in *.
  - injection E as <-; auto.
  - injection E as <- _; exfalso; apply Ha'; now left.
  - injection E as -> _; exfalso; apply Ha; now left.
  - injection E as <- E.
    destruct (IH a') as [-> ->]; auto.
Qed.

(** Complete lines taken from the front of a stream of complete lines are
    the first of these lines. *)
Lemma complete_lines_prefix (A B : list bytes) (rest : bytes) :
  Forall is_complete A -> Forall is_complete B ->
  List.concat A ++ rest = List.concat B ->
  exists B2, B = A ++ B2 /\ rest = List.concat B2.
Proof.
  intros HA; revert B; induction HA as [|a A (body & -> & Hb) _ IH];
    intros B HB E.
  - now exists B.
  - destruct HB as [|b B (body' & -> & Hb') HB].
    + cbn in E; destruct body; discriminate.
    + cbn [List.concat] in E.
      rewrite <- !app_assoc in E; cbn [app] in E.
      apply split_at_first in E as [-> E]; auto.
      destruct (IH B HB E) as (B2 & -> & ->).
      now exists B2.
Qed.

(** With an engine whose output is a sequence of complete lines, the
    drainer has read the first of them. *)
Lemma reads_prefix (s : session) (B : list bytes) :
  reachable s -> Forall is_complete B ->
  emitted s = List.concat B ->
  exists B2, B = lines_read s ++ B2.
Proof.
  intros Hr HB E.
  destruct (invariants s Hr) as (_ & _ & H1 & _).
  rewrite E in H1.
  destruct (lines_shape_reachable s Hr)
    as [H|(ls & p & El & H & Hp & Hn & _ & Hs)].
  - destruct (complete_lines_prefix _ _ _ H HB H1) as (B2 & -> & _).
    now exists B2.
  - exfalso.
    rewrite El, Hs, app_nil_r, concat_app in H1.
    cbn [List.concat] in H1; rewrite app_nil_r in H1.
    destruct (complete_lines_prefix _ _ _ H HB H1) as (B2 & -> & ->).
    apply Forall_app in HB as [_ HB].
    destruct HB as [|b B2 (body & -> & _) _]; [now apply Hp|].
    apply Hn; cbn; rewrite <- app_assoc.
    apply in_or_app; right; now left.
Qed.

Lemma map_eq_app_inv (A B : Type) (f : A -> B) (l : list A)
  (m1 m2 : list B) :
  map f l = m1 ++ m2 ->
  exists l1 l2, l = l1 ++ l2 /\ map f l1 = m1 /\ map f l2 = m2.
Proof.
  revert l; induction m1 as [|y m1 IH]; intros l E.
  - now exists [], l.
  - destruct l as [|x l]; [discriminate|].
    injection E as <- E.
    destruct (IH l E) as (l1 & l2 & -> & <- & <-).
    now exists (x :: l1), l2.
Qed.

(** With an engine that writes the plain lines [texts], what was put on the
    queue is a beginning of [texts]. *)
Lemma enqueued_prefix (s : session) (texts : list str) :
  reachable s -> Forall plain texts ->
  emitted s = stream_of texts ->
  exists later, texts = enqueued s ++ later.
Proof.
  intros Hr Hp E.
  assert (HB : Forall is_complete (map encoded texts)).
  { apply Forall_map.
    apply (Forall_impl _ plain_line_complete Hp). }
  destruct (reads_prefix s (map encoded texts) Hr HB E) as [B2 EB].
  destruct (map_eq_app_inv _ _ _ _ _ _ EB) as (t1 & t2 & -> & E1 & _).
  destruct (invariants s Hr) as (_ & _ & _ & _ & H3 & _).
  apply Forall_app in Hp as [Hp1 _].
  rewrite H3, <- E1, (enqueue_output_plain t1 [] Hp1); cbn.
  now exists t2.
Qed.

Lemma first_match_unique (seen more diag : list str) (b best : str) :
  (seen ++ [b]) ++ more = diag ++ [best] ->
  existsb matches diag = false -> matches b = true ->
  seen = diag /\ b = best /\ more = [].
Proof.
  revert diag; induction seen as [|x seen IH]; intros [|d diag] E Hd Hb;
    cbn in *.
  - injection E as -> ->; auto.
  - injection E as <- _.
    rewrite Hb in Hd; discriminate.
  - injection E as _ E.
    destruct seen; discriminate.
  - injection E as <- E.
    apply orb_false_elim in Hd as [_ Hd].
    destruct (IH diag E Hd Hb) as (-> & -> & ->); auto.
Qed.

(** With an engine that writes the plain lines [diag], none of which
    begins with [bestmove], and then [best], which does: when a line that
    passes the test has been taken from the queue, that line is [best] and
    the lines taken before it are [diag]. *)
Lemma bestmove_after_diagnostics
  (s : session) (diag : list str) (best : str) :
  reachable s -> Forall plain (diag ++ [best]) ->
  existsb matches diag = false ->
  emitted s = stream_of (diag ++ [best]) ->
  forall seen b,
    dequeued s = seen ++ [b] -> matches b = true ->
    dequeued s = diag ++ [best] /\ q s = [].
Proof.
  intros Hr Hp Hd E seen b Es Hb.
  destruct (enqueued_prefix s _ Hr Hp E) as [later El].
  destruct (invariants s Hr) as (_ & _ & _ & _ & _ & Hq & _).
  rewrite <- Hq, Es, <- !app_assoc in El.
  symmetry in El; rewrite app_assoc in El.
  destruct (first_match_unique _ _ _ _ _ El Hd Hb) as (-> & -> & Hm).
  apply app_eq_nil in Hm as [Hm _].
  rewrite Es; auto.
Qed.

Lemma plainb_plain (text : str) : plainb text = true -> plain text.
Proof.
  unfold plainb, plain; intros H.
  destruct (Utf8.encode text); [|discriminate].
  split; [discriminate|].
  intros Hin.
  apply negb_true_iff in H.
  assert (Ht : existsb (N.eqb Text.NL) text = true).
  { apply existsb_exists; exists Text.NL; split; [exact Hin|].
    apply N.eqb_refl. }
  congruence.
Qed.

Lemma forallb_plain (texts : list str) :
  forallb plainb texts = true -> Forall plain texts.
Proof.
  intros H; apply Forall_forall; intros text Hin.
  apply plainb_plain.
  rewrite forallb_forall in H; now apply H.
Qed.

(* ===================================================================== *)
(** ** The claims of the specification *)
(* ===================================================================== *)

(** *** The loop of the waiter *)

(** C3. The test of the waiter succeeds exactly on the lines that begin
    with [bestmove]; a line that has [bestmove] in it but not in front does
    not pass; the test sends the main thread out of the loop when it
    succeeds and back to the queue when it fails, so that the line the loop
    ended on is the first line taken from the queue that passes the test. *)
Theorem bestmove_prefix_test :
  (forall line,
      matches line = true <-> exists rest, line = bestmove_token ++ rest)
  /\ (forall line,
         Text.contains line bestmove_token = true ->
         (forall rest, line <> bestmove_token ++ rest) ->
         matches line = false)
  /\ (forall s line,
         pc s = AtMatch line ->
         pc (main_step s) = if matches line then AtFinalPrint else AtGet)
  /\ (forall sched,
         let s := run sched initial in
         after_loop (pc s) = true ->
         exists seen best,
           dequeued s = seen ++ [best] /\ existsb matches seen = false
           /\ matches best = true /\ bestmove s = Some best).
Proof.
  split; [|split; [|split]].
  - intros line; apply startswith_iff.
  - intros line _ Hn.
    destruct (matches line) eqn:E; [|reflexivity].
    apply startswith_iff in E as [rest ->].
    now destruct (Hn rest).
  - intros s line Hpc; unfold main_step; rewrite Hpc.
    now destruct (matches line).
  - intros sched s H.
    apply loop_ended; [now exists sched | now left].
Qed.

Lemma bestmove_prefix_test_witness :
  matches (Text.lit "bestmove m a2a3") = true
  /\ matches (Text.lit "info bestmove m a2a3") = false
  /\ exists seen best,
       dequeued (run (stub_session (wire "log" ++ wire "bestmove x") 3 6)
                   initial) = seen ++ [best]
       /\ existsb matches seen = false
       /\ matches best = true.
Proof.
  destruct bestmove_prefix_test as (H1 & H2 & _ & H4).
  split; [|split].
  - apply H1; exists (Text.lit " m a2a3"); reflexivity.
  - apply H2; [reflexivity|].
    intros rest; vm_compute; discriminate.
  - destruct (H4 (stub_session (wire "log" ++ wire "bestmove x") 3 6))
      as (seen & best & E1 & E2 & E3 & _); [vm_compute; reflexivity|].
    exists seen, best.
    split; [exact E1 | split; [exact E2 | exact E3]].
Defined.

(** A [q.get] on an empty queue times out and the loop starts over. *)
Lemma empty_queue_poll (n : nat) (s : session) :
  pc s = AtGet -> q s = [] -> run (repeat MainStep n) s = s.
Proof.
  intros Hpc Hq; induction n as [|n IH]; [reflexivity|].
  cbn [repeat]; rewrite run_cons.
  replace (step MainStep s) with s; [exact IH|].
  cbn; unfold main_step; now rewrite Hpc, Hq.
Qed.

(** C2, as stated, fails: no line put on the queue begins with
    [bestmove], the engine has closed its output, and the loop of the
    waiter has ended all the same, on the [print] of a line that the
    console refuses; the main thread is not in the loop any more, whatever
    comes. *)
Lemma waiter_loop_ends_without_bestmove :
  (forall line,
      In line (enqueued session_with_refused_diagnostic) ->
      matches line = false)
  /\ stdout_closed session_with_refused_diagnostic = true
  /\ bestmove session_with_refused_diagnostic = None
  /\ forall more,
       pc (run more session_with_refused_diagnostic)
       = Crashed UnicodeEncodeError
       /\ in_loop (pc (run more session_with_refused_diagnostic)) = false.
Proof.
  split.
  { intros line Hin; vm_compute in Hin.
    destruct Hin as [<-|[]]; vm_compute; reflexivity. }
  split; [vm_compute; reflexivity|].
  split; [vm_compute; reflexivity|].
  intros more.
  destruct (ended_run_keeps more session_with_refused_diagnostic)
    as (Epc & _); [vm_compute; reflexivity|].
  rewrite Epc; split; vm_compute; reflexivity.
Qed.

(** C2, amended.  As long as no line put on the queue begins with
    [bestmove], the statements after the loop are not reached and the
    variable [bestmove] is still [None].  A main thread that is in the
    loop is in it after any further run, unless a [print] of the loop has
    raised since: then the exception has ended the main thread, on the
    echo of the line taken last, which the console could refuse; with no
    such [print] in the run the main thread is in the loop.  On an empty
    queue [q.get] times out and the loop starts over in the same state,
    any number of times. *)
Theorem loop_ends_only_by_bestmove_or_print_error (sched : list action) :
  let s := run sched initial in
  (forall line, In line (enqueued s) -> matches line = false) ->
  after_loop (pc s) = false /\ bestmove s = None
  /\ (forall earlier later,
         sched = earlier ++ later ->
         in_loop (pc (run earlier initial)) = true ->
         (in_loop (pc s) = true
          \/ exists e, In (PrintRaises e) later
               /\ pc s = Crashed e /\ crashed_at_print e s)
         /\ ((forall e, ~ In (PrintRaises e) later) ->
             in_loop (pc s) = true))
  /\ (pc s = AtGet -> q s = [] ->
      forall n, run (repeat MainStep n) s = s).
Proof.
  intros s Hno.
  assert (Hr : reachable s) by now exists sched.
  assert (Hnone : bestmove s = None).
  { destruct (bestmove s) eqn:Eb; [|reflexivity].
    destruct (loop_ended s Hr) as (seen & best & Ed & _ & Hm & _).
    { right; congruence. }
    destruct (invariants s Hr) as (_ & _ & _ & _ & _ & Hq & _).
    rewrite Hno in Hm; [discriminate|].
    rewrite <- Hq, Ed, !in_app_iff; cbn; auto. }
  split; [|split; [exact Hnone|split]].
  - destruct (after_loop (pc s)) eqn:Ea; [|reflexivity].
    destruct (loop_ended s Hr) as (seen & best & _ & _ & _ & Hb);
      [now left | congruence].
  - intros earlier later -> Hin.
    unfold s in *; rewrite run_app in *.
    destruct (loop_entered later (run earlier initial))
      as [H|[H|(e & H1 & H2 & H3)]];
      [now exists earlier | now left | | contradiction |].
    + split; [now left | intros _; exact H].
    + split; [right; now exists e|].
      intros Hn; destruct (Hn e H1).
  - intros Hpc Hq n; now apply empty_queue_poll.
Qed.

Lemma loop_ends_only_by_bestmove_or_print_error_witness :
  let s := run (stub_session (wire "log" ++ wire "info bestmove") 3 9)
             initial in
  pc s = AtGet /\ q s = [] /\ dequeued s <> []
  /\ after_loop (pc s) = false /\ bestmove s = None
  /\ in_loop (pc s) = true
  /\ run (repeat MainStep 1000) s = s.
Proof.
  intros s.
  destruct (loop_ends_only_by_bestmove_or_print_error
              (stub_session (wire "log" ++ wire "info bestmove") 3 9))
    as (H1 & H2 & H3 & H4).
  - intros line Hin; vm_compute in Hin.
    destruct Hin as [<-|[<-|[]]]; vm_compute; reflexivity.
  - split; [vm_compute; reflexivity|].
    split; [vm_compute; reflexivity|].
    split; [vm_compute; discriminate|].
    split; [exact H1|].
    split; [exact H2|].
    split; [|apply H4; vm_compute; reflexivity].
    destruct (H3 (repeat MainStep 13)
                ([EngineWrites (wire "log" ++ wire "info bestmove");
                  EngineExits 0]
                   ++ repeat DrainerStep 3 ++ repeat MainStep 9))
      as [_ H5]; [reflexivity | vm_compute; reflexivity |].
    apply H5; intros e Hin; vm_compute in Hin.
    repeat (destruct Hin as [Hin|Hin]; [discriminate|]).
    exact Hin.
Defined.

Lemma enqueue_output_texts (lines : list bytes) (texts : list str) :
  enqueue_output lines [] = (texts, None) -> texts_of lines texts.
Proof.
  revert texts; induction lines as [|l lines IH]; intros texts H.
  - injection H as <-; constructor.
  - cbn in H.
    destruct (decode_line l) as [text|] eqn:El; [|discriminate].
    destruct (enqueue_output_prefix lines [text]) as [E1 E2].
    rewrite H in E1, E2; cbn in E1, E2; subst texts.
    constructor; [exact El|].
    apply IH.
    destruct (enqueue_output lines []) as [q1 o1]; cbn in *.
    now subst o1.
Qed.

(** Whatever is not the drainer puts nothing on the queue and reads no
    line. *)
Lemma only_drainer_puts (a : action) (s : session) :
  a <> DrainerStep ->
  enqueued (step a s) = enqueued s
  /\ lines_read (step a s) = lines_read s
  /\ t (step a s) = t s
  /\ stdout_closed (step a s) = stdout_closed s
  /\ exists taken, q s = taken ++ q (step a s).
Proof.
  intros Ha; destruct a; try congruence; cbn.
  - unfold engine_writes.
    destruct (alive (engine s) && stdout_open s); cbn;
      repeat split; now exists [].
  - repeat split; now exists [].
  - repeat split; now exists [].
  - unfold engine_exits; destruct (alive (engine s)); cbn;
      repeat split; now exists [].
  - unfold main_step.
    main_cases (pc s); cbn.
    all: try (repeat split; now exists []).
    + destruct (send _ _ _) as [w [e|]]; cbn; repeat split; now exists [].
    + destruct (q s) as [|line q'] eqn:Eq; cbn.
      * rewrite Eq; repeat split; now exists [].
      * repeat split; now exists [line].
    + destruct (matches line); cbn; repeat split; now exists [].
    + destruct (send _ _ _) as [w [e|]]; cbn; repeat split; now exists [].
    + destruct (engine s); cbn; repeat split; now exists [].
  - destruct (print_raises_cases e s) as [->|[-> _]]; cbn;
      repeat split; now exists [].
Qed.

(** Whatever is not the main thread takes nothing from the queue. *)
Lemma only_main_gets (a : action) (s : session) :
  a <> MainStep ->
  dequeued (step a s) = dequeued s
  /\ exists put, q (step a s) = q s ++ put.
Proof.
  intros Ha.
  destruct (action_cases a) as [->|[[e ->]|[_ Hb]]]; [congruence| |].
  { cbn; destruct (print_raises_cases e s) as [->|[-> _]]; cbn;
      split; try reflexivity; exists []; now rewrite app_nil_r. }
  split; [apply (others_keep_main a s Ha Hb)|].
  destruct a; try congruence; cbn; try (now destruct (Hb e)).
  - unfold engine_writes.
    destruct (alive (engine s) && stdout_open s); cbn; exists [];
      now rewrite app_nil_r.
  - exists []; now rewrite app_nil_r.
  - exists []; now rewrite app_nil_r.
  - unfold engine_exits; destruct (alive (engine s)); cbn; exists [];
      now rewrite app_nil_r.
  - unfold drainer_step.
    destruct (t s); try (exists []; now rewrite app_nil_r).
    destruct (interpreter_runs s); try (exists []; now rewrite app_nil_r).
    destruct (readline (stdout_open s) (stdout s)) as [[[|b l] rest]|];
      cbn; try (exists []; now rewrite app_nil_r).
    destruct (decode_line (b :: l)) as [text|]; cbn.
    + now exists [text].
    + exists []; now rewrite app_nil_r.
Qed.

(** *** The queue between the drainer and the waiter *)

(** C1, as stated, fails: a line that is not UTF-8 is read from the stream
    and never put on the queue. *)
Lemma undecodable_line_is_not_enqueued :
  lines_read session_with_undecodable_line = [[xff; x0a]]
  /\ enqueued session_with_undecodable_line = []
  /\ ~ every_line_enqueued session_with_undecodable_line.
Proof.
  split; [reflexivity|]; split; [reflexivity|].
  intros H; inversion H.
Qed.

(** C1, amended.  The lines the drainer has read are the output of the
    engine in the order produced, byte for byte, split where [readline]
    splits, the rest being unread in the pipe; the texts put on the queue are those of the lines read, one
    for one and in order, but for the line on which decoding failed, which
    is the last line read and is not put; the waiter has taken a prefix of
    what was put and the rest is on the queue, so that a line is seen only
    after it was put, once, in order.  Only a step of the drainer puts,
    only a step of the main thread takes. *)
Theorem lines_enqueued_once_in_order (sched : list action) :
  let s := run sched initial in
  List.concat (lines_read s) ++ stdout s = emitted s
  /\ readlines (List.concat (lines_read s)) = lines_read s
  /\ Forall is_line (lines_read s)
  /\ match t s with
     | Died _ =>
         exists valid bad,
           lines_read s = valid ++ [bad] /\ Utf8.decode bad = None
           /\ texts_of valid (enqueued s)
     | _ => every_line_enqueued s
     end
  /\ dequeued s ++ q s = enqueued s
  /\ (forall a, a <> DrainerStep ->
        enqueued (step a s) = enqueued s
        /\ exists taken, q s = taken ++ q (step a s))
  /\ (forall a, a <> MainStep ->
        dequeued (step a s) = dequeued s
        /\ exists put, q (step a s) = q s ++ put).
Proof.
  intros s.
  assert (Hr : reachable s) by now exists sched.
  destruct (invariants s Hr) as (_ & _ & H1 & H2 & H3 & H4 & H5).
  split; [exact H1|]; split; [exact (lines_read_are_lines s Hr)|].
  split; [exact H2|]; split; [|split; [exact H4|]].
  - unfold every_line_enqueued.
    destruct (t s).
    + destruct H5 as [H5 _]; apply enqueue_output_texts.
      rewrite H3; destruct (enqueue_output (lines_read s) []); cbn in *.
      now subst.
    + destruct H5 as (_ & _ & _ & valid & bad & E1 & E2 & E3).
      exists valid, bad; repeat split; auto.
      now apply enqueue_output_texts.
    + destruct H5 as [H5 _]; apply enqueue_output_texts.
      rewrite H3; destruct (enqueue_output (lines_read s) []); cbn in *.
      now subst.
  - split.
    + intros a Ha.
      destruct (only_drainer_puts a s Ha) as (E1 & _ & _ & _ & E2); auto.
    + intros a Ha; apply only_main_gets, Ha.
Qed.

Lemma lines_enqueued_once_in_order_witness :
  let s := run (stub_session (wire "log" ++ wire "bestmove x") 3 1)
             initial in
  every_line_enqueued s
  /\ enqueued (step (EngineWrites [x41]) s) = enqueued s
  /\ dequeued (step DrainerStep s) = dequeued s.
Proof.
  intros s.
  destruct (lines_enqueued_once_in_order
              (stub_session (wire "log" ++ wire "bestmove x") 3 1))
    as (_ & _ & _ & H3 & _ & H5 & H6).
  split; [exact H3|]; split.
  - apply H5; discriminate.
  - apply H6; discriminate.
Defined.

(** *** What went to the engine *)

Lemma writes_app (cs cs' : list io_call) :
  writes (cs ++ cs') = writes cs ++ writes cs'.
Proof.
  induction cs as [|[data|] cs IH]; cbn; [reflexivity| |exact IH].
  now rewrite IH.
Qed.

Lemma writes_sent (sent : list str) :
  writes (flat_map (fun c => send_calls (encoded c)) sent)
  = map encoded sent.
Proof.
  induction sent as [|c sent IH]; cbn; [reflexivity|].
  now rewrite IH.
Qed.

Lemma script_on_the_wire :
  map encoded (board_setup ++ [go; quit]) = script_wire.
Proof. reflexivity. Qed.

(** The commands written and those flushed to the pipe, at any time: the
    script in order, as far as the main thread got. *)
Lemma stdin_contents (s : session) :
  reachable s ->
  exists written flushed todo,
    written ++ todo = board_setup ++ [go; quit]
    /\ writes (calls (stdin s)) = map encoded written
    /\ delivered (stdin s) = stream_of flushed
    /\ (flushed = written \/ exists cmd, written = flushed ++ [cmd])
    /\ (setup_sent (pc s) = true ->
        exists more, flushed = board_setup ++ more)
    /\ (In quit written ->
        after_loop (pc s) = true \/ bestmove s <> None).
Proof.
  intros Hr; destruct (invariants s Hr) as (_ & Hs & _).
  assert (Hc := crashed s Hr).
  unfold stdin_view in Hs.
  assert (Hq : ~ In quit (board_setup ++ [go])).
  { unfold board_setup, go, quit; cbn. intuition discriminate. }
  destruct (pc s) as [todo| | line | line | | | | | e] eqn:Epc; cbn.
  - destruct Hs as (Hb & sent & E & (H1 & H2 & H3)).
    exists sent, sent, (todo ++ [quit]); repeat split; auto.
    + now rewrite app_assoc, E, <- app_assoc.
    + now rewrite H1, writes_sent.
    + intros Hl.
      destruct todo as [|c [|c' todo]]; try discriminate.
      * exists [go]; rewrite app_nil_r in E; now subst.
      * exists []; rewrite app_nil_r.
        apply app_inj_tail in E; tauto.
    + intros Hin; exfalso; apply Hq; rewrite <- E, in_app_iff; auto.
  - destruct Hs as (H1 & H2 & H3).
    exists (board_setup ++ [go]), (board_setup ++ [go]), [quit].
    repeat split; auto; try (now exists [go]); try contradiction.
    now rewrite H1, writes_sent.
  - destruct Hs as (H1 & H2 & H3).
    exists (board_setup ++ [go]), (board_setup ++ [go]), [quit].
    repeat split; auto; try (now exists [go]); try contradiction.
    now rewrite H1, writes_sent.
  - destruct Hs as (H1 & H2 & H3).
    exists (board_setup ++ [go]), (board_setup ++ [go]), [quit].
    repeat split; auto; try (now exists [go]); try contradiction.
    now rewrite H1, writes_sent.
  - destruct Hs as (Hb & H1 & H2 & H3).
    exists (board_setup ++ [go]), (board_setup ++ [go]), [quit].
    repeat split; auto; try (now exists [go]).
    now rewrite H1, writes_sent.
  - destruct Hs as (Hb & H1 & H2 & H3).
    exists (board_setup ++ [go]), (board_setup ++ [go]), [quit].
    repeat split; auto; try (now exists [go]).
    now rewrite H1, writes_sent.
  - destruct Hs as (H1 & H2 & H3).
    exists (board_setup ++ [go; quit]), (board_setup ++ [go; quit]), [].
    repeat split; auto; try (now exists [go; quit]).
    now rewrite H1, writes_sent.
  - destruct Hs as (H1 & H2 & H3).
    exists (board_setup ++ [go; quit]), (board_setup ++ [go; quit]), [].
    repeat split; auto; try (now exists [go; quit]).
    now rewrite H1, writes_sent.
  - destruct (Hc e Epc)
      as [(_ & _ & _ & Hb & sent & cmd & todo & E & (H1 & H2 & H3))
         |[(seen & line & _ & _ & _ & _ & _ & (H1 & H2 & H3))
          |[(seen & best & _ & _ & _ & _ & _ & _ & (H1 & H2 & H3))
           |(_ & (seen & best & _ & _ & _ & _ & Hb) & (H1 & H2 & H3))]]].
    2,3: exists (board_setup ++ [go]), (board_setup ++ [go]), [quit];
      repeat split; auto; try discriminate; try contradiction;
      now rewrite H1, writes_sent.
    + exists (sent ++ [cmd]), sent, (todo ++ [quit]); repeat split; auto.
      * rewrite <- !app_assoc; cbn.
        change (sent ++ cmd :: todo ++ [quit])
          with (sent ++ (cmd :: todo) ++ [quit]).
        now rewrite app_assoc, E, <- app_assoc.
      * rewrite H1, writes_app, writes_sent, map_app; reflexivity.
      * right; now exists cmd.
      * discriminate.
      * intros Hin; exfalso; apply Hq.
        rewrite <- E.
        apply in_app_or in Hin as [Hin|[<-|[]]];
          rewrite in_app_iff; cbn; auto.
    + exists (board_setup ++ [go; quit]), (board_setup ++ [go]), [].
      repeat split; auto; try discriminate; try (right; congruence).
      * rewrite H1, writes_app, writes_sent.
        change (board_setup ++ [go; quit])
          with (board_setup ++ [go] ++ [quit]).
        rewrite app_assoc, map_app; reflexivity.
      * right; exists quit; now rewrite <- app_assoc.
Qed.

Lemma split_at_unique (A : Type) (x : A) (a b a' b' : list A) :
  ~ In x a' -> ~ In x b' ->
  a ++ x :: b = a' ++ x :: b' -> a = a' /\ b = b'.
Proof.
  revert a'; induction a as [|y a IH]; intros [|y' a'] Ha Hb E; cbn in *.
  - injection E as <-; auto.
  - injection E as <- _; exfalso; apply Ha; now left.
  - injection E as -> E; exfalso; apply Hb.
    rewrite <- E; apply in_or_app; right; now left.
  - injection E as <- E.
    destruct (IH a') as [-> ->]; auto.
Qed.

(** C4. The board set-up of the script is [position 1w], [setup], eight
    rows of eight squares, one character per square, a piece letter or a
    dot, and [end]: eleven commands.  Whatever the engine and the schedule
    do, the data of the [write] calls on the pipe is a beginning of the
    script, and what was written before [go] is the set-up, these eleven
    commands in that order and no others. *)
Theorem board_setup_before_go :
  board_setup =
    [Text.lit "position 1w"; Text.lit "setup"]
      ++ map board_row setup_rows ++ [Text.lit "end"]
  /\ List.length board_setup = 11%nat
  /\ Forall (fun row => List.length row = 8%nat
                        /\ forallb is_cell row = true) setup_rows
  /\ map encoded board_setup = setup_wire
  /\ forall sched,
       let s := run sched initial in
       (exists n, writes (calls (stdin s)) = firstn n script_wire)
       /\ (forall before after,
              writes (calls (stdin s)) = before ++ wire "go" :: after ->
              before = setup_wire)
       /\ (pc s = AtSend [go] ->
           writes (calls (stdin s)) = setup_wire
           /\ delivered (stdin s) = List.concat setup_wire).
Proof.
  split; [reflexivity|]; split; [reflexivity|].
  split; [repeat constructor|]; split; [reflexivity|].
  intros sched s.
  assert (Hr : reachable s) by now exists sched.
  destruct (stdin_contents s Hr)
    as (written & flushed & todo & E & Hw & Hd & Hf & Hs & _).
  assert (Ew : map encoded written ++ map encoded todo = script_wire).
  { now rewrite <- map_app, E. }
  split; [|split].
  - exists (List.length written).
    rewrite Hw, <- Ew, <- (length_map encoded written).
    now rewrite firstn_app, Nat.sub_diag, firstn_all, firstn_O, app_nil_r.
  - intros before after Hb.
    rewrite Hw in Hb; rewrite Hb in Ew.
    rewrite <- app_assoc, <- app_comm_cons in Ew.
    destruct (split_at_unique bytes (wire "go") before
                (after ++ map encoded todo) setup_wire [wire "quit"])
      as [-> _]; auto.
    + unfold setup_wire; cbn; intuition discriminate.
    + cbn; intuition discriminate.
  - intros Hpc.
    rewrite Hpc in Hs; destruct (Hs eq_refl) as [more Em].
    destruct (invariants s Hr) as (_ & Hv & _).
    unfold stdin_view in Hv; rewrite Hpc in Hv.
    destruct Hv as (_ & sent & Es & H1 & H2 & H3).
    apply app_inj_tail in Es as [-> _].
    now rewrite H1, writes_sent, H2.
Qed.

Lemma board_setup_before_go_witness :
  let s := run (repeat MainStep 11) initial in
  pc s = AtSend [go]
  /\ writes (calls (stdin s)) = setup_wire
  /\ delivered (stdin s) = List.concat setup_wire.
Proof.
  destruct board_setup_before_go as (_ & _ & _ & _ & H).
  destruct (H (repeat MainStep 11)) as (_ & _ & H3).
  split; [reflexivity|].
  apply H3; reflexivity.
Defined.

(** C5. For a command with UTF-8 encoding [data], [send] makes one [write]
    call, with [data] and one newline byte after it, and these bytes decode
    back to the command and the newline.  With the engine reading, the
    calls are this [write] and one [flush] and no other, and the flush
    hands the bytes to the pipe after whatever was buffered and leaves
    nothing buffered; with the engine gone [BrokenPipeError] is raised and
    nothing reaches the pipe. *)
Theorem send_writes_encoded_line
  (reader_alive : bool) (cmd : str) (data : bytes) (w : writer) :
  Utf8.encode cmd = Some data ->
  let r := send reader_alive cmd w in
  writes (calls (fst r)) = writes (calls w) ++ [data ++ [x0a]]
  /\ Utf8.decode (data ++ [x0a]) = Some (cmd ++ [Text.NL])
  /\ (reader_alive = true ->
      calls (fst r) = calls w ++ [Write (data ++ [x0a]); Flush]
      /\ snd r = None /\ buffered (fst r) = []
      /\ delivered (fst r) = delivered w ++ buffered w ++ data ++ [x0a])
  /\ (reader_alive = false ->
      snd r = Some BrokenPipeError /\ delivered (fst r) = delivered w).
Proof.
  intros H r.
  assert (Hc : calls (fst r) = calls w ++ [Write (data ++ [x0a]); Flush]).
  { unfold r; destruct reader_alive.
    - now rewrite (send_to_reader cmd data w H).
    - now rewrite (send_to_nobody cmd data w H). }
  split; [|split; [|split]].
  - rewrite Hc, writes_app; reflexivity.
  - apply decode_encode; rewrite encode_newline, H; reflexivity.
  - intros ->; split; [exact Hc|].
    unfold r; now rewrite (send_to_reader cmd data w H).
  - intros ->; unfold r; now rewrite (send_to_nobody cmd data w H).
Qed.

Lemma send_writes_encoded_line_witness :
  calls (fst (send true go fresh_writer)) = [Write (wire "go"); Flush]
  /\ delivered (fst (send true go fresh_writer)) = wire "go".
Proof.
  destruct (send_writes_encoded_line true go [x67; x6f] fresh_writer
              eq_refl) as (_ & _ & H3 & _).
  destruct (H3 eq_refl) as (H4 & _ & _ & H5).
  split; [exact H4 | exact H5].
Defined.

(** C6. When [readline] hands the drainer a line whose bytes decode to
    [text], the drainer puts on the queue [text] with its line terminator
    off, that is without its final newline if it has one, and the text put
    has no newline left in it. *)
Theorem drainer_enqueues_decoded_line
  (s : session) (line rest : bytes) (text : str) :
  t s = Draining -> interpreter_runs s = true ->
  readline (stdout_open s) (stdout s) = Some (line, rest) ->
  line <> [] ->
  Utf8.decode line = Some text ->
  q (drainer_step s) = q s ++ [chomp text]
  /\ enqueued (drainer_step s) = enqueued s ++ [chomp text]
  /\ lines_read (drainer_step s) = lines_read s ++ [line]
  /\ stdout (drainer_step s) = rest
  /\ ~ In Text.NL (chomp text).
Proof.
  intros Ht Hi Hr Hne Hd.
  destruct (readline_some _ _ _ _ Hr) as (_ & Hl & _).
  destruct (decode_line_chomp line text (Hl Hne) Hd) as [Hc Hn].
  unfold drainer_step; rewrite Ht, Hi, Hr.
  destruct line as [|b l]; [congruence|].
  cbn; rewrite Hc; cbn; auto.
Qed.

Lemma drainer_enqueues_decoded_line_witness :
  let s := run (repeat MainStep 13
                  ++ [EngineWrites (wire "info" ++ wire "bestmove x")])
             initial in
  q (drainer_step s) = [Text.lit "info"].
Proof.
  intros s.
  assert (Hne : wire "info" <> []) by discriminate.
  exact (proj1 (drainer_enqueues_decoded_line s (wire "info")
                  (wire "bestmove x") (Text.lit "info" ++ [Text.NL])
                  eq_refl eq_refl eq_refl Hne eq_refl)).
Defined.

(** *** The return code of the engine *)

Lemma same_but_returncode_step (a : action) (s s' : session) :
  same_but_returncode s s' ->
  same_but_returncode (step a s) (step (forget_returncode a) s').
Proof.
  open_session s.
  destruct s' as [eng' sin' si' so' sout' sc' qq' tt' p' bm' con' em' lr'
                    enq' deq'].
  unfold same_but_returncode; cbn.
  intros (Ha & <- & <- & <- & <- & <- & <- & <- & <- & <- & <- & <- & <-
          & <- & <-).
  destruct a; cbn.
  - unfold engine_writes; cbn; rewrite <- Ha.
    destruct (alive eng && so); cbn; repeat split; auto.
  - repeat split; auto.
  - repeat split; auto.
  - unfold engine_exits; cbn; rewrite <- Ha.
    destruct (alive eng) eqn:E; cbn; repeat split; auto; congruence.
  - unfold drainer_step; cbn.
    destruct tt; cbn; try (repeat split; now auto).
    destruct (interpreter_runs _); cbn; try (repeat split; now auto).
    destruct (readline so sout) as [[[|b l] rest]|]; cbn;
      try (repeat split; now auto).
    destruct (decode_line (b :: l)); cbn; repeat split; auto.
  - unfold main_step; cbn.
    main_cases p; cbn;
      try (repeat split; now auto).
    + destruct (send _ _ _) as [w [e|]]; cbn; repeat split; auto.
    + destruct qq; cbn; repeat split; auto.
    + destruct (matches line); cbn; repeat split; auto.
    + destruct (send _ _ _) as [w [e|]]; cbn; repeat split; auto.
    + destruct eng, eng'; cbn in *; try discriminate; repeat split; auto.
  - unfold print_raises; cbn.
    destruct p as [todo| | line | line | | | | | e']; cbn;
      try (repeat split; now auto).
    + destruct (print_can_raise _ _); cbn; repeat split; auto.
    + destruct (print_can_raise _ _); cbn; repeat split; auto.
Qed.

Lemma same_but_returncode_run (sched : list action) (s s' : session) :
  same_but_returncode s s' ->
  same_but_returncode (run sched s) (run (map forget_returncode sched) s').
Proof.
  revert s s'; induction sched as [|a sched IH]; intros s s' H; [exact H|].
  cbn [map]; rewrite !run_cons.
  apply IH, same_but_returncode_step, H.
Qed.

Lemma quit_written (s : session) :
  reachable s ->
  In (wire "quit") (writes (calls (stdin s))) ->
  after_loop (pc s) = true \/ bestmove s <> None.
Proof.
  intros Hr Hin.
  destruct (stdin_contents s Hr)
    as (written & flushed & todo & E & Hw & _ & _ & _ & Hq).
  apply Hq.
  rewrite Hw in Hin; apply in_map_iff in Hin as (c & Ec & Hc).
  assert (Hall : In c (board_setup ++ [go; quit])).
  { rewrite <- E; apply in_or_app; now left. }
  replace quit with c; [exact Hc|].
  revert Ec; clear -Hall.
  unfold board_setup, go, quit in *; cbn in Hall.
  repeat (destruct Hall as [<-|Hall]; [try discriminate|]).
  - reflexivity.
  - destruct Hall.
Qed.

(** C7. [quit] is written to the engine, and the main thread is at or past
    [engine.wait()], only when a line beginning with [bestmove] has been
    taken from the queue and has ended the loop; the wait comes after the
    [quit]; it blocks while the engine runs and returns once the engine has
    ended, whatever the return code; no statement follows it; changing the
    return codes of the engine changes nothing but the recorded code. *)
Theorem quit_only_after_bestmove (sched : list action) :
  let s := run sched initial in
  (In (wire "quit") (writes (calls (stdin s)))
   \/ pc s = AtWait \/ pc s = Exited ->
   exists seen best,
     dequeued s = seen ++ [best] /\ existsb matches seen = false
     /\ matches best = true /\ bestmove s = Some best)
  /\ (pc s = AtWait \/ pc s = Exited ->
      In (wire "quit") (writes (calls (stdin s))))
  /\ (pc s = AtWait ->
      (engine s = Running -> main_step s = s)
      /\ (forall rc, engine s = Terminated rc ->
                     main_step s = with_pc Exited s))
  /\ (pc s = Exited -> main_step s = s)
  /\ same_but_returncode s (run (map forget_returncode sched) initial).
Proof.
  intros s.
  assert (Hr : reachable s) by now exists sched.
  split; [|split; [|split; [|split]]].
  - intros H; apply (loop_ended s Hr).
    destruct H as [H|[H|H]].
    + now apply quit_written.
    + left; now rewrite H.
    + left; now rewrite H.
  - intros H.
    destruct (invariants s Hr) as (_ & Hs & _).
    unfold stdin_view in Hs.
    assert (Hok : sent_ok (board_setup ++ [go; quit]) (stdin s)).
    { destruct H as [H|H]; now rewrite H in Hs. }
    destruct Hok as (-> & _).
    rewrite writes_sent, script_on_the_wire.
    unfold script_wire; rewrite in_app_iff; right; right; now left.
  - intros Hpc; unfold main_step; rewrite Hpc; split.
    + now intros ->.
    + now intros rc ->.
  - intros Hpc; unfold main_step; now rewrite Hpc.
  - apply same_but_returncode_run.
    unfold same_but_returncode; repeat split.
Qed.

Lemma quit_only_after_bestmove_witness :
  let sched :=
    repeat MainStep 13 ++ [EngineWrites (wire "bestmove m a2a3")]
      ++ [DrainerStep] ++ repeat MainStep 5 ++ [EngineExits 3; MainStep] in
  pc (run sched initial) = Exited
  /\ exists seen best,
       dequeued (run sched initial) = seen ++ [best]
       /\ matches best = true.
Proof.
  intros sched.
  split; [vm_compute; reflexivity|].
  destruct (quit_only_after_bestmove sched) as (H1 & _).
  destruct H1 as (seen & best & E1 & _ & E2 & _).
  - right; right; vm_compute; reflexivity.
  - exists seen, best; split; [exact E1 | exact E2].
Defined.

(** *** The stream of commands *)

Lemma send_returns (a : bool) (cmd : str) (w : writer) :
  snd (send a cmd w) = None ->
  a = true /\ exists data, Utf8.encode cmd = Some data.
Proof.
  intros H.
  destruct (Utf8.encode cmd) as [data|] eqn:E.
  - destruct a; [split; [reflexivity | now exists data]|].
    rewrite (send_to_nobody cmd data w E) in H; discriminate.
  - rewrite (send_unencodable a cmd w E) in H; discriminate.
Qed.

Lemma stream_of_app (cmds cmds' : list str) :
  stream_of (cmds ++ cmds') = stream_of cmds ++ stream_of cmds'.
Proof. unfold stream_of; now rewrite map_app, concat_app. Qed.

(** What a list of commands that all went through leaves on the pipe. *)
Lemma send_all_returns (cmds : list str) (a : bool) (w : writer) :
  buffered w = [] ->
  snd (send_all a cmds w) = None ->
  delivered (fst (send_all a cmds w)) = delivered w ++ stream_of cmds
  /\ writes (calls (fst (send_all a cmds w)))
     = writes (calls w) ++ map encoded cmds
  /\ buffered (fst (send_all a cmds w)) = [].
Proof.
  revert w; induction cmds as [|cmd cmds IH]; intros w Hb H; cbn in *.
  - now rewrite !app_nil_r.
  - destruct (send a cmd w) as [w' o] eqn:Es.
    destruct o as [e|]; [discriminate|].
    destruct (send_returns a cmd w) as (-> & data & Ed);
      [now rewrite Es|].
    rewrite (send_to_reader cmd data w Ed) in Es.
    injection Es as <-.
    match type of H with
    | snd (send_all _ _ ?w1) = None =>
        destruct (IH w1 eq_refl H) as (-> & -> & ->); cbn
    end.
    rewrite Hb, writes_app, (encoded_of cmd data Ed); cbn.
    unfold stream_of; now rewrite <- !app_assoc.
Qed.

Lemma prefixes_comparable (A : Type) (a a' b b' : list A) :
  a ++ a' = b ++ b' ->
  (exists m, b = a ++ m) \/ (exists m, a = b ++ m).
Proof.
  revert b; induction a as [|x a IH]; intros b E.
  - left; now exists b.
  - destruct b as [|y b]; [right; now exists (x :: a)|].
    injection E as <- E.
    destruct (IH b E) as [[m ->]|[m ->]]; [left|right]; now exists m.
Qed.

(** C8. The bytes a list of commands leaves on the pipe, when every [send]
    returns, are a function of the commands alone: the same for any two
    writers.  Two sessions of the script, whatever their engines and
    schedules do, have put on their pipes beginnings of one and the same
    stream, so that one is a beginning of the other, and once both are
    past the board set-up both streams start with the same bytes, those of
    the set-up. *)
Theorem command_stream_is_deterministic :
  (forall cmds a1 a2 w1 w2,
      buffered w1 = [] -> buffered w2 = [] ->
      snd (send_all a1 cmds w1) = None ->
      snd (send_all a2 cmds w2) = None ->
      delivered (fst (send_all a1 cmds w1)) = delivered w1 ++ stream_of cmds
      /\ delivered (fst (send_all a2 cmds w2))
         = delivered w2 ++ stream_of cmds)
  /\ (forall sched1 sched2,
         let s1 := run sched1 initial in
         let s2 := run sched2 initial in
         (is_prefix (delivered (stdin s1)) (delivered (stdin s2))
          \/ is_prefix (delivered (stdin s2)) (delivered (stdin s1)))
         /\ (setup_sent (pc s1) = true -> setup_sent (pc s2) = true ->
             let n := List.length (List.concat setup_wire) in
             firstn n (delivered (stdin s1)) = List.concat setup_wire
             /\ firstn n (delivered (stdin s2)) = List.concat setup_wire)).
Proof.
  split.
  - intros cmds a1 a2 w1 w2 B1 B2 H1 H2; split.
    + apply (send_all_returns cmds a1 w1 B1 H1).
    + apply (send_all_returns cmds a2 w2 B2 H2).
  - intros sched1 sched2 s1 s2.
    assert (Hr1 : reachable s1) by now exists sched1.
    assert (Hr2 : reachable s2) by now exists sched2.
    destruct (stdin_contents s1 Hr1)
      as (wr1 & fl1 & todo1 & E1 & _ & D1 & F1 & S1 & _).
    destruct (stdin_contents s2 Hr2)
      as (wr2 & fl2 & todo2 & E2 & _ & D2 & F2 & S2 & _).
    assert (P1 : exists r, fl1 ++ r = board_setup ++ [go; quit]).
    { destruct F1 as [->|[cmd ->]]; [now exists todo1|].
      exists (cmd :: todo1); now rewrite <- app_assoc in E1. }
    assert (P2 : exists r, fl2 ++ r = board_setup ++ [go; quit]).
    { destruct F2 as [->|[cmd ->]]; [now exists todo2|].
      exists (cmd :: todo2); now rewrite <- app_assoc in E2. }
    destruct P1 as [r1 P1], P2 as [r2 P2].
    split.
    + rewrite D1, D2; unfold is_prefix.
      destruct (prefixes_comparable str fl1 r1 fl2 r2) as [[m ->]|[m ->]];
        [congruence | left | right]; exists (stream_of m);
        apply stream_of_app.
    + intros T1 T2 n.
      destruct (S1 T1) as [m1 ->], (S2 T2) as [m2 ->].
      rewrite D1, D2, !stream_of_app.
      change (stream_of board_setup) with (List.concat setup_wire).
      unfold n.
      now rewrite !firstn_app, !Nat.sub_diag, !firstn_all, !firstn_O,
        !app_nil_r.
Qed.

Lemma command_stream_is_deterministic_witness :
  let s1 := run (repeat MainStep 11) initial in
  let s2 := run (stub_session (wire "bestmove x") 2 3) initial in
  firstn (List.length (List.concat setup_wire)) (delivered (stdin s1))
  = firstn (List.length (List.concat setup_wire)) (delivered (stdin s2)).
Proof.
  intros s1 s2.
  destruct command_stream_is_deterministic as (_ & H).
  destruct (H (repeat MainStep 11) (stub_session (wire "bestmove x") 2 3))
    as (_ & H2).
  destruct H2 as [E1 E2]; [reflexivity | reflexivity |].
  fold s1 in E1; fold s2 in E2.
  exact (eq_trans E1 (eq_sym E2)).
Defined.

(** C9, as stated, fails: the waiter has taken a line from the queue,
    the [print] of its echo has raised, and the loop has ended with the
    main thread; the line is not echoed, then or later. *)
Lemma refused_line_is_not_echoed :
  dequeued session_with_unechoed_line = [[0x20AC]]
  /\ pc session_with_unechoed_line = Crashed UnicodeEncodeError
  /\ in_loop (pc session_with_unechoed_line) = false
  /\ forall more,
       dequeued (run more session_with_unechoed_line) = [[0x20AC]]
       /\ console (run more session_with_unechoed_line) = [].
Proof.
  split; [vm_compute; reflexivity|].
  split; [vm_compute; reflexivity|].
  split; [vm_compute; reflexivity|].
  intros more.
  destruct (ended_run_keeps more session_with_unechoed_line)
    as (_ & _ & E3 & _ & E5); [vm_compute; reflexivity|].
  rewrite E3, E5; split; vm_compute; reflexivity.
Qed.

(** C9, amended.  Every line of the queue that the waiter takes is
    printed as [ENGINE: line], in the order taken, before the test, unless
    its [print] raises, which ends the main thread with the line not
    echoed: the console holds the echoes of the lines taken, in order, all
    of them or all but the one taken last, which is then the line at its
    [print] or the line whose [print] has raised.  When the main thread is
    at the test of a line, the echoes of all lines taken, this one
    included, are on the console; when the loop has ended on the line
    [best], the console holds the echoes of the lines before it, then the
    echo of [best], then, once printed, the separate line of the final
    move, a newline and [Final engine move: best], which is no echo of a
    line, and nothing else.  So with fifty lines taken before the
    [bestmove] line, the console starts with their fifty echoes in order,
    then that of the fifty-first; and when the engine writes diagnostic
    lines, none beginning with [bestmove], and then a [bestmove] line, the
    lines taken when the test succeeds are these lines, all of them, in
    the order written, whatever the schedule. *)
Theorem dequeued_lines_are_echoed_in_order (sched : list action) :
  let s := run sched initial in
  (forall line,
      engine_echo line = Text.lit "ENGINE:" ++ [32] ++ line ++ [Text.NL])
  /\ (forall best,
         final_echo (Some best)
         = Text.NL :: Text.lit "Final engine move:" ++ [32] ++ best
             ++ [Text.NL])
  /\ (forall best line, final_echo best <> engine_echo line)
  /\ (exists printed tail,
         console s = map engine_echo printed ++ tail
         /\ (tail = [] \/ tail = [final_echo (bestmove s)])
         /\ (printed = dequeued s
             \/ exists line,
                  dequeued s = printed ++ [line]
                  /\ (pc s = AtPrint line
                      \/ exists e,
                           pc s = Crashed e
                           /\ print_can_raise e (engine_echo line) = true)))
  /\ (forall line, pc s = AtMatch line ->
        exists seen,
          dequeued s = seen ++ [line]
          /\ console s = map engine_echo seen ++ [engine_echo line])
  /\ (after_loop (pc s) = true ->
      exists seen best,
        dequeued s = seen ++ [best] /\ existsb matches seen = false
        /\ matches best = true /\ bestmove s = Some best
        /\ console s =
             map engine_echo seen ++ [engine_echo best]
               ++ match pc s with
                  | AtFinalPrint => []
                  | _ => [final_echo (Some best)]
                  end)
  /\ (forall diag best,
         dequeued s = diag ++ [best] ->
         pc s = AtMatch best \/ after_loop (pc s) = true ->
         firstn (List.length diag + 1) (console s)
         = map engine_echo diag ++ [engine_echo best])
  /\ (forall diag best,
         Forall plain (diag ++ [best]) ->
         existsb matches diag = false -> matches best = true ->
         emitted s = stream_of (diag ++ [best]) ->
         (exists line, pc s = AtMatch line /\ matches line = true)
         \/ after_loop (pc s) = true ->
         dequeued s = diag ++ [best]
         /\ firstn (List.length diag + 1) (console s)
            = map engine_echo diag ++ [engine_echo best]).
Proof.
  intros s.
  destruct (invariants_run sched) as (Hw & _ & _); fold s in Hw.
  assert (H3 : forall line, pc s = AtMatch line ->
             exists seen, dequeued s = seen ++ [line]
               /\ console s = map engine_echo seen ++ [engine_echo line]).
  { intros line Hpc; unfold waiter_view in Hw; rewrite Hpc in Hw.
    destruct Hw as (seen & E1 & _ & E2 & _).
    exists seen; split; [exact E1|]. now rewrite E2, map_app. }
  assert (H4 : after_loop (pc s) = true ->
      exists seen best,
        dequeued s = seen ++ [best] /\ existsb matches seen = false
        /\ matches best = true /\ bestmove s = Some best
        /\ console s =
             map engine_echo seen ++ [engine_echo best]
               ++ match pc s with
                  | AtFinalPrint => []
                  | _ => [final_echo (Some best)]
                  end).
  { intros Ha; unfold waiter_view in Hw.
    destruct (pc s); try discriminate;
      destruct Hw as (seen & best & E1 & E2 & E3 & E4 & E5);
      exists seen, best; repeat split; auto;
      rewrite E4, map_app; cbn; now rewrite <- ?app_assoc. }
  assert (H5 : forall diag best,
         dequeued s = diag ++ [best] ->
         pc s = AtMatch best \/ after_loop (pc s) = true ->
         firstn (List.length diag + 1) (console s)
         = map engine_echo diag ++ [engine_echo best]).
  { intros diag best Ed [Hpc|Ha].
    + destruct (H3 best Hpc) as (seen & E1 & ->).
      rewrite Ed in E1; apply app_inj_tail in E1 as [<- _].
      rewrite <- (length_map engine_echo diag).
      replace (List.length (map engine_echo diag) + 1)%nat
        with (List.length (map engine_echo diag ++ [engine_echo best]))
        by (rewrite length_app; reflexivity).
      apply firstn_all.
    + destruct (H4 Ha) as (seen & best' & E1 & _ & _ & _ & ->).
      rewrite Ed in E1; apply app_inj_tail in E1 as [<- <-].
      rewrite app_assoc.
      rewrite <- (length_map engine_echo diag).
      replace (List.length (map engine_echo diag) + 1)%nat
        with (List.length (map engine_echo diag ++ [engine_echo best]))
        by (rewrite length_app; reflexivity).
      now rewrite firstn_app, Nat.sub_diag, firstn_all, firstn_O,
        app_nil_r. }
  split; [reflexivity|]; split; [reflexivity|]; split;
    [|split; [|split; [exact H3|split; [exact H4|split; [exact H5|]]]]].
  - intros best line H.
    apply (f_equal (hd 0)) in H; vm_compute in H; discriminate.
  - assert (Hc := crashed s ltac:(now exists sched)).
    unfold waiter_view in *.
    destruct (pc s) as [todo| | line | line | | | | | e] eqn:Epc.
    + destruct Hw as (-> & -> & _); exists [], []; auto.
    + destruct Hw as (_ & -> & _); exists (dequeued s), [].
      rewrite app_nil_r; auto.
    + destruct Hw as (seen & -> & _ & -> & _); exists seen, [].
      rewrite app_nil_r; split; [reflexivity|]; split; [now left|].
      right; exists line; auto.
    + destruct Hw as (seen & -> & _ & -> & _); exists (seen ++ [line]), [].
      rewrite app_nil_r; auto.
    + destruct Hw as (seen & best & -> & _ & _ & -> & _).
      exists (seen ++ [best]), []; rewrite app_nil_r; auto.
    + destruct Hw as (seen & best & -> & _ & _ & -> & ->).
      exists (seen ++ [best]), [final_echo (Some best)]; auto.
    + destruct Hw as (seen & best & -> & _ & _ & -> & ->).
      exists (seen ++ [best]), [final_echo (Some best)]; auto.
    + destruct Hw as (seen & best & -> & _ & _ & -> & ->).
      exists (seen ++ [best]), [final_echo (Some best)]; auto.
    + destruct (Hc e Epc)
        as [(_ & -> & -> & _)
           |[(seen & line & -> & _ & -> & _ & He & _)
            |[(seen & best & -> & _ & _ & -> & _)
             |(_ & (seen & best & -> & _ & _ & -> & ->) & _)]]].
      * exists [], []; auto.
      * exists seen, []; rewrite app_nil_r.
        split; [reflexivity|]; split; [now left|].
        right; exists line; split; [reflexivity|].
        right; now exists e.
      * exists (seen ++ [best]), []; rewrite app_nil_r; auto.
      * exists (seen ++ [best]), [final_echo (Some best)]; auto.
  - intros diag best Hp Hd Hb E Hpc.
    assert (Hr : reachable s) by now exists sched.
    assert (Hs : exists seen b,
               dequeued s = seen ++ [b] /\ matches b = true
               /\ (pc s = AtMatch b \/ after_loop (pc s) = true)).
    { destruct Hpc as [(line & Hpc & Hm)|Ha].
      - destruct (H3 line Hpc) as (seen & E1 & _).
        exists seen, line; auto.
      - destruct (H4 Ha) as (seen & b & E1 & _ & E3 & _).
        exists seen, b; auto. }
    destruct Hs as (seen & b & Es & Hm & Hpc').
    destruct (bestmove_after_diagnostics s diag best Hr Hp Hd E seen b
                Es Hm) as [Eq _].
    split; [exact Eq|].
    apply H5; [exact Eq|].
    rewrite Eq in Es; apply app_inj_tail in Es as [_ <-].
    exact Hpc'.
Qed.

Lemma dequeued_lines_are_echoed_in_order_witness :
  let s := run (stub_session diagnostics_then_bestmove 52 154) initial in
  pc s = AtQuit
  /\ firstn 51 (console s)
     = map engine_echo (map Text.lit diagnostics)
         ++ [engine_echo (Text.lit "bestmove m a2a3")].
Proof.
  intros s.
  split; [vm_compute; reflexivity|].
  destruct (dequeued_lines_are_echoed_in_order
              (stub_session diagnostics_then_bestmove 52 154))
    as (_ & _ & _ & _ & _ & _ & _ & H).
  apply (H (map Text.lit diagnostics) (Text.lit "bestmove m a2a3")).
  - apply forallb_plain; vm_compute; reflexivity.
  - vm_compute; reflexivity.
  - vm_compute; reflexivity.
  - vm_compute; reflexivity.
  - right; vm_compute; reflexivity.
Defined.

(** *** After the drainer has died *)

Lemma dead_drainer_step (a : action) (s : session) (e : exn) :
  t s = Died e ->
  t (step a s) = Died e
  /\ enqueued (step a s) = enqueued s
  /\ lines_read (step a s) = lines_read s
  /\ stdout_closed (step a s) = stdout_closed s
  /\ exists taken, q s = taken ++ q (step a s).
Proof.
  intros Ht.
  destruct (action_eq_drainer a) as [->|Ha].
  - cbn; unfold drainer_step; rewrite Ht.
    repeat split; auto; now exists [].
  - destruct (only_drainer_puts a s Ha) as (E1 & E2 & E3 & E4 & E5).
    rewrite E3; auto.
Qed.

Lemma dead_drainer_run (more : list action) (s : session) (e : exn) :
  t s = Died e ->
  t (run more s) = Died e
  /\ enqueued (run more s) = enqueued s
  /\ lines_read (run more s) = lines_read s
  /\ stdout_closed (run more s) = stdout_closed s
  /\ exists taken, q s = taken ++ q (run more s).
Proof.
  revert s; induction more as [|a more IH]; intros s Ht.
  - repeat split; auto; now exists [].
  - rewrite run_cons.
    destruct (dead_drainer_step a s e Ht) as (T & E1 & E2 & E3 & k1 & E4).
    destruct (IH (step a s) T) as (T' & F1 & F2 & F3 & k2 & F4).
    repeat split; try congruence.
    exists (k1 ++ k2); rewrite E4, F4; now rewrite app_assoc.
Qed.

Lemma starving_step (a : action) (s : session) (e : exn) :
  t s = Died e -> q s = [] -> pc s = AtGet ->
  t (step a s) = Died e /\ q (step a s) = [] /\ pc (step a s) = AtGet.
Proof.
  intros Ht Hq Hpc.
  destruct (dead_drainer_step a s e Ht) as (T & _ & _ & _ & k & Ek).
  rewrite Hq in Ek; symmetry in Ek; apply app_eq_nil in Ek as [_ Ek].
  split; [exact T|]; split; [exact Ek|].
  destruct (action_cases a) as [->|[[e' ->]|[Ha Hb]]].
  - cbn; unfold main_step; now rewrite Hpc, Hq.
  - cbn; unfold print_raises; now rewrite Hpc.
  - destruct (others_keep_main a s Ha Hb) as (-> & _); exact Hpc.
Qed.

Lemma starving_run (more : list action) (s : session) (e : exn) :
  t s = Died e -> q s = [] -> pc s = AtGet ->
  q (run more s) = [] /\ pc (run more s) = AtGet.
Proof.
  revert s; induction more as [|a more IH]; intros s Ht Hq Hpc;
    [now split|].
  rewrite run_cons.
  destruct (starving_step a s e Ht Hq Hpc) as (T & Q & P).
  now apply IH.
Qed.

(** C10, as stated, fails: the lines put on the queue before the decoding
    error are still there, and when one of them begins with [bestmove] the
    waiter takes it and the script runs to its end. *)
Lemma waiter_ends_after_decode_error :
  t session_with_bestmove_then_undecodable_line = Died UnicodeDecodeError
  /\ q session_with_bestmove_then_undecodable_line
     = [Text.lit "bestmove x"]
  /\ pc (run (repeat MainStep 5 ++ [EngineExits 0; MainStep])
           session_with_bestmove_then_undecodable_line) = Exited
  /\ ~ waiter_starves session_with_bestmove_then_undecodable_line.
Proof.
  split; [vm_compute; reflexivity|].
  split; [vm_compute; reflexivity|].
  split; [vm_compute; reflexivity|].
  intros [Hq _]; vm_compute in Hq; discriminate.
Qed.

(** C10, amended.  When the line that [readline] hands the drainer is not
    UTF-8, the decoding raises: the drainer thread dies with
    [UnicodeDecodeError], the stream is not closed and nothing is put on
    the queue.  Once the drainer has died this way it stays dead, the
    stream stays open, no line is read or put any more, and the queue only
    loses the lines the waiter takes.  The lines put before stay for the
    waiter; once the queue is empty it is empty for ever, and a waiter
    that polls it polls for ever. *)
Theorem decode_error_stops_the_drainer (sched : list action) :
  let s := run sched initial in
  (forall line rest,
      t s = Draining -> interpreter_runs s = true ->
      readline (stdout_open s) (stdout s) = Some (line, rest) ->
      line <> [] -> Utf8.decode line = None ->
      t (drainer_step s) = Died UnicodeDecodeError
      /\ stdout_closed (drainer_step s) = false
      /\ q (drainer_step s) = q s
      /\ enqueued (drainer_step s) = enqueued s)
  /\ (forall e,
         t s = Died e ->
         e = UnicodeDecodeError /\ stdout_closed s = false
         /\ (exists valid bad,
                lines_read s = valid ++ [bad] /\ Utf8.decode bad = None
                /\ texts_of valid (enqueued s))
         /\ forall more,
              let s' := run more s in
              t s' = Died e /\ stdout_closed s' = false
              /\ enqueued s' = enqueued s /\ lines_read s' = lines_read s
              /\ (exists taken, q s = taken ++ q s')
              /\ (q s = [] ->
                  q s' = [] /\ (pc s = AtGet -> pc s' = AtGet))).
Proof.
  intros s.
  destruct (invariants_run sched) as (_ & _ & _ & _ & _ & _ & H5).
  fold s in H5.
  split.
  - intros line rest Ht Hi Hr Hne Hd.
    rewrite Ht in H5; destruct H5 as [_ Hc].
    unfold drainer_step; rewrite Ht, Hi, Hr.
    destruct line as [|b l]; [congruence|].
    unfold decode_line; rewrite Hd; cbn; auto.
  - intros e Ht; rewrite Ht in H5.
    destruct H5 as (-> & _ & Hc & valid & bad & E1 & E2 & E3).
    split; [reflexivity|]; split; [exact Hc|]; split.
    + exists valid, bad; repeat split; auto.
      now apply enqueue_output_texts.
    + intros more s'.
      destruct (dead_drainer_run more s _ Ht) as (T & F1 & F2 & F3 & F4).
      fold s' in T, F1, F2, F3, F4.
      split; [exact T|]; split; [congruence|].
      split; [exact F1|]; split; [exact F2|]; split; [exact F4|].
      intros Hq.
      destruct F4 as [k Ek]; rewrite Hq in Ek.
      symmetry in Ek; apply app_eq_nil in Ek as [_ Ek].
      split; [exact Ek|].
      intros Hpc; apply (starving_run more s _ Ht Hq Hpc).
Qed.

Lemma decode_error_stops_the_drainer_witness :
  let sched :=
    repeat MainStep 13 ++ [EngineWrites (wire "log")] in
  let s := run (sched ++ [EngineWrites ([xff; x0a] ++ wire "bestmove x")]
                  ++ [DrainerStep; DrainerStep] ++ repeat MainStep 3)
             initial in
  t s = Died UnicodeDecodeError
  /\ forall more, q (run more s) = [] /\ pc (run more s) = AtGet.
Proof.
  intros sched s.
  split; [vm_compute; reflexivity|].
  intros more.
  destruct (decode_error_stops_the_drainer
              (sched ++ [EngineWrites ([xff; x0a] ++ wire "bestmove x")]
                 ++ [DrainerStep; DrainerStep] ++ repeat MainStep 3))
    as (_ & H).
  destruct (H UnicodeDecodeError) as (_ & _ & _ & H').
  - vm_compute; reflexivity.
  - destruct (H' more) as (_ & _ & _ & _ & _ & H6).
    destruct H6 as [Hq Hpc]; [vm_compute; reflexivity|].
    split; [exact Hq|].
    apply Hpc; vm_compute; reflexivity.
Defined.

(* ===================================================================== *)
(** ** More of the script *)
(* ===================================================================== *)

(** *** The codec and the wire *)

Lemma decode_app (a b : bytes) (ta tb : str) :
  Utf8.decode a = Some ta -> Utf8.decode b = Some tb ->
  Utf8.decode (a ++ b) = Some (ta ++ tb).
Proof.
  intros Ha Hb; apply decode_encode.
  rewrite encode_app, (encode_decode a ta Ha), (encode_decode b tb Hb).
  reflexivity.
Qed.

(** The encoding of a text ends with a newline byte: the text ends with a
    newline, and the bytes before are the encoding of the text before. *)
Lemma encode_ends_with_newline (d : str) (body : bytes) :
  Utf8.encode d = Some (body ++ [x0a]) ->
  exists d', d = d' ++ [Text.NL] /\ Utf8.encode d' = Some body.
Proof.
  intros H.
  destruct d as [|c d'] using rev_ind.
  - cbn in H; destruct body; discriminate.
  - clear IHd'.
    rewrite encode_app in H.
    destruct (Utf8.encode d') as [rb|] eqn:Eb; [|discriminate].
    cbn [Utf8.encode] in H.
    destruct (Utf8.encode_char c) as [rc|] eqn:Ec; [|discriminate].
    rewrite app_nil_r in H; injection H as H.
    destruct rc as [|y rc'] using rev_ind.
    + now destruct (encode_char_nonempty c [] Ec).
    + clear IHrc'.
      rewrite app_assoc in H; apply app_inj_tail in H as [H ->].
      assert (Hc : c = Text.NL).
      { apply (encode_char_newline c _ Ec), in_or_app; right; now left. }
      subst c; cbn in Ec.
      assert (Hrc : rc' = []).
      { destruct rc' as [|z [|z' rc']]; [reflexivity|discriminate|].
        cbn in Ec; discriminate. }
      subst rc'; rewrite app_nil_r in H; subst rb.
      now exists d'.
Qed.

(** X1. The strict decoder and the encoder are inverse of each other:
    some bytes decode to a text exactly when the text encodes to these
    bytes.  So no two byte strings decode to the same text, and no two
    texts encode to the same bytes. *)
Theorem utf8_decoding_inverts_encoding :
  (forall bs text,
      Utf8.decode bs = Some text <-> Utf8.encode text = Some bs)
  /\ (forall bs bs' text,
         Utf8.decode bs = Some text -> Utf8.decode bs' = Some text ->
         bs = bs')
  /\ (forall text text' bs,
         Utf8.encode text = Some bs -> Utf8.encode text' = Some bs ->
         text = text').
Proof.
  split; [|split].
  - intros bs text; split; [apply encode_decode | apply decode_encode].
  - intros bs bs' text H H'.
    apply encode_decode in H, H'; congruence.
  - intros text text' bs H H'.
    apply decode_encode in H, H'; congruence.
Qed.

Lemma utf8_decoding_inverts_encoding_witness :
  Utf8.encode [0x20AC; 0x1F600] =
  Some [xe2; x82; xac; xf0; x9f; x98; x80].
Proof.
  apply (proj1 utf8_decoding_inverts_encoding); reflexivity.
Defined.

(** X2. What [send] writes for a text and what the drainer takes for a
    line are inverse of each other: a complete line that the drainer
    decodes to [text] is what [send] writes for [text], and [text] has a
    UTF-8 encoding and no newline; and what [send] writes for such a text
    is a complete line that the drainer decodes to it. *)
Theorem sent_line_is_read_back (raw : bytes) (text : str) :
  is_complete raw /\ decode_line raw = Some text
  <-> plain text /\ encoded text = raw.
Proof.
  split.
  - intros [(body & -> & Hb) Hd].
    unfold decode_line in Hd.
    destruct (Utf8.decode (body ++ [x0a])) as [d|] eqn:Ed; [|discriminate].
    injection Hd as <-.
    destruct (encode_ends_with_newline d body (encode_decode _ _ Ed))
      as (d' & -> & Ee).
    assert (Hn : ~ In Text.NL d').
    { intros Hin; apply Hb; exact (encode_newline_in d' body Ee Hin). }
    rewrite rstrip_one by exact Hn.
    split; [split; [congruence | exact Hn]|].
    exact (encoded_of d' body Ee).
  - intros [Hp <-]; split.
    + now apply plain_line_complete.
    + now apply plain_line_decodes.
Qed.

Lemma sent_line_is_read_back_witness :
  decode_line (wire "bestmove m a2a3") = Some (Text.lit "bestmove m a2a3")
  /\ encoded (Text.lit "go") = wire "go".
Proof.
  split.
  - apply (proj2 (sent_line_is_read_back (wire "bestmove m a2a3")
                    (Text.lit "bestmove m a2a3"))).
    split; [apply plainb_plain|]; reflexivity.
  - apply (proj1 (sent_line_is_read_back (wire "go") (Text.lit "go"))).
    split; [|reflexivity].
    exists [x67; x6f]; split; [reflexivity|].
    cbn; intuition discriminate.
Defined.

(** *** Lines and texts *)

(** Any bytes are some complete lines and a rest without newline. *)
Lemma bytes_as_lines (data : bytes) :
  exists ls p,
    Forall is_complete ls /\ ~ In x0a p /\ data = List.concat ls ++ p.
Proof.
  remember (List.length data) as n eqn:En.
  revert data En; induction n as [n IH] using lt_wf_ind; intros data En.
  destruct (split_line data) as [[l rest]|] eqn:Es.
  - destruct (split_line_some data l rest Es) as (-> & body & -> & Hb).
    destruct (IH (List.length rest)) with (data := rest)
      as (ls & p & Hls & Hp & ->); [|reflexivity|].
    + subst n; rewrite !length_app; cbn; lia.
    + exists ((body ++ [x0a]) :: ls), p; split; [|split; [exact Hp|]].
      * constructor; [now exists body | exact Hls].
      * cbn; now rewrite <- !app_assoc.
  - exists [], data; split; [constructor|]; split; [|reflexivity].
    now apply split_line_none.
Qed.

(** X3. [readline] called until it returns [b""] on a stream that has
    ended loses and adds nothing: the lines put end to end are the data.
    No line is empty, no line has a newline before its last byte, and
    every line but the last ends with a newline.  There is no line exactly
    when there is no data. *)
Theorem readlines_partition (data : bytes) :
  List.concat (readlines data) = data
  /\ Forall is_line (readlines data)
  /\ Forall is_complete (removelast (readlines data))
  /\ (readlines data = [] <-> data = []).
Proof.
  destruct (bytes_as_lines data) as (ls & p & Hls & Hp & ->).
  rewrite (readlines_complete ls p Hls Hp).
  assert (Hl : Forall is_line ls).
  { refine (Forall_impl is_line _ Hls).
    intros l (body & -> & Hb); split; [now destruct body|].
    now rewrite removelast_last. }
  destruct p as [|b p].
  - rewrite !app_nil_r; split; [reflexivity|]; split; [exact Hl|].
    split.
    + destruct ls as [|l ls] using rev_ind; [constructor|].
      rewrite removelast_last.
      now apply Forall_app in Hls as [Hls _].
    + split; [now intros ->|].
      intros E; destruct Hls as [|l ls (body & -> & _) _]; [reflexivity|].
      cbn in E; destruct body; discriminate.
  - split; [|split; [|split]].
    + rewrite concat_app; cbn; now rewrite app_nil_r.
    + apply Forall_app; split; [exact Hl|].
      constructor; [|constructor].
      split; [discriminate | now apply not_in_removelast].
    + now rewrite removelast_last.
    + split; intros E.
      * destruct ls; discriminate.
      * destruct ls as [|l ls]; [discriminate|].
        destruct Hls as [|l' ls' (body & -> & _) _]; [discriminate|].
        cbn in E; destruct body; discriminate.
Qed.

Lemma lstrip_spec (ch : codepoint) (s : str) :
  exists k,
    s = repeat ch k ++ Text.lstrip ch s
    /\ forall r, Text.lstrip ch s <> ch :: r.
Proof.
  induction s as [|c s (k & E & H)].
  - exists 0%nat; split; [reflexivity | discriminate].
  - cbn [Text.lstrip].
    destruct (N.eqb_spec c ch) as [->|Hc].
    + exists (S k); split; [cbn; now rewrite <- E | exact H].
    + exists 0%nat; split; [reflexivity|].
      intros r [= E' _]; contradiction.
Qed.

Lemma rev_repeat_same (A : Type) (x : A) (k : nat) :
  rev (repeat x k) = repeat x k.
Proof.
  induction k as [|k IH]; [reflexivity|].
  cbn; rewrite IH; symmetry; apply repeat_cons.
Qed.

(** X4. Whatever bytes [line.decode("utf-8").rstrip("\n")] is given, when
    they decode, the text that results is the decoded text less all the
    newlines at its end, however many, and nothing else: it does not end
    with a newline, and the newlines inside it stay. *)
Theorem enqueued_text_has_no_trailing_newline (raw : bytes) (text : str) :
  decode_line raw = Some text ->
  exists decoded k,
    Utf8.decode raw = Some decoded
    /\ decoded = text ++ repeat Text.NL k
    /\ forall body, text <> body ++ [Text.NL].
Proof.
  unfold decode_line; intros H.
  destruct (Utf8.decode raw) as [decoded|]; [|discriminate].
  injection H as <-.
  destruct (lstrip_spec Text.NL (rev decoded)) as (k & E & Hk).
  exists decoded, k; split; [reflexivity|]; split.
  - unfold Text.rstrip.
    rewrite <- (rev_involutive decoded) at 1.
    rewrite E at 1.
    now rewrite rev_app_distr, rev_repeat_same.
  - intros body Eb; unfold Text.rstrip in Eb.
    apply (f_equal (@rev _)) in Eb.
    rewrite rev_involutive, rev_app_distr in Eb; cbn in Eb.
    exact (Hk _ Eb).
Qed.

Lemma enqueued_text_has_no_trailing_newline_witness :
  exists decoded k,
    Utf8.decode [x61; x0a; x62; x0a; x0a] = Some decoded
    /\ decoded = [97; Text.NL; 98] ++ repeat Text.NL k.
Proof.
  destruct (enqueued_text_has_no_trailing_newline
              [x61; x0a; x62; x0a; x0a] [97; Text.NL; 98] eq_refl)
    as (decoded & k & H1 & H2 & _).
  exists decoded, k; split; [exact H1 | exact H2].
Defined.

(** X5. A carriage return before the newline is not part of the
    terminator: for a line that ends with [\r\n] the drainer puts the text
    with the [\r] at its end.  The test of the waiter looks at the front
    only, so a [bestmove] line is still found, and the move kept in
    [bestmove] carries the [\r]. *)
Theorem carriage_return_is_kept (body : bytes) (text : str) :
  ~ In x0a body -> Utf8.decode body = Some text ->
  decode_line (body ++ [x0d; x0a]) = Some (text ++ [13])
  /\ (matches text = true -> matches (text ++ [13]) = true).
Proof.
  intros Hb Hd.
  assert (Hn : ~ In Text.NL text).
  { intros Hin; apply Hb.
    exact (encode_newline_in text body (encode_decode _ _ Hd) Hin). }
  split.
  - unfold decode_line.
    rewrite (decode_app body [x0d; x0a] text [13; Text.NL] Hd eq_refl).
    cbn [option_map].
    change (text ++ [13; Text.NL]) with (text ++ [13] ++ [Text.NL]).
    rewrite app_assoc, rstrip_one; [reflexivity|].
    rewrite in_app_iff; cbn; intuition discriminate.
  - unfold matches; intros Hm.
    apply startswith_iff in Hm as [rest ->].
    rewrite <- app_assoc; apply startswith_app.
Qed.

Lemma carriage_return_is_kept_witness :
  decode_line (list_byte_of_string "bestmove x" ++ [x0d; x0a])
  = Some (Text.lit "bestmove x" ++ [13]).
Proof.
  apply (carriage_return_is_kept (list_byte_of_string "bestmove x")
           (Text.lit "bestmove x")).
  - cbn; intuition discriminate.
  - reflexivity.
Defined.

(** X6. Text of code points below 128 goes on the wire as it is: [send]
    writes one byte for each character, the byte with the number of the
    character, and the newline. *)
Theorem ascii_command_on_the_wire (text : str) :
  Forall (fun c => c < 128) text ->
  Utf8.encode text = Some (map Utf8.octet text)
  /\ encoded text = map Utf8.octet text ++ [x0a]
  /\ map Byte.to_N (encoded text) = text ++ [Text.NL]
  /\ List.length (encoded text) = S (List.length text).
Proof.
  intros H.
  assert (Hn : map Byte.to_N (map Utf8.octet text) = text).
  { induction H as [|c text Hc _ IH]; [reflexivity|].
    cbn [map]; rewrite IH, to_N_octet; [reflexivity|].
    apply N.lt_le_incl, N.lt_le_trans with 128; [exact Hc|].
    now apply N.leb_le. }
  assert (He : Utf8.encode text = Some (map Utf8.octet text)).
  { clear Hn; induction H as [|c text Hc _ IH]; [reflexivity|].
    cbn [Utf8.encode map]; rewrite IH, (encode_char_1 c Hc).
    reflexivity. }
  rewrite (encoded_of text _ He).
  split; [exact He|]; split; [reflexivity|]; split.
  - rewrite map_app, Hn; reflexivity.
  - rewrite length_app, length_map; cbn; apply Nat.add_1_r.
Qed.

Lemma ascii_command_on_the_wire_witness :
  encoded quit = [x71; x75; x69; x74; x0a].
Proof.
  apply (ascii_command_on_the_wire quit).
  repeat constructor.
Defined.

(** *** The drainer, several turns at once *)

(** One turn of the drainer that gets a line from [readline]. *)
Lemma drainer_step_line (s : session) (l rest : bytes) :
  t s = Draining -> interpreter_runs s = true ->
  readline (stdout_open s) (stdout s) = Some (l, rest) -> l <> [] ->
  drainer_step s =
    match decode_line l with
    | Some text => drained [l] [text] rest s
    | None =>
        with_t (Died UnicodeDecodeError)
          (with_lines_read (lines_read s ++ [l]) (with_stdout rest s))
    end.
Proof.
  intros Ht Hi Hr Hl; unfold drainer_step; rewrite Ht, Hi, Hr.
  destruct l as [|b l]; [congruence|].
  destruct (decode_line (b :: l)); reflexivity.
Qed.

(** One turn of the drainer that gets [b""] from [readline]. *)
Lemma drainer_step_eof (s : session) :
  t s = Draining -> interpreter_runs s = true ->
  stdout_open s = false -> stdout s = [] ->
  drainer_step s = with_t Returned (with_stdout_closed true s).
Proof.
  intros Ht Hi Ho Hs; unfold drainer_step; rewrite Ht, Hi, Ho, Hs.
  reflexivity.
Qed.

(** A drainer that has ended takes no turn. *)
Lemma drainer_rests (n : nat) (s : session) :
  t s <> Draining -> run (repeat DrainerStep n) s = s.
Proof.
  intros Ht; induction n as [|n IH]; [reflexivity|].
  cbn [repeat]; rewrite run_cons.
  replace (step DrainerStep s) with s; [exact IH|].
  cbn; unfold drainer_step; destruct (t s); congruence.
Qed.

Lemma readline_complete (o : bool) (body rest : bytes) :
  ~ In x0a body ->
  readline o ((body ++ [x0a]) ++ rest) = Some (body ++ [x0a], rest).
Proof.
  intros Hb; unfold readline.
  now rewrite (split_line_complete body rest Hb).
Qed.

Lemma readline_last (p : bytes) :
  ~ In x0a p -> readline false p = Some (p, []).
Proof.
  intros Hp; unfold readline.
  now rewrite (split_line_partial p Hp).
Qed.

(** The drainer on a stream that has ended, from any state: the lines
    [ls], complete, then [p], without terminator. *)
Lemma drain_to_end (ls : list bytes) (p : bytes) (s : session) :
  Forall is_complete ls -> ~ In x0a p ->
  t s = Draining -> interpreter_runs s = true ->
  stdout_open s = false -> stdout s = List.concat ls ++ p ->
  let lines := ls ++ match p with [] => [] | _ => [p] end in
  let s' := run (repeat DrainerStep (S (List.length lines))) s in
  q s' = fst (enqueue_output lines (q s))
  /\ pc s' = pc s
  /\ match snd (enqueue_output lines (q s)) with
     | None =>
         t s' = Returned /\ stdout s' = [] /\ stdout_closed s' = true
         /\ lines_read s' = lines_read s ++ lines
     | Some e => t s' = Died e /\ stdout_closed s' = stdout_closed s
     end.
Proof.
  intros Hls Hp; revert s.
  induction Hls as [|l ls (body & -> & Hb) _ IH]; intros s Ht Hi Ho Hs;
    cbv zeta in *.
  - cbn [List.concat app] in Hs.
    destruct p as [|b p]; cbn [app List.length repeat].
    + rewrite run_cons; cbn [step run fold_left].
      rewrite (drainer_step_eof s Ht Hi Ho Hs); cbn.
      rewrite app_nil_r; repeat split; auto.
    + rewrite run_cons; cbn [step].
      rewrite (drainer_step_line s (b :: p) []); auto;
        [|rewrite Ho, Hs; now apply readline_last | discriminate].
      cbn [enqueue_output].
      destruct (decode_line (b :: p)) as [text|].
      * rewrite run_cons; cbn [step run fold_left].
        rewrite drainer_step_eof; cbn; repeat split; auto.
      * cbn; repeat split; auto.
  - cbn [List.concat] in Hs; rewrite <- app_assoc in Hs.
    cbn [app List.length].
    assert (Er : forall n, repeat DrainerStep (S n)
                           = DrainerStep :: repeat DrainerStep n)
      by reflexivity.
    rewrite Er; clear Er.
    rewrite run_cons; cbn [step].
    rewrite (drainer_step_line s (body ++ [x0a]) (List.concat ls ++ p));
      auto;
      [|rewrite Hs; now apply readline_complete | now destruct body].
    cbn [app enqueue_output].
    destruct (decode_line (body ++ [x0a])) as [text|].
    + specialize (IH (drained [body ++ [x0a]] [text]
                        (List.concat ls ++ p) s) Ht Hi Ho eq_refl).
      change (q (drained [body ++ [x0a]] [text] (List.concat ls ++ p) s))
        with (q s ++ [text]) in IH.
      change (pc (drained [body ++ [x0a]] [text] (List.concat ls ++ p) s))
        with (pc s) in IH.
      change (lines_read
                (drained [body ++ [x0a]] [text] (List.concat ls ++ p) s))
        with (lines_read s ++ [body ++ [x0a]]) in IH.
      change (stdout_closed
                (drained [body ++ [x0a]] [text] (List.concat ls ++ p) s))
        with (stdout_closed s) in IH.
      destruct IH as (E1 & E2 & E3).
      split; [exact E1|]; split; [exact E2|].
      destruct (snd (enqueue_output _ (q s ++ [text]))); [exact E3|].
      destruct E3 as (? & ? & ? & E3).
      repeat split; auto.
      etransitivity; [exact E3|].
      rewrite <- app_assoc; reflexivity.
    + rewrite drainer_rests by (cbn; discriminate).
      cbn; repeat split; auto.
Qed.

(** X7. On an output stream that the engine has closed, the drainer comes
    to its end in as many turns as there are lines left, and one more: the
    texts of the lines are put on the queue in order up to the first line
    that does not decode; when all lines decode the drainer has read them
    all, closed the stream and returned, else it has died with the
    exception and left the stream open.  The queue is then what
    [enqueue_output] computes on the lines of the stream. *)
Theorem drainer_runs_to_end_of_stream (s : session) :
  t s = Draining -> interpreter_runs s = true -> stdout_open s = false ->
  let lines := readlines (stdout s) in
  let s' := run (repeat DrainerStep (S (List.length lines))) s in
  q s' = fst (enqueue_output lines (q s))
  /\ pc s' = pc s
  /\ match snd (enqueue_output lines (q s)) with
     | None =>
         t s' = Returned /\ stdout s' = [] /\ stdout_closed s' = true
         /\ lines_read s' = lines_read s ++ lines
     | Some e => t s' = Died e /\ stdout_closed s' = stdout_closed s
     end.
Proof.
  intros Ht Hi Ho.
  destruct (bytes_as_lines (stdout s)) as (ls & p & Hls & Hp & Hs).
  cbv zeta; rewrite Hs, (readlines_complete ls p Hls Hp).
  exact (drain_to_end ls p s Hls Hp Ht Hi Ho Hs).
Qed.

Lemma drainer_runs_to_end_of_stream_witness :
  let s := run [EngineWrites (wire "a" ++ wire "b" ++ [x63]);
                EngineClosesOutput] initial in
  let s' := run (repeat DrainerStep 4) s in
  q s' = [Text.lit "a"; Text.lit "b"; Text.lit "c"]
  /\ t s' = Returned /\ stdout_closed s' = true.
Proof.
  intros s s'.
  destruct (drainer_runs_to_end_of_stream s eq_refl eq_refl eq_refl)
    as (H1 & _ & H2 & _ & H3 & _).
  split; [exact H1|]; split; [exact H2 | exact H3].
Defined.

(** X8. The stream is closed by the drainer and by nothing else, and only
    at the end of the stream: it is closed exactly when the drainer has
    returned, and then the engine has closed its output, the pipe is
    empty, the lines read are all the lines of all the engine has written,
    every one of them decoded, and the texts put are what
    [enqueue_output] computes on them. *)
Theorem returned_drainer_has_read_everything (sched : list action) :
  let s := run sched initial in
  (stdout_closed s = true <-> t s = Returned)
  /\ (t s = Returned ->
      stdout_open s = false /\ stdout s = []
      /\ lines_read s = readlines (emitted s)
      /\ enqueue_output (readlines (emitted s)) [] = (enqueued s, None)).
Proof.
  intros s.
  assert (Hr : reachable s) by now exists sched.
  destruct (invariants s Hr) as (_ & _ & H1 & _ & H3 & _ & H5).
  split.
  - destruct (t s); split; intros H; try discriminate;
      decompose record H5; congruence.
  - intros Ht; rewrite Ht in H5.
    destruct H5 as (E1 & E2 & E3 & E4).
    rewrite E3, app_nil_r in H1.
    split; [exact E4|]; split; [exact E3|].
    rewrite <- H1, (lines_read_are_lines s Hr).
    split; [reflexivity|].
    rewrite H3; destruct (enqueue_output (lines_read s) []); cbn in *.
    now subst.
Qed.

Lemma returned_drainer_has_read_everything_witness :
  let s := run ([EngineWrites (wire "a" ++ wire "b" ++ [x63]);
                 EngineClosesOutput] ++ repeat DrainerStep 4) initial in
  lines_read s = [wire "a"; wire "b"; [x63]]
  /\ enqueued s = [Text.lit "a"; Text.lit "b"; Text.lit "c"].
Proof.
  intros s.
  destruct (returned_drainer_has_read_everything
              ([EngineWrites (wire "a" ++ wire "b" ++ [x63]);
                EngineClosesOutput] ++ repeat DrainerStep 4)) as [_ H].
  destruct (H eq_refl) as (_ & _ & H1 & H2).
  split; [exact H1|].
  exact (f_equal fst (eq_sym H2)).
Defined.

Lemma texts_have_no_newline (raws : list bytes) (texts : list str) :
  texts_of raws texts -> Forall is_line raws ->
  Forall (fun text => ~ In Text.NL text) texts.
Proof.
  induction 1 as [|raw text raws texts Hd _ IH]; intros Hl; [constructor|].
  apply Forall_cons_iff in Hl as [Hraw Hl].
  constructor; [|now apply IH].
  unfold decode_line in Hd.
  destruct (Utf8.decode raw) as [d|] eqn:Ed; [|discriminate].
  destruct (decode_line_chomp raw d Hraw Ed) as [Hc Hn].
  unfold decode_line in Hc; rewrite Ed in Hc.
  congruence.
Qed.

(** X9. No text on the queue has a newline in it, whatever the engine
    writes: so each echo [ENGINE: line] is one line of the console, with
    its only newline at its end. *)
Theorem echoes_are_single_lines (sched : list action) :
  let s := run sched initial in
  Forall (fun text => ~ In Text.NL text) (enqueued s)
  /\ forall line,
       In line (dequeued s) ->
       exists body,
         engine_echo line = body ++ [Text.NL] /\ ~ In Text.NL body.
Proof.
  intros s.
  assert (Hr : reachable s) by now exists sched.
  destruct (invariants s Hr) as (_ & _ & _ & H2 & H3 & H4 & H5).
  assert (He : Forall (fun text => ~ In Text.NL text) (enqueued s)).
  { destruct (t s).
    - destruct H5 as [H5 _].
      apply (texts_have_no_newline (lines_read s)); [|exact H2].
      apply enqueue_output_texts.
      rewrite H3; destruct (enqueue_output (lines_read s) []); cbn in *.
      now subst.
    - destruct H5 as (_ & _ & _ & valid & bad & E1 & _ & E3).
      apply (texts_have_no_newline valid).
      + now apply enqueue_output_texts.
      + rewrite E1 in H2; now apply Forall_app in H2 as [H2 _].
    - destruct H5 as [H5 _].
      apply (texts_have_no_newline (lines_read s)); [|exact H2].
      apply enqueue_output_texts.
      rewrite H3; destruct (enqueue_output (lines_read s) []); cbn in *.
      now subst. }
  split; [exact He|].
  intros line Hin.
  exists (Text.lit "ENGINE:" ++ [32] ++ line); split.
  - unfold engine_echo, print2; now rewrite <- !app_assoc.
  - rewrite Forall_forall in He.
    assert (Hl : ~ In Text.NL line).
    { apply He; rewrite <- H4; apply in_or_app; now left. }
    rewrite !in_app_iff; cbn.
    intuition discriminate.
Qed.

Lemma echoes_are_single_lines_witness :
  exists body,
    engine_echo (Text.lit "log") = body ++ [Text.NL]
    /\ ~ In Text.NL body.
Proof.
  destruct (echoes_are_single_lines
              (stub_session (wire "log" ++ wire "bestmove x") 3 1))
    as [_ H].
  apply H; vm_compute; left; reflexivity.
Defined.

(** *** The main thread, several statements at once *)

(** The three statements of the loop on a line that fails the test. *)
Lemma poll_one_miss (s : session) (d : str) (rest : list str) :
  pc s = AtGet -> q s = d :: rest -> matches d = false ->
  run [MainStep; MainStep; MainStep] s = with_pc AtGet (polled [d] rest s).
Proof.
  open_session s; cbn; intros -> -> Hm.
  unfold main_step; cbn; rewrite Hm; reflexivity.
Qed.

(** The three statements of the loop on a line that passes it. *)
Lemma poll_one_hit (s : session) (b : str) (rest : list str) :
  pc s = AtGet -> q s = b :: rest -> matches b = true ->
  run [MainStep; MainStep; MainStep] s
  = with_pc AtFinalPrint (with_bestmove (Some b) (polled [b] rest s)).
Proof.
  open_session s; cbn; intros -> -> Hm.
  unfold main_step; cbn; rewrite Hm; reflexivity.
Qed.

Lemma polled_polled (d : str) (lines rest rest' : list str) (s : session) :
  polled lines rest (with_pc AtGet (polled [d] rest' s))
  = with_pc AtGet (polled (d :: lines) rest s).
Proof.
  open_session s; unfold polled; cbn.
  now rewrite <- !app_assoc.
Qed.

(** The loop on a queue that holds the lines [diag], which fail the test,
    then [best], which passes it. *)
Lemma poll_lines (diag rest : list str) (best : str) (s : session) :
  pc s = AtGet -> q s = diag ++ best :: rest ->
  existsb matches diag = false -> matches best = true ->
  run (repeat MainStep (3 + List.length diag * 3)) s
  = with_pc AtFinalPrint
      (with_bestmove (Some best) (polled (diag ++ [best]) rest s)).
Proof.
  revert s; induction diag as [|d diag IH]; intros s Hpc Hq Hd Hb.
  - exact (poll_one_hit s best rest Hpc Hq Hb).
  - cbn in Hd; apply orb_false_elim in Hd as [Hm Hd].
    assert (Er : forall n, repeat MainStep (3 + S n * 3)
                           = [MainStep; MainStep; MainStep]
                               ++ repeat MainStep (3 + n * 3))
      by reflexivity.
    cbn [List.length]; rewrite Er, run_app; clear Er.
    rewrite (poll_one_miss s d (diag ++ best :: rest) Hpc Hq Hm).
    rewrite IH by (auto; reflexivity).
    rewrite polled_polled.
    open_session s; reflexivity.
Qed.

(** The loop on a queue that begins with the lines [lines], none of
    which passes the test, every [print] returning. *)
Lemma poll_misses (lines rest : list str) (s : session) :
  pc s = AtGet -> q s = lines ++ rest ->
  existsb matches lines = false ->
  run (repeat MainStep (List.length lines * 3)) s
  = with_pc AtGet (polled lines rest s).
Proof.
  revert s; induction lines as [|d lines IH]; intros s Hpc Hq Hd.
  - open_session s; cbn in *; subst.
    unfold polled; cbn; now rewrite !app_nil_r.
  - cbn in Hd; apply orb_false_elim in Hd as [Hm Hd].
    assert (Er : forall n, repeat MainStep (S n * 3)
                           = [MainStep; MainStep; MainStep]
                               ++ repeat MainStep (n * 3))
      by reflexivity.
    cbn [List.length]; rewrite Er, run_app; clear Er.
    rewrite (poll_one_miss s d (lines ++ rest) Hpc Hq Hm).
    rewrite IH by (auto; reflexivity).
    rewrite polled_polled.
    open_session s; reflexivity.
Qed.

(** A line is taken from the queue and the [print] of its echo raises. *)
Lemma print_refused (line : str) (rest : list str) (e : exn)
  (s : session) :
  pc s = AtGet -> q s = line :: rest ->
  print_can_raise e (engine_echo line) = true ->
  run [MainStep; PrintRaises e] s
  = with_pc (Crashed e)
      (with_q rest (with_dequeued (dequeued s ++ [line]) s)).
Proof.
  intros Hpc Hq He.
  open_session s; cbn in Hpc, Hq; subst.
  unfold run; cbn [fold_left step].
  unfold main_step; cbn [pc q].
  unfold print_raises; cbn [pc with_pc].
  rewrite He; reflexivity.
Qed.

(** The lines of a queue up to a given one: those before it are before
    the last. *)
Lemma split_before_last (A : Type) (l before after : list A) (x y : A) :
  l ++ [x] = before ++ y :: after ->
  (before = l /\ y = x /\ after = [])
  \/ exists mid, l = before ++ y :: mid /\ after = mid ++ [x].
Proof.
  destruct after as [|z after] using rev_ind; intros E.
  - apply app_inj_tail in E as [-> ->]; auto.
  - clear IHafter; right; exists after.
    change (before ++ y :: after ++ [z])
      with (before ++ (y :: after) ++ [z]) in E.
    rewrite app_assoc in E.
    apply app_inj_tail in E as [-> ->].
    split; reflexivity.
Qed.

(** X10. In the loop, with the lines [diag] on the queue, none of which
    begins with [bestmove], then the line [best], which does.  When every
    [print] returns, the main thread alone, in three statements for each
    line, takes these lines, prints their echoes in order, keeps [best] in
    [bestmove] and leaves the loop; the lines that follow [best] stay on
    the queue, and nothing is sent to the engine.  When the [print] of one
    of these lines raises, the line [best] included, the main thread ends
    there with the exception: the lines before that one are echoed, that
    one is taken and not echoed, the lines after it stay on the queue, and
    [bestmove] is not set. *)
Theorem waiter_takes_lines_up_to_bestmove
  (s : session) (diag rest : list str) (best : str) :
  pc s = AtGet -> q s = diag ++ best :: rest ->
  existsb matches diag = false -> matches best = true ->
  (let s' := run (repeat MainStep (3 + List.length diag * 3)) s in
   pc s' = AtFinalPrint /\ bestmove s' = Some best
   /\ q s' = rest
   /\ dequeued s' = dequeued s ++ diag ++ [best]
   /\ console s' = console s ++ map engine_echo (diag ++ [best])
   /\ stdin s' = stdin s)
  /\ (forall before bad after e,
         diag ++ [best] = before ++ bad :: after ->
         print_can_raise e (engine_echo bad) = true ->
         let s' := run (repeat MainStep (List.length before * 3)
                          ++ [MainStep; PrintRaises e]) s in
         pc s' = Crashed e /\ bestmove s' = bestmove s
         /\ q s' = after ++ rest
         /\ dequeued s' = dequeued s ++ before ++ [bad]
         /\ console s' = console s ++ map engine_echo before
         /\ stdin s' = stdin s).
Proof.
  intros Hpc Hq Hd Hb; split.
  - intros s'; unfold s'.
    rewrite (poll_lines diag rest best s Hpc Hq Hd Hb).
    repeat split.
  - intros before bad after e E He s'; unfold s'; clear s'.
    assert (Hq' : q s = before ++ bad :: after ++ rest).
    { rewrite Hq.
      change (diag ++ best :: rest) with (diag ++ [best] ++ rest).
      rewrite app_assoc, E, <- app_assoc; reflexivity. }
    assert (Hm : existsb matches before = false).
    { destruct (split_before_last _ diag before after best bad E)
        as [(-> & _)|(mid & -> & _)]; [exact Hd|].
      rewrite existsb_app in Hd; now apply orb_false_elim in Hd. }
    rewrite run_app.
    rewrite (poll_misses before (bad :: after ++ rest) s Hpc Hq' Hm).
    rewrite (print_refused bad (after ++ rest) e); try reflexivity; auto.
    unfold polled; cbn.
    repeat split; now rewrite <- ?app_assoc.
Qed.

Lemma waiter_takes_lines_up_to_bestmove_witness :
  let s := run (stub_session
                  (wire "log" ++ wire "bestmove x" ++ wire "late") 3 0)
             initial in
  (let s' := run (repeat MainStep 6) s in
   bestmove s' = Some (Text.lit "bestmove x")
   /\ q s' = [Text.lit "late"])
  /\ (let s' := run (repeat MainStep 3 ++ [MainStep; PrintRaises OSError])
                  s in
      pc s' = Crashed OSError /\ q s' = [Text.lit "late"]).
Proof.
  intros s.
  destruct (waiter_takes_lines_up_to_bestmove s [Text.lit "log"]
              [Text.lit "late"] (Text.lit "bestmove x"))
    as [(_ & H2 & H3 & _) H]; try (vm_compute; reflexivity).
  split; [split; [exact H2 | exact H3]|].
  destruct (H [Text.lit "log"] (Text.lit "bestmove x") [] OSError)
    as (G1 & _ & G3 & _); try reflexivity.
  split; [exact G1 | exact G3].
Defined.

(** Once [bestmove] is set, a step takes nothing from the queue. *)
Lemma after_break_step (a : action) (s : session) :
  reachable s -> bestmove s <> None ->
  dequeued (step a s) = dequeued s
  /\ bestmove (step a s) = bestmove s
  /\ exists put, q (step a s) = q s ++ put.
Proof.
  intros Hr Hb.
  destruct (action_cases a) as [->|[[e ->]|[Ha Hn]]].
  2:{ cbn; destruct (print_raises_cases e s) as [->|[-> _]]; cbn;
        repeat split; exists []; now rewrite app_nil_r. }
  - destruct (invariants s Hr) as (Hw & _ & _).
    unfold waiter_view in Hw; cbn; unfold main_step.
    destruct (pc s) as [todo| | line | line | | | | | e].
    all: try (exfalso; decompose record Hw; congruence).
    all: try (cbn; repeat split; auto; exists []; now rewrite app_nil_r).
    + destruct (send _ _ _) as [w [e|]]; cbn; repeat split; auto;
        exists []; now rewrite app_nil_r.
    + destruct (engine s); cbn; repeat split; auto;
        exists []; now rewrite app_nil_r.
  - destruct (others_keep_main a s Ha Hn) as (_ & E2 & _ & E4 & _).
    destruct (only_main_gets a s Ha) as [_ E].
    auto.
Qed.

(** X11. Once the loop has ended, the queue is not read any more: the
    lines that the engine writes after its [bestmove] line may still be put
    on the queue by the drainer, and none is ever taken from it; the move
    kept in [bestmove] does not change. *)
Theorem nothing_is_taken_after_the_loop
  (sched more : list action) :
  let s := run sched initial in
  bestmove s <> None ->
  dequeued (run more s) = dequeued s
  /\ bestmove (run more s) = bestmove s
  /\ exists put, q (run more s) = q s ++ put.
Proof.
  intros s.
  assert (Hr : reachable s) by now exists sched.
  clearbody s; clear sched.
  revert s Hr; induction more as [|a more IH]; intros s Hr Hb.
  - repeat split; exists []; now rewrite app_nil_r.
  - rewrite run_cons.
    destruct (after_break_step a s Hr Hb) as (E1 & E2 & put & E3).
    destruct (IH (step a s)) as (F1 & F2 & put' & F3).
    + now apply reachable_step.
    + congruence.
    + repeat split; try congruence.
      exists (put ++ put'); rewrite F3, E3; now rewrite app_assoc.
Qed.

Lemma nothing_is_taken_after_the_loop_witness :
  let s := run (stub_session
                  (wire "bestmove x" ++ wire "late" ++ wire "later") 1 3)
             initial in
  dequeued (run (repeat DrainerStep 2 ++ repeat MainStep 5) s)
  = [Text.lit "bestmove x"].
Proof.
  intros s.
  destruct (nothing_is_taken_after_the_loop
              (stub_session
                 (wire "bestmove x" ++ wire "late" ++ wire "later") 1 3)
              (repeat DrainerStep 2 ++ repeat MainStep 5))
    as (H & _); [vm_compute; discriminate|].
  exact H.
Defined.

(** *** The end of the script *)

Lemma engine_view_initial : engine_view initial.
Proof.
  repeat split; try discriminate.
Qed.

Lemma engine_view_step (a : action) (s : session) :
  reachable s -> engine_view s -> engine_view (step a s).
Proof.
  intros Hr H; unfold engine_view in *; destruct H as (H1 & H2 & H3).
  destruct a; cbn [step].
  - unfold engine_writes.
    destruct (alive (engine s) && stdout_open s);
      cbn; intuition congruence.
  - unfold engine_closes_output; cbn; intuition congruence.
  - unfold engine_closes_input; cbn; intuition congruence.
  - unfold engine_exits.
    destruct (alive (engine s)) eqn:Ea; cbn; intuition congruence.
  - unfold drainer_step.
    destruct (t s); [|intuition congruence..].
    destruct (interpreter_runs s); [|intuition congruence].
    destruct (readline (stdout_open s) (stdout s)) as [[[|b l] rest]|];
      [cbn; intuition congruence| |intuition congruence].
    destruct (decode_line (b :: l)); cbn; intuition congruence.
  - destruct (invariants s Hr) as (_ & Hs & _).
    unfold stdin_view in Hs; unfold main_step.
    destruct (pc s) as [[|cmd todo]| | line | line | | | | | e] eqn:Epc.
    + cbn; intuition congruence.
    + destruct Hs as (_ & sent & E & Hok).
      assert (Hc : Utf8.encode cmd <> None).
      { apply script_encodes.
        change (board_setup ++ [go; quit])
          with (board_setup ++ [go] ++ [quit]).
        rewrite app_assoc, <- E, !in_app_iff; cbn; auto. }
      destruct (stdin_open s) eqn:Eo.
      * destruct (sent_ok_send sent cmd (stdin s) Hc Hok) as [Hn _].
        destruct (send true cmd (stdin s)) as [w [e|]]; [discriminate|].
        cbn; intuition congruence.
      * destruct (send false cmd (stdin s)) as [w [e|]];
          cbn; intuition congruence.
    + destruct (q s); cbn; rewrite ?Epc; intuition congruence.
    + cbn; intuition congruence.
    + destruct (matches line); cbn; intuition congruence.
    + cbn; intuition congruence.
    + destruct Hs as (_ & Hok).
      assert (Hc : Utf8.encode quit <> None).
      { apply script_encodes; rewrite in_app_iff; cbn; auto. }
      destruct (stdin_open s) eqn:Eo.
      * destruct (sent_ok_send _ quit (stdin s) Hc Hok) as [Hn _].
        destruct (send true quit (stdin s)) as [w [e|]]; [discriminate|].
        cbn; intuition congruence.
      * destruct (send false quit (stdin s)) as [w [e|]];
          cbn; intuition congruence.
    + destruct (engine s) eqn:Ee; cbn; rewrite ?Epc, ?Ee; cbn;
        intuition congruence.
    + rewrite Epc; intuition congruence.
    + rewrite Epc; intuition congruence.
  - destruct (invariants s Hr) as (_ & Hs & _).
    unfold stdin_view in Hs.
    destruct (print_raises_cases e s)
      as [->|[-> [(line & Epc & _)|[Epc _]]]];
      [intuition congruence| |];
      rewrite Epc in Hs; cbn.
    + destruct Hs as (_ & _ & Hb).
      split; [exact H1|]; split; [discriminate|].
      intros e' _ Hn; now destruct Hn.
    + destruct Hs as (_ & _ & _ & Hb).
      split; [exact H1|]; split; [discriminate|].
      intros e' _ Hn; now destruct Hn.
Qed.

Lemma engine_view_reachable (s : session) : reachable s -> engine_view s.
Proof.
  intros Hr; induction Hr as [|a s Hr IH] using reachable_ind.
  - exact engine_view_initial.
  - now apply engine_view_step.
Qed.

(** X12. A [send] on a pipe that the engine has closed, or left behind by
    exiting, raises [BrokenPipeError] in [flush], for any command of the
    script, [quit] included: the main thread ends there, the command stays
    in the buffer of the writer and does not reach the engine, nothing is
    printed, and nothing happens on the side of the script from then on;
    [engine.wait()] is not reached. *)
Theorem send_on_closed_input_crashes (sched more : list action) :
  let s := run sched initial in
  stdin_open s = false ->
  (exists cmd todo, pc s = AtSend (cmd :: todo)) \/ pc s = AtQuit ->
  let cmd := match pc s with AtSend (cmd :: _) => cmd | _ => quit end in
  let s' := main_step s in
  pc s' = Crashed BrokenPipeError
  /\ delivered (stdin s') = delivered (stdin s)
  /\ buffered (stdin s') = encoded cmd /\ encoded cmd <> []
  /\ console s' = console s
  /\ script_side (run more s') = script_side s'.
Proof.
  intros s Ho Hpc cmd s'.
  assert (Hr : reachable s) by now exists sched.
  destruct (invariants s Hr) as (_ & Hs & _).
  unfold stdin_view in Hs.
  assert (Hgen : forall sent c,
             In c (board_setup ++ [go; quit]) ->
             sent_ok sent (stdin s) ->
             snd (send false c (stdin s)) = Some BrokenPipeError
             /\ delivered (fst (send false c (stdin s)))
                = delivered (stdin s)
             /\ buffered (fst (send false c (stdin s))) = encoded c
             /\ encoded c <> []).
  { intros sent c Hin Hok.
    assert (Hc := script_encodes c Hin).
    destruct (sent_failed_send sent c (stdin s) Hc Hok)
      as (E1 & _ & E2 & E3).
    destruct Hok as (_ & E4 & _).
    repeat split; auto; try congruence.
    destruct (Utf8.encode c) as [data|] eqn:E; [|congruence].
    rewrite (encoded_of c data E); now destruct data. }
  assert (Hend : forall x, pc x = Crashed BrokenPipeError ->
                           script_side (run more x) = script_side x).
  { intros x Hx; apply ended_run; unfold interpreter_runs; now rewrite Hx. }
  destruct Hpc as [(c & todo & Epc)|Epc].
  - subst s' cmd; unfold main_step; rewrite Epc in *; rewrite Ho.
    destruct Hs as (_ & sent & E & Hok).
    destruct (Hgen sent c) as (G1 & G2 & G3 & G4); auto.
    { change (board_setup ++ [go; quit])
        with (board_setup ++ [go] ++ [quit]).
      rewrite app_assoc, <- E, !in_app_iff; cbn; auto. }
    destruct (send false c (stdin s)) as [w e]; cbn in *; subst e.
    repeat split; auto.
  - subst s' cmd; unfold main_step; rewrite Epc in *; rewrite Ho.
    destruct Hs as (_ & Hok).
    destruct (Hgen (board_setup ++ [go]) quit) as (G1 & G2 & G3 & G4);
      auto.
    { rewrite in_app_iff; cbn; auto. }
    destruct (send false quit (stdin s)) as [w e]; cbn in *; subst e.
    repeat split; auto.
Qed.

Lemma send_on_closed_input_crashes_witness :
  let s := run (repeat MainStep 5 ++ [EngineExits 1]) initial in
  pc (main_step s) = Crashed BrokenPipeError
  /\ delivered (stdin (main_step s)) = delivered (stdin s).
Proof.
  intros s.
  destruct (send_on_closed_input_crashes
              (repeat MainStep 5 ++ [EngineExits 1]) [])
    as (H1 & H2 & _).
  - vm_compute; reflexivity.
  - left; vm_compute; eexists; eexists; reflexivity.
  - split; [exact H1 | exact H2].
Defined.

Lemma encoded_nonempty (cmd : str) :
  Utf8.encode cmd <> None -> encoded cmd <> [].
Proof.
  intros H; destruct (Utf8.encode cmd) as [data|] eqn:E; [|congruence].
  rewrite (encoded_of cmd data E); now destruct data.
Qed.

(** X13. How the script ends.  [Popen] raises when the operating system
    does not start the engine, [FileNotFoundError] when the file is not
    there, and nothing else is done.  Once the engine is started, the main
    thread ends in one of five ways.  [engine.wait()] has returned: the
    engine has ended, every command of the script, [quit] last, has
    reached the pipe, and [bestmove] holds a line that begins with
    [bestmove].  Or a [send] has raised [BrokenPipeError], before the loop
    or for [quit]: the engine had closed its input, the commands before
    have reached the pipe and the one that raised is left in the buffer.
    Or a [print] has raised, that of the loop, on the line taken last,
    which is not echoed, or that of the final move.  Once the main thread
    has ended, nothing changes on the side of the script: the drainer, a
    daemon thread, ends with it. *)
Theorem script_endings (sched more : list action) :
  (forall os e,
      script os sched = inr e ->
      (os = NoSuchFile /\ e = FileNotFoundError)
      \/ (os = NotRunnable /\ e = OSError))
  /\ (forall os s,
         script os sched = inl s -> interpreter_runs s = false ->
         os = Launched
         /\ (pc s = Exited
             /\ (exists rc, engine s = Terminated rc)
             /\ delivered (stdin s) = List.concat script_wire
             /\ buffered (stdin s) = []
             /\ (exists best, bestmove s = Some best /\ matches best = true)
             \/
             exists e,
               pc s = Crashed e
               /\ (crashed_in_setup e s /\ stdin_open s = false
                   \/ crashed_at_print e s
                   \/ crashed_at_final_print e s
                   \/ crashed_at_quit e s /\ stdin_open s = false))
         /\ script_side (run more s) = script_side s).
Proof.
  split.
  - intros [| |] e H; try discriminate; injection H as <-; auto.
  - intros [| |] s0 H Hi; try discriminate.
    unfold script in H; cbn in H; injection H as <-.
    set (s := run sched initial) in *.
    assert (Hr : reachable s) by now exists sched.
    split; [reflexivity|]; split; [|now apply ended_run].
    destruct (invariants s Hr) as (Hw & Hs & _).
    destruct (engine_view_reachable s Hr) as (_ & H2 & H3).
    assert (Hc := crashed s Hr).
    unfold interpreter_runs in Hi; unfold waiter_view in Hw;
      unfold stdin_view in Hs.
    destruct (pc s) as [todo| | line | line | | | | | e] eqn:Epc;
      try discriminate.
    + left; split; [reflexivity|].
      destruct Hs as (_ & E2 & E3).
      destruct Hw as (seen & best & _ & _ & Hb & _ & Eb).
      split; [|split; [|split; [exact E3 | now exists best]]].
      * specialize (H2 eq_refl).
        destruct (engine s) as [|rc]; [discriminate|now exists rc].
      * now rewrite E2, script_on_the_wire.
    + right; exists e; split; [reflexivity|].
      destruct (Hc e Epc) as [G|[G|[G|G]]]; auto.
      * left; split; [exact G|].
        destruct G as (_ & _ & _ & _ & sent & cmd & todo & E & _ & _ & Eb).
        apply (H3 e eq_refl); rewrite Eb.
        apply encoded_nonempty, script_encodes.
        change (In cmd ((board_setup ++ [go]) ++ [quit])).
        rewrite <- E, !in_app_iff; cbn; auto.
      * right; right; right; split; [exact G|].
        destruct G as (_ & _ & _ & _ & Eb).
        apply (H3 e eq_refl); rewrite Eb.
        apply encoded_nonempty, script_encodes.
        rewrite in_app_iff; cbn; auto.
Qed.

Lemma script_endings_witness :
  script NoSuchFile [MainStep] = inr FileNotFoundError
  /\ exists s,
       script Launched [EngineClosesInput; MainStep] = inl s
       /\ script_side
            (run [EngineWrites [x41; x0a]; DrainerStep; MainStep] s)
          = script_side s.
Proof.
  split; [reflexivity|].
  exists (run [EngineClosesInput; MainStep] initial).
  split; [reflexivity|].
  destruct (script_endings [EngineClosesInput; MainStep]
              [EngineWrites [x41; x0a]; DrainerStep; MainStep])
    as [_ H].
  destruct (H Launched (run [EngineClosesInput; MainStep] initial))
    as (_ & _ & H'); [reflexivity | vm_compute; reflexivity |].
  exact H'.
Defined.

(** *** An engine that answers *)

(** The drainer on the lines of the texts [texts], one turn for each. *)
Lemma drain_plain_lines (texts : list str) (rest : bytes) (s : session) :
  Forall plain texts -> t s = Draining -> interpreter_runs s = true ->
  stdout s = stream_of texts ++ rest ->
  run (repeat DrainerStep (List.length texts)) s
  = drained (map encoded texts) texts rest s.
Proof.
  intros Hp; revert s; induction Hp as [|text texts Ht _ IH];
    intros s Hd Hi Hs.
  - cbn in *; open_session s; cbn in *; subst.
    unfold drained; cbn; now rewrite !app_nil_r.
  - cbn [List.length repeat]; rewrite run_cons.
    destruct (plain_line_complete text Ht) as (body & Eb & Hb).
    unfold stream_of in Hs; cbn [map List.concat] in Hs.
    rewrite <- app_assoc, Eb in Hs.
    assert (Hl : readline (stdout_open s) (stdout s)
                 = Some (encoded text, stream_of texts ++ rest)).
    { rewrite Hs, Eb; now apply readline_complete. }
    cbn [step].
    rewrite (drainer_step_line s (encoded text) (stream_of texts ++ rest)
               Hd Hi Hl)
      by (rewrite Eb; now destruct body).
    rewrite (plain_line_decodes text Ht).
    rewrite IH; try reflexivity.
    + open_session s; unfold drained; cbn.
      now rewrite <- !app_assoc.
    + exact Hd.
    + exact Hi.
Qed.

(** The end of the script, from the print of the final move, when the
    engine takes [quit] and then exits. *)
Lemma finish_script (s : session) (rc : Z) (w : writer) :
  pc s = AtFinalPrint -> stdin_open s = true -> engine s = Running ->
  send true quit (stdin s) = (w, None) ->
  run [MainStep; MainStep; EngineExits rc; MainStep] s
  = with_pc Exited
      (with_engine (Terminated rc)
         (with_stdin_open false
            (with_stdout_open false
               (with_pc AtWait
                  (with_stdin w
                     (with_pc AtQuit
                        (with_console
                           (console s ++ [final_echo (bestmove s)])
                           s))))))).
Proof.
  intros Hpc Ho He Hw.
  open_session s; cbn in Hpc, Ho, He, Hw; subst.
  unfold run; cbn [fold_left step].
  unfold main_step at 3; cbn [pc].
  unfold main_step at 2; cbn [pc with_pc with_console stdin_open stdin].
  rewrite Hw.
  unfold engine_exits; cbn [engine with_pc with_stdin alive].
  unfold main_step; cbn [pc engine with_engine with_stdin_open
                          with_stdout_open].
  reflexivity.
Qed.

(** X14. The script against an engine that answers, in the runs of
    [answering_session]: the main thread polls the empty queue any number
    of times before and after the engine writes; the engine writes
    diagnostics [diag], lines of text none of which begins with
    [bestmove], and then the line [best], which does; the drainer reads
    them all before the main thread takes the first; every [print]
    returns; the engine exits with some code once [quit] has been sent.
    Then the script comes to its end: it has sent the set-up, [go] and
    [quit], in that order and nothing else; it has printed [ENGINE: line]
    for each line of the engine, in order, and then, after a newline,
    [Final engine move: best]; the queue is empty; the return code of the
    engine and the numbers of empty polls play no part. *)
Theorem engine_answer_is_reported
  (idle late : nat) (diag : list str) (best : str) (rc : Z) :
  Forall plain (diag ++ [best]) ->
  existsb matches diag = false -> matches best = true ->
  let s := run (answering_session idle late diag best rc) initial in
  pc s = Exited /\ engine s = Terminated rc
  /\ bestmove s = Some best
  /\ console s
     = map (fun line => Text.lit "ENGINE: " ++ line ++ [Text.NL])
         (diag ++ [best])
         ++ [Text.NL :: Text.lit "Final engine move: " ++ best
               ++ [Text.NL]]
  /\ delivered (stdin s) = List.concat script_wire
  /\ q s = [] /\ dequeued s = diag ++ [best].
Proof.
  intros Hp Hd Hb s; subst s; unfold answering_session.
  rewrite !run_app.
  set (s0 := run (repeat MainStep 13) initial).
  assert (Hr : reachable s0) by (exists (repeat MainStep 13); reflexivity).
  destruct (invariants s0 Hr) as (_ & Hs & _).
  assert (E0 : (engine s0, stdin_open s0, stdout_open s0, stdout s0,
                stdout_closed s0, q s0, t s0, pc s0, bestmove s0,
                console s0, emitted s0, lines_read s0, enqueued s0,
                dequeued s0)
               = (Running, true, true, [], false, [], Draining, AtGet,
                  None, [], [], [], [], []))
    by (vm_compute; reflexivity).
  clearbody s0; clear Hr.
  open_session s0; cbn in E0; injection E0; intros; subst.
  unfold stdin_view in Hs; cbn in Hs.
  assert (Hq : Utf8.encode quit <> None)
    by (apply script_encodes; rewrite in_app_iff; cbn; auto).
  destruct (sent_ok_send _ quit sin Hq Hs) as (Hn & _ & Hdel & _).
  destruct (send true quit sin) as [w e] eqn:Hw; cbn in Hn, Hdel; subst e.
  set (texts := diag ++ [best]) in *.
  rewrite (empty_queue_poll idle) by reflexivity.
  assert (E1 : forall data x,
             run [EngineWrites data] x = engine_writes data x)
    by reflexivity.
  rewrite E1; clear E1.
  unfold engine_writes; cbn [engine stdout_open alive andb stdout emitted
                              app with_emitted with_stdout].
  rewrite (empty_queue_poll late) by reflexivity.
  rewrite (drain_plain_lines texts []); try reflexivity; auto.
  2: { cbn; now rewrite app_nil_r. }
  rewrite (poll_lines diag [] best); try reflexivity; auto.
  rewrite (finish_script _ rc w); try reflexivity; [|exact Hw].
  unfold drained, polled; cbn.
  rewrite Hdel.
  change (board_setup ++ [go; quit])
    with ((board_setup ++ [go]) ++ [quit]) in *.
  repeat split; rewrite <- ?script_on_the_wire; auto.
Qed.

Lemma engine_answer_is_reported_witness :
  let s := run (answering_session 4 2 [Text.lit "info depth 4"]
                  (Text.lit "bestmove Ra2n") 0) initial in
  pc s = Exited /\ bestmove s = Some (Text.lit "bestmove Ra2n")
  /\ console s
     = [ Text.lit "ENGINE: info depth 4" ++ [Text.NL];
         Text.lit "ENGINE: bestmove Ra2n" ++ [Text.NL];
         Text.NL :: Text.lit "Final engine move: bestmove Ra2n"
           ++ [Text.NL] ].
Proof.
  intros s.
  destruct (engine_answer_is_reported 4 2 [Text.lit "info depth 4"]
              (Text.lit "bestmove Ra2n") 0)
    as (H1 & _ & H3 & H4 & _).
  - apply forallb_plain; vm_compute; reflexivity.
  - vm_compute; reflexivity.
  - vm_compute; reflexivity.
  - split; [exact H1|]; split; [exact H3 | exact H4].
Defined.
